(** * The math-expression compiler of ExtraNodes (nodes/mathexpression.py)

    A shallow embedding of the expression pipeline: the text helpers
    ([match_exact_tokens], [replace_exact_tokens],
    [replace_superscript_exponents]), the sanitizer
    ([sanatize_expression]), the lowering of the syntax tree
    ([FunctionTransformer]), the registry and executor ([NodeSetter]) and the
    recompilation pass ([apply_expression]), followed by the properties
    established about them. *)

From Stdlib Require Import String Ascii.
From Stdlib Require Import List NArith ZArith Bool Lia Permutation.
Import ListNotations.

Set Implicit Arguments.

(** ** Python strings

    A Python [str] is a sequence of Unicode code points.  Literals are written
    as UTF-8 text and decoded by [py]. *)

Definition char := N.
Definition str := list char.

Fixpoint bytes_of (s : string) : list N :=
  match s with
  | EmptyString => []
  | String a r => N_of_ascii a :: bytes_of r
  end.

Fixpoint utf8_decode (l : list N) : str :=
  match l with
  | [] => []
  | b0 :: r0 =>
    if (b0 <? 192)%N then b0 :: utf8_decode r0
    else match r0 with
    | [] => [b0]
    | b1 :: r1 =>
      if (b0 <? 224)%N then ((b0 - 192) * 64 + (b1 - 128))%N :: utf8_decode r1
      else match r1 with
      | [] => [b0; b1]
      | b2 :: r2 =>
        if (b0 <? 240)%N
        then ((b0 - 224) * 4096 + (b1 - 128) * 64 + (b2 - 128))%N :: utf8_decode r2
        else match r2 with
        | [] => [b0; b1; b2]
        | b3 :: r3 =>
          ((b0 - 240) * 262144 + (b1 - 128) * 4096 + (b2 - 128) * 64 + (b3 - 128))%N
            :: utf8_decode r3
        end
      end
    end
  end.

Definition py (s : string) : str := utf8_decode (bytes_of s).

(** A one-character literal. *)
Definition ch (s : string) : char := hd 0%N (py s).

Definition char_eqb (a b : char) : bool := N.eqb a b.

Fixpoint str_eqb (a b : str) : bool :=
  match a, b with
  | [], [] => true
  | x :: a', y :: b' => char_eqb x y && str_eqb a' b'
  | _, _ => false
  end.

(** [c in s] for a character, [t in l] for a string in a list or set. *)
Definition char_in (c : char) (s : str) : bool := existsb (char_eqb c) s.
Definition str_in (t : str) (l : list str) : bool := existsb (str_eqb t) l.

(** [a.startswith(p)], returning the remainder. *)
Fixpoint strip_prefix (p s : str) : option str :=
  match p, s with
  | [], _ => Some s
  | x :: p', y :: s' => if char_eqb x y then strip_prefix p' s' else None
  | _ :: _, [] => None
  end.

(** [p in s] for strings (substring test). *)
Fixpoint substring_in (p s : str) : bool :=
  match strip_prefix p s with
  | Some _ => true
  | None => match s with
            | [] => false
            | _ :: s' => substring_in p s'
            end
  end.

(** [s.replace(c, r)] for a one-character [c]. *)
Definition replace_char (c : char) (r : str) (s : str) : str :=
  flat_map (fun x => if char_eqb x c then r else [x]) s.

(** [s.split(sep)] for a one-character separator. *)
Fixpoint split_on (sep : char) (cur : str) (s : str) : list str :=
  match s with
  | [] => [rev cur]
  | c :: s' => if char_eqb c sep then rev cur :: split_on sep [] s'
               else split_on sep (c :: cur) s'
  end.

Definition split (sep : char) (s : str) : list str := split_on sep [] s.

(** Decimal text of a small number, as an f-string prints it. *)
Definition digit_char (n : nat) : char := (48 + N.of_nat n)%N.

Fixpoint str_of_nat_aux (fuel n : nat) (acc : str) : str :=
  match fuel with
  | O => acc
  | S f => let acc' := digit_char (Nat.modulo n 10) :: acc in
           if Nat.ltb n 10 then acc' else str_of_nat_aux f (Nat.div n 10) acc'
  end.

Definition str_of_nat (n : nat) : str := str_of_nat_aux (S n) n [].

(** ** The host: what the source takes from the Python runtime

    [str.isalpha], [str.isdigit] and the regex classes [\d] and [\w] consult
    the Unicode character database; a Python [set] is iterated in an order
    the language leaves open.  ASCII is classified below; beyond ASCII, and
    for the iteration order, the development is parametric in a [Host]. *)

Class Host := {
  uni_alpha : char -> bool;     (* str.isalpha beyond ASCII *)
  uni_decimal : char -> bool;   (* str.isdecimal beyond ASCII *)
  uni_digit : char -> bool;     (* str.isdigit beyond ASCII *)
  uni_numeric : char -> bool;   (* str.isnumeric beyond ASCII *)
  set_iter : list str -> list str;   (* the order in which a set is iterated *)
  set_iter_perm : forall l, Permutation (set_iter l) l
}.

Definition in_range (lo hi c : char) : bool := ((lo <=? c) && (c <=? hi))%N.
Definition ascii_alpha (c : char) : bool :=
  in_range (ch "A") (ch "Z") c || in_range (ch "a") (ch "z") c.
Definition ascii_digit (c : char) : bool := in_range (ch "0") (ch "9") c.
Definition is_ascii (c : char) : bool := (c <? 128)%N.

Section CharClasses.
Context {H : Host}.

Definition isalpha_char (c : char) : bool :=
  if is_ascii c then ascii_alpha c else uni_alpha c.
Definition isdecimal_char (c : char) : bool :=
  if is_ascii c then ascii_digit c else uni_decimal c.
Definition isdigit_char (c : char) : bool :=
  if is_ascii c then ascii_digit c else uni_digit c.
Definition isnumeric_char (c : char) : bool :=
  if is_ascii c then ascii_digit c else uni_numeric c.

(** [s.isalpha()], [s.isdigit()]: every character, and at least one. *)
Definition isalpha (s : str) : bool :=
  match s with [] => false | _ => forallb isalpha_char s end.
Definition isdigit (s : str) : bool :=
  match s with [] => false | _ => forallb isdigit_char s end.

(** The regex classes [\d] and [\w] on [str] patterns. *)
Definition re_d (c : char) : bool := isdecimal_char c.
Definition re_w (c : char) : bool :=
  isalpha_char c || isdecimal_char c || isdigit_char c || isnumeric_char c
  || char_eqb c (ch "_").

End CharClasses.

(** ** Regular-expression scanning

    [re.findall] and [re.sub] try the pattern at each position from the left;
    a match is consumed whole, otherwise one character is passed over.  After
    an empty match the pattern is tried once more at the same position, where
    it must now match at least one character.  A [matcher] is a pattern tried
    at one position: it is told whether the match must advance, it sees the
    character before the position (for look-behind and [\b]) and the text
    from the position on, and yields the groups of the match, whose
    concatenation is the matched text, and the text that follows. *)

Definition matcher := bool -> option char -> str -> option (list str * str).

Inductive piece :=
| Lit (c : char)
| Match (groups : list str).

Definition last_char (t : str) (prev : option char) : option char :=
  match rev t with
  | [] => prev
  | c :: _ => Some c
  end.

Definition is_nil {A} (l : list A) : bool :=
  match l with [] => true | _ => false end.

Fixpoint re_scan (fuel : nat) (m : matcher) (must_advance : bool) (prev : option char)
    (s : str) : list piece :=
  match fuel with
  | O => map Lit s
  | S f =>
    match m must_advance prev s with
    | Some (groups, rest) =>
        Match groups
          :: re_scan f m (is_nil (concat groups)) (last_char (concat groups) prev) rest
    | None =>
        match s with
        | [] => []
        | c :: s' => Lit c :: re_scan f m false (Some c) s'
        end
    end
  end.

(** At each position the pattern is tried twice at most. *)
Definition pieces (m : matcher) (s : str) : list piece :=
  re_scan (2 * S (length s)) m false None s.

Definition re_findall (m : matcher) (s : str) : list str :=
  flat_map (fun p => match p with Lit _ => [] | Match g => [concat g] end) (pieces m s).

Definition re_sub (m : matcher) (repl : list str -> str) (s : str) : str :=
  flat_map (fun p => match p with Lit c => [c] | Match g => repl g end) (pieces m s).

Fixpoint span (p : char -> bool) (s : str) : str * str :=
  match s with
  | [] => ([], [])
  | c :: s' => if p c then let (a, b) := span p s' in (c :: a, b) else ([], s)
  end.

Section ExactTokens.
Context {H : Host}.

(** [re.fullmatch(r'\d+(?:\.\d+)?', token)] *)
Definition numeric_token (token : str) : bool :=
  let (d1, r) := span re_d token in
  negb (is_nil d1) &&
  match r with
  | [] => true
  | c :: r1 =>
      char_eqb c (ch ".") &&
      (let (d2, r2) := span re_d r1 in negb (is_nil d2) && is_nil r2)
  end.

(** [[\d.]] next to the position; no character there satisfies neither
    look-around. *)
Definition digit_or_dot (c : option char) : bool :=
  match c with
  | None => false
  | Some c => re_d c || char_eqb c (ch ".")
  end.

Definition word (c : option char) : bool :=
  match c with
  | None => false
  | Some c => re_w c
  end.

(** [\b] in_range two neighbouring characters. *)
Definition word_boundary (before after : option char) : bool :=
  xorb (word before) (word after).

(** [boundary(token)] tried at one position:
    [(?<![\d.])token(?![\d.])] for a number, [\btoken\b] otherwise. *)
Definition boundary (token : str) : matcher := fun must_advance prev s =>
  match strip_prefix token s with
  | None => None
  | Some rest =>
      let ok :=
        if numeric_token token
        then negb (digit_or_dot prev) && negb (digit_or_dot (hd_error rest))
        else word_boundary prev (hd_error (token ++ rest))
             && word_boundary (last_char token prev) (hd_error rest) in
      if ok && negb (must_advance && is_nil token) then Some ([token], rest) else None
  end.

(** Alternatives joined by [|], tried in order. *)
Fixpoint alternatives (tokens : list str) : matcher := fun must_advance prev s =>
  match tokens with
  | [] => None
  | t :: ts =>
      match boundary t must_advance prev s with
      | Some r => Some r
      | None => alternatives ts must_advance prev s
      end
  end.

(** The pattern of no token at all, [''], matches the empty text. *)
Definition empty_pattern : matcher := fun must_advance _ s =>
  if must_advance then None else Some ([[]], s).

(** [build_token_pattern(tokens)]: ['|'.join] of the boundaries, which is the
    empty pattern when there is no token. *)
Definition build_token_pattern (tokens : list str) : matcher :=
  if is_nil tokens then empty_pattern else alternatives tokens.

Definition match_exact_tokens (string : str) (tokenlist : list str) : list str :=
  re_findall (build_token_pattern tokenlist) string.

(** [tokens_mapping.get(token, token)] *)
Fixpoint mapping_get (tokens_mapping : list (str * str)) (token : str) : str :=
  match tokens_mapping with
  | [] => token
  | (k, v) :: m => if str_eqb k token then v else mapping_get m token
  end.

Definition replace_exact_tokens (string : str) (tokens_mapping : list (str * str)) : str :=
  re_sub (build_token_pattern (map fst tokens_mapping))
         (fun g => mapping_get tokens_mapping (concat g)) string.

End ExactTokens.

(** ** Superscript exponents *)

Definition SUPERSCRIPTS : list (char * char) :=
  [ (ch "⁰", ch "0"); (ch "¹", ch "1"); (ch "²", ch "2"); (ch "³", ch "3");
    (ch "⁴", ch "4"); (ch "⁵", ch "5"); (ch "⁶", ch "6"); (ch "⁷", ch "7");
    (ch "⁸", ch "8"); (ch "⁹", ch "9") ].

Definition is_superscript (c : char) : bool :=
  char_in c (map fst SUPERSCRIPTS).

(** [SUPERSCRIPTS.get(ch, '')] *)
Definition superscript_digit (c : char) : str :=
  match find (fun kv => char_eqb (fst kv) c) SUPERSCRIPTS with
  | Some (_, d) => [d]
  | None => []
  end.

(** The class [[A-Za-z0-9π𝑒φ]]. *)
Definition base_char (c : char) : bool :=
  ascii_alpha c || ascii_digit c || char_in c (py "π𝑒φ").

(** [([A-Za-z0-9π𝑒φ]+)([⁰¹²³⁴⁵⁶⁷⁸⁹]+)]: both runs are greedy, and as the two
    classes share no character a shorter base never helps. *)
Definition pattern_base : matcher := fun _ _ s =>
  let (base, r) := span base_char s in
  let (superscripts, rest) := span is_superscript r in
  if is_nil base || is_nil superscripts then None
  else Some ([base; superscripts], rest).

(** [(\))([⁰¹²³⁴⁵⁶⁷⁸⁹]+)] *)
Definition pattern_paren : matcher := fun _ _ s =>
  match s with
  | c :: r =>
      if char_eqb c (ch ")") then
        let (superscripts, rest) := span is_superscript r in
        if is_nil superscripts then None else Some ([[c]; superscripts], rest)
      else None
  | [] => None
  end.

Definition group (n : nat) (groups : list str) : str := nth (n - 1) groups [].

Definition repl_base (groups : list str) : str :=
  let base := group 1 groups in
  let exponent := flat_map superscript_digit (group 2 groups) in
  py "(" ++ base ++ py "**" ++ exponent ++ py ")".

Definition repl_paren (groups : list str) : str :=
  let exponent := flat_map superscript_digit (group 2 groups) in
  py ")" ++ py "**" ++ exponent.

Definition replace_superscript_exponents (expr : str) : str :=
  let expr := re_sub pattern_base repl_base expr in
  re_sub pattern_paren repl_paren expr.

(** ** Errors

    The source reports a failure as [Exception(text)]; [message] is that
    text. *)

Inductive error :=
| UnrecognizedVariable (e : str)
| VariableTaken (e : str)
| UnrecognizedSymbol (c : char)
| ExpressionNotRecognized
| FunctionNotRecognized (fname : str)
| NeedsMoreParams (fctname : str) (nbr : char)
| ExtraParams (fctname : str)
| WrongArguments
| WrongTupleSyntax
| ExecutionError
| FinalLinkError.

Definition message (e : error) : str :=
  match e with
  | UnrecognizedVariable e => py "Unrecorgnized Variable '" ++ e ++ py "'"
  | VariableTaken e => py "Variable '" ++ e ++ py "' is Taken"
  | UnrecognizedSymbol c => py "Unrecorgnized Symbol '" ++ [c] ++ py "'"
  | ExpressionNotRecognized => py "Math Expression Not Recognized"
  | FunctionNotRecognized f => py "'" ++ f ++ py "' Function Not Recognized"
  | NeedsMoreParams f n => py "Function '" ++ f ++ py "' needs " ++ [n] ++ py " more Params"
  | ExtraParams f => py "Function '" ++ f ++ py "' recieved Extra Params"
  | WrongArguments => py "Wrong Arguments Given"
  | WrongTupleSyntax => py "Wrong use of '( , )' Synthax"
  | ExecutionError => py "Error on Execution"
  | FinalLinkError => py "Error on Final Link"
  end.

(** ** Sets of strings

    A set is kept as the list of its members in insertion order; a loop over
    it runs through [set_iter] of that list. *)

Definition set_add (e : str) (s : list str) : list str :=
  if str_in e s then s else s ++ [e].

Definition set_of (l : list str) : list str :=
  fold_left (fun s e => set_add e s) l [].

(** ** The registry

    Each entry with the number of operands its signature takes after [cls]. *)

Inductive primitive :=
| Unary (operation_type : str)          (* cls._floatmath(op, sock1) *)
| Binary (operation_type : str)         (* cls._floatmath(op, sock1, sock2) *)
| Ternary (operation_type : str)        (* cls._floatmath(op, sock1, sock2, sock3) *)
| Nroot
| Floordiv                              (* cls.floor(cls.div(sock1, sock2)) *)
| Lerp                                  (* cls._mix('FLOAT', ...) *)
| Clamp (clamp_type : str).

Definition registry : list (str * primitive) :=
  map (fun p => (py (fst p), snd p))
  [ ("add", Binary (py "ADD")); ("subtract", Binary (py "SUBTRACT"));
    ("mult", Binary (py "MULTIPLY")); ("div", Binary (py "DIVIDE"));
    ("exp", Binary (py "POWER")); ("power", Binary (py "POWER"));
    ("log", Binary (py "LOGARITHM")); ("sqrt", Unary (py "SQRT"));
    ("invsqrt", Unary (py "INVERSE_SQRT")); ("nroot", Nroot);
    ("abs", Unary (py "ABSOLUTE")); ("min", Binary (py "MINIMUM"));
    ("max", Binary (py "MAXIMUM")); ("round", Unary (py "ROUND"));
    ("floor", Unary (py "FLOOR")); ("ceil", Unary (py "CEIL"));
    ("trunc", Unary (py "TRUNC")); ("modulo", Binary (py "MODULO"));
    ("wrap", Ternary (py "WRAP")); ("snap", Binary (py "SNAP"));
    ("floordiv", Floordiv); ("sin", Unary (py "SINE")); ("cos", Unary (py "COSINE"));
    ("tan", Unary (py "TANGENT")); ("asin", Unary (py "ARCSINE"));
    ("acos", Unary (py "ARCCOSINE")); ("atan", Unary (py "ARCTANGENT"));
    ("hsin", Unary (py "SINH")); ("hcos", Unary (py "COSH"));
    ("htan", Unary (py "TANH")); ("rad", Unary (py "RADIANS"));
    ("deg", Unary (py "DEGREES")); ("lerp", Lerp); ("mix", Lerp);
    ("clamp", Clamp (py "MINMAX")); ("clampr", Clamp (py "RANGE")) ]%string.

Definition lookup (fname : str) : option primitive :=
  option_map snd (find (fun p => str_eqb (fst p) fname) registry).

Definition arity (p : primitive) : nat :=
  match p with
  | Unary _ => 1
  | Binary _ | Nroot | Floordiv => 2
  | Ternary _ | Lerp | Clamp _ => 3
  end.

(** [NodeSetter.get_functions(get_names=True)]: the names of the class
    methods of [NodeSetter] that do not start with an underscore, the two
    drivers apart. *)

Definition funct_namespace : list str := map fst registry.

(** ** The sanitizer *)

Record irrational := { macro : str; unicode : str; value : str }.

Definition IRRATIONALS : list irrational :=
  [ {| macro := py "Pi";   unicode := py "π"; value := py "3.1415927" |};
    {| macro := py "eNum"; unicode := py "𝑒"; value := py "2.7182818" |};
    {| macro := py "Gold"; unicode := py "φ"; value := py "1.6180339" |} ].

Definition synthax : str := py ".,()".
Definition operand : str := py "/*-+%".

Definition authorized_symbols : str :=
  synthax ++ operand
  ++ py "abcdefghijklmnopqrstuvwxyz"
  ++ py "ABCDEFGHIJKLMNOPQRSTUVWXYZ"
  ++ py "0123456789".

(** The five sets [sanatize_expression] leaves on the node. *)
Record elements := {
  elemTotal : list str;
  elemFct : list str;
  elemConst : list str;
  elemVar : list str;
  elemCmplx : list str
}.

Definition add_fct (e : str) (el : elements) : elements :=
  {| elemTotal := elemTotal el; elemFct := set_add e (elemFct el);
     elemConst := elemConst el; elemVar := elemVar el; elemCmplx := elemCmplx el |}.
Definition add_const (e : str) (el : elements) : elements :=
  {| elemTotal := elemTotal el; elemFct := elemFct el;
     elemConst := set_add e (elemConst el); elemVar := elemVar el;
     elemCmplx := elemCmplx el |}.
Definition add_var (e : str) (el : elements) : elements :=
  {| elemTotal := elemTotal el; elemFct := elemFct el;
     elemConst := elemConst el; elemVar := set_add e (elemVar el);
     elemCmplx := elemCmplx el |}.
Definition add_cmplx (e : str) (el : elements) : elements :=
  {| elemTotal := elemTotal el; elemFct := elemFct el;
     elemConst := elemConst el; elemVar := elemVar el;
     elemCmplx := set_add e (elemCmplx el) |}.

Section Sanitizer.
Context {H : Host}.

(** The loop of [case True] (implicit multiplication). *)
Fixpoint sort_implicit (expression : str) (todo : list str) (el : elements)
  : elements * option error :=
  match todo with
  | [] => (el, None)
  | e :: todo' =>
      if str_in e funct_namespace && substring_in (e ++ py "(") expression
      then sort_implicit expression todo' (add_fct e el)
      else if isdigit (replace_char (ch ".") [] e)
      then sort_implicit expression todo' (add_const e el)
      else if isalpha e
      then sort_implicit expression todo' (add_var e el)
      else if existsb isdigit_char e
      then sort_implicit expression todo' (add_cmplx e el)
      else (el, Some (UnrecognizedVariable e))
  end.

(** The loop of [case False]. *)
Fixpoint sort_explicit (todo : list str) (el : elements) : elements * option error :=
  match todo with
  | [] => (el, None)
  | e :: todo' =>
      if str_in e funct_namespace
      then sort_explicit todo' (add_fct e el)
      else if isdigit (replace_char (ch ".") [] e)
      then sort_explicit todo' (add_const e el)
      else if isalpha e
      then if str_in e funct_namespace
           then (el, Some (VariableTaken e))
           else sort_explicit todo' (add_var e el)
      else (el, Some (UnrecognizedVariable e))
  end.

(** The text transforms that precede the classification: blanks removed,
    superscripts rewritten, irrational glyphs replaced by their values. *)
Definition format_symbols (expression : str) : str :=
  let expression := replace_char (ch " ") [] expression in
  let expression :=
    if existsb is_superscript expression
    then replace_superscript_exponents expression
    else expression in
  let mached := match_exact_tokens expression (map unicode IRRATIONALS) in
  if existsb (fun m => negb (is_nil m)) mached
  then replace_exact_tokens expression
         (map (fun v => (unicode v, value v))
              (filter (fun v => str_in (unicode v) mached) IRRATIONALS))
  else expression.

(** The tokens of the expression: what lies in_range the characters of
    [operand + ',()'], the empty pieces dropped. *)
Definition gather_elements (expression : str) : list str :=
  let elemTotal :=
    fold_left (fun acc c => replace_char c (py "|") acc)
              (operand ++ py ",()") expression in
  set_of (filter (fun e => negb (is_nil e)) (split (ch "|") elemTotal)).

(** [(\d+(?:\.\d+)?)(\()] *)
Definition pattern_number_paren : matcher := fun _ _ s =>
  let (d1, r) := span re_d s in
  if is_nil d1 then None
  else match r with
  | c :: r1 =>
      if char_eqb c (ch "(") then Some ([d1; [c]], r1)
      else if char_eqb c (ch ".") then
        let (d2, r2) := span re_d r1 in
        if is_nil d2 then None
        else match r2 with
        | c2 :: r3 =>
            if char_eqb c2 (ch "(") then Some ([d1 ++ c :: d2; [c2]], r3) else None
        | [] => None
        end
      else None
  | [] => None
  end.

Definition sanatize_expression (implicit_mult : bool) (expression : str)
  : elements * (str + error) :=
  let expression := format_symbols expression in
  let total := gather_elements expression in
  let el := {| elemTotal := total; elemFct := []; elemConst := [];
               elemVar := []; elemCmplx := [] |} in
  let (el, failure) :=
    if implicit_mult
    then sort_implicit expression (set_iter total) el
    else sort_explicit (set_iter total) el in
  match failure with
  | Some e => (el, inr e)
  | None =>
      match find (fun c => negb (char_in c authorized_symbols)) expression with
      | Some c => (el, inr (UnrecognizedSymbol c))
      | None =>
          (el, inl (re_sub pattern_number_paren
                           (fun g => group 1 g ++ py "*" ++ group 2 g) expression))
      end
  end.

End Sanitizer.

(** ** A host for running examples

    An excerpt of the character database, giving the code points that the
    source itself names (the ten superscript digits and the three irrational
    glyphs); sets are iterated in insertion order.  It serves to evaluate the
    definitions on inputs whose characters are ASCII or among these. *)

Definition excerpt_alpha (c : char) : bool := char_in c (py "π𝑒φ").
Definition excerpt_digit (c : char) : bool := is_superscript c.

Definition excerpt : Host :=
  {| uni_alpha := excerpt_alpha;
     uni_decimal := fun _ => false;
     uni_digit := excerpt_digit;
     uni_numeric := excerpt_digit;
     set_iter := fun l => l;
     set_iter_perm := fun l => Permutation_refl l |}.

(** ** Syntax trees

    The part of Python's [ast] that an expression over the authorized symbols
    can produce.  A numeric literal is kept by its text. *)

Inductive operator :=
| Add | Sub | Mult | MatMult | Div | Mod | Pow
| LShift | RShift | BitOr | BitXor | BitAnd | FloorDiv.

Inductive unaryop := Invert | Not | UAdd | USub.

#[local] Unset Elimination Schemes.
Inductive expr :=
| Name (id : str)
| Constant (value : str)
| BinOp (left : expr) (op : operator) (right : expr)
| UnaryOp (op : unaryop) (operand : expr)
| Call (func : expr) (args : list expr)
| Tuple (elts : list expr).
#[local] Set Elimination Schemes.

Section ExprInd.
Variable P : expr -> Prop.
Hypothesis HName : forall id, P (Name id).
Hypothesis HConstant : forall v, P (Constant v).
Hypothesis HBinOp : forall l op r, P l -> P r -> P (BinOp l op r).
Hypothesis HUnaryOp : forall op e, P e -> P (UnaryOp op e).
Hypothesis HCall : forall f args, P f -> Forall P args -> P (Call f args).
Hypothesis HTuple : forall elts, Forall P elts -> P (Tuple elts).

Fixpoint expr_rect_nested (e : expr) : P e :=
  match e with
  | Name id => HName id
  | Constant v => HConstant v
  | BinOp l op r => HBinOp op (expr_rect_nested l) (expr_rect_nested r)
  | UnaryOp op e => HUnaryOp op (expr_rect_nested e)
  | Call f args =>
      HCall (expr_rect_nested f)
            ((fix all (l : list expr) : Forall P l :=
                match l with
                | [] => Forall_nil P
                | x :: l' => Forall_cons x (expr_rect_nested x) (all l')
                end) args)
  | Tuple elts =>
      HTuple ((fix all (l : list expr) : Forall P l :=
                 match l with
                 | [] => Forall_nil P
                 | x :: l' => Forall_cons x (expr_rect_nested x) (all l')
                 end) elts)
  end.
End ExprInd.

(** ** Parsing

    [ast.parse(text, mode='eval')] belongs to CPython, not to the repository.
    [ast_parse] is a model of it on the arithmetic grammar: names, decimal
    literals, [+ - * / // % **], unary [+ -], parentheses, calls and tuples,
    with the tokenizer's limit on nested parentheses.  Where [ast_parse]
    gives a tree, it is the tree that CPython gives, as long as the tree is
    not deeper than CPython's parser and the runtime allow: of the limits on
    depth [ast_parse] has the tokenizer's only (see [height] for the
    others).  Text outside this
    grammar (reserved words, among them [True], [False] and [None], argument
    unpacking, attributes, literals with an exponent or a base prefix, blanks)
    is reported as unparsable, also where CPython parses it. *)

Inductive token :=
| TName (id : str)
| TNumber (text : str)
| TOp (op : operator)
| TLPar | TRPar | TComma.

Definition name_start (c : char) : bool := ascii_alpha c || char_eqb c (ch "_").
Definition name_char (c : char) : bool := name_start c || ascii_digit c.

(** A decimal literal at the head of [s]: digits with an optional fraction,
    or a fraction alone. *)
Definition lex_number (s : str) : option (str * str) :=
  let (d1, r) := span ascii_digit s in
  match r with
  | c :: r1 =>
      if char_eqb c (ch ".") then
        let (d2, r2) := span ascii_digit r1 in
        if is_nil d1 && is_nil d2 then None else Some (d1 ++ c :: d2, r2)
      else if is_nil d1 then None else Some (d1, r)
  | [] => if is_nil d1 then None else Some (d1, r)
  end.

(** An integer literal may not start with a zero unless it is all zeros. *)
Definition legal_number (text : str) : bool :=
  char_in (ch ".") text
  || match text with
     | c :: _ :: _ => negb (char_eqb c (ch "0")) || forallb (char_eqb (ch "0")) text
     | _ => true
     end.

Definition reserved : list str :=
  map py [ "and"; "as"; "assert"; "async"; "await"; "break"; "class";
           "continue"; "def"; "del"; "elif"; "else"; "except"; "finally";
           "for"; "from"; "global"; "if"; "import"; "in"; "is"; "lambda";
           "nonlocal"; "not"; "or"; "pass"; "raise"; "return"; "try"; "while";
           "with"; "yield"; "True"; "False"; "None" ]%string.

Fixpoint tokenize (fuel : nat) (s : str) : option (list token) :=
  match fuel with
  | O => None
  | S f =>
    match s with
    | [] => Some []
    | c :: r =>
      let cons t rest := option_map (cons t) (tokenize f rest) in
      if name_start c then
        let (id, rest) := span name_char s in
        if str_in id reserved then None else cons (TName id) rest
      else if ascii_digit c || char_eqb c (ch ".") then
        match lex_number s with
        | Some (text, rest) =>
            if legal_number text && negb (name_start (hd 0%N rest))
            then cons (TNumber text) rest else None
        | None => None
        end
      else if char_eqb c (ch "(") then cons TLPar r
      else if char_eqb c (ch ")") then cons TRPar r
      else if char_eqb c (ch ",") then cons TComma r
      else if char_eqb c (ch "+") then cons (TOp Add) r
      else if char_eqb c (ch "-") then cons (TOp Sub) r
      else if char_eqb c (ch "%") then cons (TOp Mod) r
      else if char_eqb c (ch "*") then
        match r with
        | c' :: r' => if char_eqb c' (ch "*") then cons (TOp Pow) r' else cons (TOp Mult) r
        | [] => cons (TOp Mult) r
        end
      else if char_eqb c (ch "/") then
        match r with
        | c' :: r' => if char_eqb c' (ch "/") then cons (TOp FloorDiv) r' else cons (TOp Div) r
        | [] => cons (TOp Div) r
        end
      else None
    end
  end.

Definition parsed := option (expr * list token).

(** Recursive descent in the order of Python's grammar:
    sum > term > factor > power > primary > atom. *)
Fixpoint parse_sum (fuel : nat) (ts : list token) : parsed :=
  match fuel with
  | O => None
  | S f =>
    match parse_term f ts with
    | Some (l, r) => sum_rest f l r
    | None => None
    end
  end
with sum_rest (fuel : nat) (l : expr) (ts : list token) : parsed :=
  match fuel with
  | O => None
  | S f =>
    match ts with
    | TOp Add :: r =>
        match parse_term f r with
        | Some (x, r') => sum_rest f (BinOp l Add x) r'
        | None => None
        end
    | TOp Sub :: r =>
        match parse_term f r with
        | Some (x, r') => sum_rest f (BinOp l Sub x) r'
        | None => None
        end
    | _ => Some (l, ts)
    end
  end
with parse_term (fuel : nat) (ts : list token) : parsed :=
  match fuel with
  | O => None
  | S f =>
    match parse_factor f ts with
    | Some (l, r) => term_rest f l r
    | None => None
    end
  end
with term_rest (fuel : nat) (l : expr) (ts : list token) : parsed :=
  match fuel with
  | O => None
  | S f =>
    match ts with
    | TOp op :: r =>
        match op with
        | Mult | Div | FloorDiv | Mod =>
            match parse_factor f r with
            | Some (x, r') => term_rest f (BinOp l op x) r'
            | None => None
            end
        | _ => Some (l, ts)
        end
    | _ => Some (l, ts)
    end
  end
with parse_factor (fuel : nat) (ts : list token) : parsed :=
  match fuel with
  | O => None
  | S f =>
    match ts with
    | TOp Add :: r =>
        match parse_factor f r with
        | Some (x, r') => Some (UnaryOp UAdd x, r')
        | None => None
        end
    | TOp Sub :: r =>
        match parse_factor f r with
        | Some (x, r') => Some (UnaryOp USub x, r')
        | None => None
        end
    | _ =>
        match parse_primary f ts with
        | Some (b, TOp Pow :: r) =>
            match parse_factor f r with
            | Some (x, r') => Some (BinOp b Pow x, r')
            | None => None
            end
        | other => other
        end
    end
  end
with parse_primary (fuel : nat) (ts : list token) : parsed :=
  match fuel with
  | O => None
  | S f =>
    match ts with
    | TName id :: r => trailers f (Name id) r
    | TNumber text :: r => trailers f (Constant text) r
    | TLPar :: TRPar :: r => trailers f (Tuple []) r
    | TLPar :: r =>
        match parse_sum f r with
        | Some (e, TRPar :: r') => trailers f e r'
        | Some (e, TComma :: r') =>
            match parse_items f r' with
            | Some (es, r'') => trailers f (Tuple (e :: es)) r''
            | None => None
            end
        | _ => None
        end
    | _ => None
    end
  end
with trailers (fuel : nat) (e : expr) (ts : list token) : parsed :=
  match fuel with
  | O => None
  | S f =>
    match ts with
    | TLPar :: r =>
        match parse_items f r with
        | Some (args, r') => trailers f (Call e args) r'
        | None => None
        end
    | _ => Some (e, ts)
    end
  end
with parse_items (fuel : nat) (ts : list token) : option (list expr * list token) :=
  (* the items of a call or tuple up to and including the closing parenthesis;
     a trailing comma is allowed *)
  match fuel with
  | O => None
  | S f =>
    match ts with
    | TRPar :: r => Some ([], r)
    | _ =>
        match parse_sum f ts with
        | Some (e, TRPar :: r) => Some ([e], r)
        | Some (e, TComma :: r) =>
            match parse_items f r with
            | Some (es, r') => Some (e :: es, r')
            | None => None
            end
        | _ => None
        end
    end
  end.

(** Items separated by commas with no parenthesis around them (a bare tuple
    at the top of an expression). *)
Fixpoint parse_bare_items (fuel : nat) (ts : list token) : option (list expr) :=
  match fuel with
  | O => None
  | S f =>
    match ts with
    | [] => Some []
    | _ =>
        match parse_sum f ts with
        | Some (e, []) => Some [e]
        | Some (e, TComma :: r) => option_map (cons e) (parse_bare_items f r)
        | _ => None
        end
    end
  end.

(** The tokenizer refuses a parenthesis that opens inside [MAXLEVEL] open
    ones ("too many nested parentheses"). *)
Definition MAXLEVEL : nat := 200.

Fixpoint nesting_ok (level : nat) (s : str) : bool :=
  match s with
  | [] => true
  | c :: r =>
      if char_eqb c (ch "(") then Nat.ltb level MAXLEVEL && nesting_ok (S level) r
      else if char_eqb c (ch ")") then nesting_ok (pred level) r
      else nesting_ok level r
  end.

Definition ast_parse (text : str) : option expr :=
  if negb (nesting_ok 0 text) then None else
  match tokenize (S (length text)) text with
  | None => None
  | Some ts =>
      let fuel := 16 + 8 * length ts in
      match parse_sum fuel ts with
      | Some (e, []) => Some e
      | Some (e, TComma :: r) => option_map (fun es => Tuple (e :: es)) (parse_bare_items fuel r)
      | _ => None
      end
  end.

(** ** Lowering: [FunctionTransformer]

    [visit] threads [self.functions_used]; [None] stands for a raised
    exception ([NotImplementedError] for an operator outside the seven that
    are mapped). *)

Definition func_name (op : operator) : option str :=
  match op with
  | Add => Some (py "add")
  | Sub => Some (py "subtract")
  | Mult => Some (py "mult")
  | Div => Some (py "div")
  | Pow => Some (py "exp")
  | Mod => Some (py "modulo")
  | FloorDiv => Some (py "floordiv")
  | _ => None
  end.

Fixpoint visit (node : expr) (functions_used : list str) : option (expr * list str) :=
  let visit_list :=
    fix visit_list (l : list expr) (used : list str) : option (list expr * list str) :=
      match l with
      | [] => Some ([], used)
      | x :: l' =>
          match visit x used with
          | Some (x', used') =>
              match visit_list l' used' with
              | Some (l'', used'') => Some (x' :: l'', used'')
              | None => None
              end
          | None => None
          end
      end in
  match node with
  | Name _ => Some (node, functions_used)                     (* visit_Name *)
  | Constant _ => Some (node, functions_used)                 (* visit_Constant *)
  | BinOp l op r =>                                           (* visit_BinOp *)
      match visit l functions_used with
      | Some (l', used1) =>
          match visit r used1 with
          | Some (r', used2) =>
              match func_name op with
              | Some f => Some (Call (Name f) [l'; r'], set_add f used2)
              | None => None
              end
          | None => None
          end
      | None => None
      end
  | Call func args =>                                         (* visit_Call *)
      let used0 := match func with
                   | Name id => set_add id functions_used
                   | _ => functions_used
                   end in
      match visit func used0 with
      | Some (func', used1) =>
          match visit_list args used1 with
          | Some (args', used2) => Some (Call func' args', used2)
          | None => None
          end
      | None => None
      end
  | UnaryOp op operand =>                                     (* generic_visit *)
      match visit operand functions_used with
      | Some (operand', used) => Some (UnaryOp op operand', used)
      | None => None
      end
  | Tuple elts =>                                             (* generic_visit *)
      match visit_list elts functions_used with
      | Some (elts', used) => Some (Tuple elts', used)
      | None => None
      end
  end.

(** The visit of a list of children, as [visit] runs it on the arguments of a
    call and the elements of a tuple. *)
Fixpoint visit_list (l : list expr) (used : list str) : option (list expr * list str) :=
  match l with
  | [] => Some ([], used)
  | x :: l' =>
      match visit x used with
      | Some (x', used') =>
          match visit_list l' used' with
          | Some (l'', used'') => Some (x' :: l'', used'')
          | None => None
          end
      | None => None
      end
  end.

(** Shapes of a tree: no binary operator left; calls, names and constants
    only; built from names, constants, calls and binary operators. *)
Fixpoint no_BinOp (e : expr) : bool :=
  match e with
  | Name _ | Constant _ => true
  | BinOp _ _ _ => false
  | UnaryOp _ operand => no_BinOp operand
  | Call func args => no_BinOp func && forallb no_BinOp args
  | Tuple elts => forallb no_BinOp elts
  end.

Fixpoint call_form (e : expr) : bool :=
  match e with
  | Name _ | Constant _ => true
  | Call func args => call_form func && forallb call_form args
  | _ => false
  end.

Fixpoint arithmetic (e : expr) : bool :=
  match e with
  | Name _ | Constant _ => true
  | BinOp l _ r => arithmetic l && arithmetic r
  | Call func args => arithmetic func && forallb arithmetic args
  | _ => false
  end.

(** ** [ast.unparse]

    Precedence levels as in CPython's unparser; a sub-expression is put in
    parentheses when its own level is below the one its place requires.  A
    literal is printed by its source text, where CPython prints its value
    ([1.50] as [1.5], [1.] as [1.0]): the two agree on a literal in canonical
    form.  CPython's unparser is recursive and raises [RecursionError] on a
    tree deeper than the runtime allows; [unparse] has no such limit. *)

Definition TUPLE := 1%nat.
Definition TEST := 3%nat.
Definition ARITH := 13%nat.
Definition TERM := 14%nat.
Definition FACTOR := 15%nat.
Definition POWER := 16%nat.
Definition ATOM := 18%nat.

Definition binop_text (op : operator) : str :=
  py match op with
     | Add => "+" | Sub => "-" | Mult => "*" | MatMult => "@" | Div => "/"
     | Mod => "%" | Pow => "**" | LShift => "<<" | RShift => ">>"
     | BitOr => "|" | BitXor => "^" | BitAnd => "&" | FloorDiv => "//"
     end%string.

Definition binop_precedence (op : operator) : nat :=
  match op with
  | Add | Sub => ARITH
  | Mult | MatMult | Div | Mod | FloorDiv => TERM
  | Pow => POWER
  | LShift | RShift => 12
  | BitAnd => 11
  | BitXor => 10
  | BitOr => 9
  end%nat.

Definition unop_text (op : unaryop) : str :=
  py match op with Invert => "~" | Not => "not " | UAdd => "+" | USub => "-" end%string.

Definition unop_precedence (op : unaryop) : nat :=
  match op with Not => 6 | _ => FACTOR end%nat.

Definition parens_if (b : bool) (s : str) : str :=
  if b then py "(" ++ s ++ py ")" else s.

Fixpoint join (sep : str) (l : list str) : str :=
  match l with
  | [] => []
  | [x] => x
  | x :: l' => x ++ sep ++ join sep l'
  end.

Fixpoint unparse_at (level : nat) (node : expr) : str :=
  match node with
  | Name id => id
  | Constant v => v
  | BinOp l op r =>
      let p := binop_precedence op in
      let '(lp, rp) := match op with Pow => (S p, p) | _ => (p, S p) end in
      parens_if (Nat.ltb p level)
        (unparse_at lp l ++ py " " ++ binop_text op ++ py " " ++ unparse_at rp r)
  | UnaryOp op operand =>
      let p := unop_precedence op in
      parens_if (Nat.ltb p level) (unop_text op ++ unparse_at p operand)
  | Call func args =>
      unparse_at ATOM func ++ py "(" ++ join (py ", ") (map (unparse_at TEST) args) ++ py ")"
  | Tuple elts =>
      let items := match elts with
                   | [x] => unparse_at TEST x ++ py ","
                   | _ => join (py ", ") (map (unparse_at TEST) elts)
                   end in
      parens_if (is_nil elts || Nat.ltb TUPLE level) items
  end.

Definition unparse (node : expr) : str := unparse_at TEST node.

Section Transform.
Context {H : Host}.

(** The source returns [ast.unparse(transformed_node)], which [exec] later
    parses again; the model returns the tree, and [unparse] gives its text.
    In the source the parse and the visit are inside the [try], the call of
    [ast.unparse] comes after it: on a tree too deep for the runtime the
    former give the message of [ExpressionNotRecognized] and the latter an
    exception that nothing catches.  The model has neither outcome for depth
    alone; what is stated of a whole pass is stated within [DEPTH]. *)
Definition transform_expression (math_express : str) : expr + error :=
  match ast_parse math_express with
  | None => inr ExpressionNotRecognized
  | Some body =>
      match visit body [] with
      | None => inr ExpressionNotRecognized
      | Some (transformed_node, functions_used) =>
          match find (fun fname => negb (str_in fname funct_namespace))
                     (set_iter functions_used) with
          | Some fname => inr (FunctionNotRecognized fname)
          | None => inl transformed_node
          end
      end
  end.

End Transform.

(** ** The node tree

    The target graph, as far as the compiler reads and writes it.  A node is
    known by its name, which the host keeps unique within a tree; a socket by
    its node, its side and its position. *)

Inductive node_type := GROUP_INPUT | GROUP_OUTPUT | VALUE | MATH | MIX | CLAMP.

Definition node_type_eqb (a b : node_type) : bool :=
  match a, b with
  | GROUP_INPUT, GROUP_INPUT | GROUP_OUTPUT, GROUP_OUTPUT | VALUE, VALUE
  | MATH, MATH | MIX, MIX | CLAMP, CLAMP => true
  | _, _ => false
  end.

Record node := {
  name : str;
  label : str;
  type : node_type;
  setting : str;                 (* operation, data_type or clamp_type *)
  location : Z * Z;
  width : Z;
  default_values : list (nat * str)   (* values typed into sockets: position, text *)
}.

Inductive socket_type := FLOAT | CUSTOM.

(** An input of the tree's interface, shown as an output of Group Input.
    [identifier] is what links from outside the tree hold on to. *)
Record interface_socket := {
  socket_name : str;
  socket_type_of : socket_type;
  identifier : nat
}.

Record socket := {
  owner : str;
  is_output : bool;
  index : nat
}.

Record link := { from_socket : socket; to_socket : socket }.

Record node_tree := {
  nodes : list node;
  active : option str;                  (* ng.nodes.active *)
  inputs : list interface_socket;       (* the interface's input sockets *)
  links : list link;
  serial : nat                          (* identifiers handed out so far *)
}.

Definition socket_eqb (a b : socket) : bool :=
  str_eqb (owner a) (owner b) && Bool.eqb (is_output a) (is_output b)
  && Nat.eqb (index a) (index b).

Definition Group_Input : str := py "Group Input".
Definition Group_Output : str := py "Group Output".

(** [in_nod.outputs]: the interface inputs, then the virtual socket that
    Group Input always ends with. *)
Definition virtual_socket : interface_socket :=
  {| socket_name := []; socket_type_of := CUSTOM; identifier := 0 |}.

Definition group_input_outputs (ng : node_tree) : list interface_socket :=
  inputs ng ++ [virtual_socket].

(** [ng.nodes[key]] and [ng.nodes.get(key)] *)
Definition get_node (ng : node_tree) (key : str) : option node :=
  find (fun n => str_eqb (name n) key) (nodes ng).

Definition set_nodes (ng : node_tree) (l : list node) : node_tree :=
  {| nodes := l; active := active ng; inputs := inputs ng; links := links ng;
     serial := serial ng |}.
Definition set_active (ng : node_tree) (a : option str) : node_tree :=
  {| nodes := nodes ng; active := a; inputs := inputs ng; links := links ng;
     serial := serial ng |}.
Definition set_links (ng : node_tree) (l : list link) : node_tree :=
  {| nodes := nodes ng; active := active ng; inputs := inputs ng; links := l;
     serial := serial ng |}.

Definition update_node (ng : node_tree) (key : str) (f : node -> node) : node_tree :=
  set_nodes ng (map (fun n => if str_eqb (name n) key then f n else n) (nodes ng)).

Definition with_location (loc : Z * Z) (n : node) : node :=
  {| name := name n; label := label n; type := type n; setting := setting n;
     location := loc; width := width n; default_values := default_values n |}.
Definition with_setting (s : str) (n : node) : node :=
  {| name := name n; label := label n; type := type n; setting := s;
     location := location n; width := width n; default_values := default_values n |}.
Definition with_name (s : str) (n : node) : node :=
  {| name := s; label := label n; type := type n; setting := setting n;
     location := location n; width := width n; default_values := default_values n |}.
Definition with_label (s : str) (n : node) : node :=
  {| name := name n; label := s; type := type n; setting := setting n;
     location := location n; width := width n; default_values := default_values n |}.
Definition with_default (i : nat) (v : str) (n : node) : node :=
  {| name := name n; label := label n; type := type n; setting := setting n;
     location := location n; width := width n;
     default_values := (i, v) :: default_values n |}.

(** *** What the host does on [ng.nodes]

    [nodes.new] appends a node under the type's name, made unique with a
    numbered suffix; it leaves the active node alone.  [nodes.remove] takes
    the node's links with it, and the active mark if the node bore it. *)

Definition uses_node (key : str) (l : link) : bool :=
  str_eqb (owner (from_socket l)) key || str_eqb (owner (to_socket l)) key.

Definition nodes_remove (ng : node_tree) (key : str) : node_tree :=
  {| nodes := filter (fun n => negb (str_eqb (name n) key)) (nodes ng);
     active := match active ng with
               | Some a => if str_eqb a key then None else Some a
               | None => None
               end;
     inputs := inputs ng;
     links := filter (fun l => negb (uses_node key l)) (links ng);
     serial := serial ng |}.

Definition suffix (k : nat) : str :=
  py "." ++ (if Nat.ltb k 10 then py "00" else if Nat.ltb k 100 then py "0" else [])
  ++ str_of_nat k.

Fixpoint numbered (fuel k : nat) (base : str) (taken : list str) : str :=
  match fuel with
  | O => base ++ suffix k
  | S f => if str_in (base ++ suffix k) taken then numbered f (S k) base taken
           else base ++ suffix k
  end.

Definition unique_name (base : str) (taken : list str) : str :=
  if str_in base taken then numbered (length taken) 1 base taken else base.

Definition default_name (t : node_type) : str :=
  py match t with
     | GROUP_INPUT => "Group Input" | GROUP_OUTPUT => "Group Output"
     | VALUE => "Value" | MATH => "Math" | MIX => "Mix" | CLAMP => "Clamp"
     end%string.

Definition nodes_new (ng : node_tree) (t : node_type) : node_tree * str :=
  let key := unique_name (default_name t) (map name (nodes ng)) in
  let n := {| name := key; label := []; type := t; setting := [];
              location := (0, 0)%Z; width := 140%Z; default_values := [] |} in
  (set_nodes ng (nodes ng ++ [n]), key).

(** [node.name = s]: the host keeps the names unique. *)
Definition rename_node (ng : node_tree) (key s : str) : node_tree * str :=
  let others := filter (fun k => negb (str_eqb k key)) (map name (nodes ng)) in
  let key' := unique_name s others in
  (update_node ng key (with_name key'), key').

(** *** The graph backend ([boiler])

    Modelled from the spec: [create_socket], [remove_socket] and
    [link_sockets] live in [nodes/boiler.py], which is not among the sources.
    The spec gives them as [add_boundary_input(name, type)],
    [remove_boundary_input(index)] and [connect(SocketHandle, SocketHandle)]:
    a new input goes last and gets an identifier of its own; removing an input
    takes its links with it and moves the later inputs up; connecting records
    the link. *)

Definition create_socket (ng : node_tree) (socket_name : str) : node_tree :=
  {| nodes := nodes ng; active := active ng;
     inputs := inputs ng ++ [{| socket_name := socket_name; socket_type_of := FLOAT;
                                identifier := S (serial ng) |}];
     links := links ng; serial := S (serial ng) |}.

Fixpoint remove_nth {A} (i : nat) (l : list A) : list A :=
  match i, l with
  | _, [] => []
  | O, _ :: l' => l'
  | S i', x :: l' => x :: remove_nth i' l'
  end.

Definition is_group_input_output (ng : node_tree) (s : socket) : bool :=
  is_output s &&
  match get_node ng (owner s) with
  | Some n => node_type_eqb (type n) GROUP_INPUT
  | None => false
  end.

Definition shift_socket (ng : node_tree) (idx : nat) (s : socket) : socket :=
  if is_group_input_output ng s && Nat.ltb idx (index s)
  then {| owner := owner s; is_output := true; index := pred (index s) |}
  else s.

Definition remove_socket (ng : node_tree) (idx : nat) : node_tree :=
  {| nodes := nodes ng; active := active ng;
     inputs := remove_nth idx (inputs ng);
     links :=
       map (fun l => {| from_socket := shift_socket ng idx (from_socket l);
                        to_socket := to_socket l |})
           (filter (fun l => negb (is_group_input_output ng (from_socket l)
                                   && Nat.eqb (index (from_socket l)) idx))
                   (links ng));
     serial := serial ng |}.

Definition link_sockets (ng : node_tree) (sock1 sock2 : socket) : node_tree :=
  set_links ng (links ng ++ [{| from_socket := sock1; to_socket := sock2 |}]).

(** ** Evaluation: [exec] of the function expression

    [execute_function_expression] substitutes the socket API text for every
    variable and constant token and hands the result to [exec] with the
    registry as namespace.  The model evaluates the lowered tree instead: a
    leaf whose text is a key of the substitution is the socket that the API
    text denotes, any other name is looked up in the namespace.  (Python
    would look a name that is not there up among its builtins; with implicit
    multiplication off the sanitizer leaves no such name, every alphabetic
    token being a variable or a registry name.  A numeric literal is taken by
    its text, which is what [ast.unparse] prints for a literal in canonical
    form.)  [exec] compiles a text: it needs the keys of the substitution to
    be replaced as whole tokens and the node names to fit between the quotes
    of the API text, and it refuses more than [MAXLEVEL] nested parentheses;
    the evaluation of the tree meets none of these, so what is stated of it
    is stated under [key_ok], [api_quotable] and [DEPTH].  Evaluation runs in
    a state-and-exception monad over the node tree. *)

Record exn := { is_TypeError : bool; text : str }.

Definition TypeError (t : str) : exn := {| is_TypeError := true; text := t |}.
Definition OtherError (t : str) : exn := {| is_TypeError := false; text := t |}.

#[local] Unset Elimination Schemes.
Inductive object :=
| Socket (s : socket)
| Function (fname : str)           (* partial(f, cls) for a registry entry *)
| TupleObject (items : list object)
| Float (literal : str).
#[local] Set Elimination Schemes.

Definition type_name (o : object) : str :=
  py match o with
     | Socket _ => "NodeSocketFloat"
     | Function _ => "functools.partial"
     | TupleObject _ => "tuple"
     | Float _ => "float"
     end%string.

(** Truth of an operand, as [if (sock2):] tests it. *)
Definition truthy (o : option object) : bool :=
  match o with
  | None => false
  | Some (Socket _) | Some (Function _) => true
  | Some (TupleObject l) => negb (is_nil l)
  | Some (Float t) => existsb (fun c => ascii_digit c && negb (char_eqb c (ch "0"))) t
  end.

Definition M (A : Type) : Type := node_tree -> node_tree * (A + exn).

Definition ret {A} (a : A) : M A := fun ng => (ng, inl a).
Definition raise {A} (e : exn) : M A := fun ng => (ng, inr e).
Definition bind {A B} (c : M A) (k : A -> M B) : M B := fun ng =>
  match c ng with
  | (ng', inl a) => k a ng'
  | (ng', inr e) => (ng', inr e)
  end.
Definition get : M node_tree := fun ng => (ng, inl ng).
Definition modify (f : node_tree -> node_tree) : M unit := fun ng => (f ng, inl tt).

Notation "x <- c ;; k" := (bind c (fun x => k))
  (at level 61, c at next level, right associativity).
Notation "c ;;; k" := (bind c (fun _ => k))
  (at level 61, right associativity).

Definition NODE_Y_OFFSET : Z := 120.
Definition NODE_X_OFFSET : Z := 70.

(** [sock.id_data]: only a socket has it. *)
Definition id_data (o : object) : M socket :=
  match o with
  | Socket s => ret s
  | _ => raise (OtherError (py "'" ++ type_name o ++ py "' object has no attribute 'id_data'"))
  end.

(** [link_sockets(sock, node.inputs[i])] on an operand.  Modelled from the
    spec where the operand is no socket: what [boiler.link_sockets] raises is
    not in the sources, and the spec files every other evaluation fault under
    the generic execution error. *)
Definition link_operand (o : object) (key : str) (i : nat) : M unit :=
  match o with
  | Socket s => modify (fun ng => link_sockets ng s {| owner := key; is_output := false; index := i |})
  | _ => raise (OtherError (py "link_sockets"))
  end.

Definition output0 (key : str) : object :=
  Socket {| owner := key; is_output := true; index := 0 |}.

(** The place for the next node: right of and below the active one. *)
Definition next_location (ng : node_tree) : Z * Z :=
  match active ng with
  | Some a =>
      match get_node ng a with
      | Some last => (fst (location last) + width last + NODE_X_OFFSET,
                      snd (location last) - NODE_Y_OFFSET)%Z
      | None => (0, 200)%Z
      end
  | None => (0, 200)%Z
  end.

(** A new node of type [t] with its setting, placed and made active. *)
Definition place (t : node_type) (s : str) : M str := fun ng =>
  let loc := next_location ng in
  let (ng1, key) := nodes_new ng t in
  let ng2 := update_node ng1 key (fun n => with_location loc (with_setting s n)) in
  (set_active ng2 (Some key), inl key).

Definition _floatmath (operation_type : str) (sock1 : object) (sock2 sock3 : option object)
  : M object :=
  id_data sock1 ;;;
  key <- place MATH operation_type ;;
  link_operand sock1 key 0 ;;;
  (match sock2 with
   | Some s => if truthy sock2 then link_operand s key 1 else ret tt
   | None => ret tt
   end) ;;;
  (match sock3 with
   | Some s => if truthy sock3 then link_operand s key 2 else ret tt
   | None => ret tt
   end) ;;;
  ret (output0 key).

Definition _floatmath_nroot (sock1 sock2 : object) : M object :=
  id_data sock1 ;;;
  divnode <- place MATH (py "DIVIDE") ;;
  modify (fun ng => update_node ng divnode (with_default 0 (py "1.0"))) ;;;
  link_operand sock2 divnode 1 ;;;
  pnode <- place MATH (py "POWER") ;;
  link_operand sock1 pnode 0 ;;;
  link_operand (output0 divnode) pnode 1 ;;;
  ret (output0 pnode).

Definition _mix (data_type : str) (sock1 sock2 sock3 : object) : M object :=
  id_data sock1 ;;;
  key <- place MIX data_type ;;
  link_operand sock1 key 0 ;;;
  if str_eqb data_type (py "FLOAT")
  then link_operand sock2 key 2 ;;; link_operand sock3 key 3 ;;; ret (output0 key)
  else raise (OtherError (py "Integration Needed")).

Definition _floatclamp (clamp_type : str) (sock1 sock2 sock3 : object) : M object :=
  id_data sock1 ;;;
  key <- place CLAMP clamp_type ;;
  link_operand sock1 key 0 ;;;
  link_operand sock2 key 1 ;;;
  link_operand sock3 key 2 ;;;
  ret (output0 key).

(** The body of an entry on operands that fit its signature. *)
Definition run (p : primitive) (args : list object) : M object :=
  match p, args with
  | Unary op, [s1] => _floatmath op s1 None None
  | Binary op, [s1; s2] => _floatmath op s1 (Some s2) None
  | Ternary op, [s1; s2; s3] => _floatmath op s1 (Some s2) (Some s3)
  | Nroot, [s1; s2] => _floatmath_nroot s1 s2
  | Floordiv, [s1; s2] =>
      q <- _floatmath (py "DIVIDE") s1 (Some s2) None ;;
      _floatmath (py "FLOOR") q None None
  | Lerp, [s1; s2; s3] => _mix (py "FLOAT") s1 s2 s3
  | Clamp t, [s1; s2; s3] => _floatclamp t s1 s2 s3
  | _, _ => raise (TypeError [])
  end.

(** *** What CPython says when a call does not fit the signature

    [NodeSetter.f() missing n required positional argument(s): ...] and
    [NodeSetter.f() takes k positional arguments but g were given], where the
    counts of the second include [cls]. *)

Definition params : list str := map py [ "'sock1'"; "'sock2'"; "'sock3'" ]%string.

Definition listing (l : list str) : str :=
  match l with
  | [a; b] => a ++ py " and " ++ b
  | [a; b; c] => a ++ py ", " ++ b ++ py ", and " ++ c
  | _ => join (py ", ") l
  end.

Definition missing_text (fname : str) (expected given : nat) : str :=
  let n := expected - given in
  py "NodeSetter." ++ fname ++ py "() missing " ++ str_of_nat n
  ++ py " required positional argument" ++ (if Nat.eqb n 1 then [] else py "s")
  ++ py ": " ++ listing (skipn given (firstn expected params)).

Definition takes_text (fname : str) (expected given : nat) : str :=
  py "NodeSetter." ++ fname ++ py "() takes " ++ str_of_nat (S expected)
  ++ py " positional arguments but " ++ str_of_nat (S given) ++ py " were given".

(** A call of the registry entry [fname]. *)
Definition call_function (fname : str) (args : list object) : M object :=
  match lookup fname with
  | None => raise (OtherError (py "name '" ++ fname ++ py "' is not defined"))
  | Some p =>
      let given := length args in
      if Nat.ltb given (arity p) then raise (TypeError (missing_text fname (arity p) given))
      else if Nat.ltb (arity p) given then raise (TypeError (takes_text fname (arity p) given))
      else run p args
  end.

(** *** Socket API text

    [get_socket_python_api] writes a socket as
    [ng.nodes['<name>'].outputs[<idx>]]; a [handle] is that text's content,
    and [resolve] what the text evaluates to. *)

Record handle := { node_key : str; idx : nat }.

Fixpoint find_index {A} (p : A -> bool) (l : list A) : option nat :=
  match l with
  | [] => None
  | x :: l' => if p x then Some 0 else option_map S (find_index p l')
  end.

(** On Group Input, for the output socket with the given identifier. *)
Definition get_socket_python_api (ng : node_tree) (ident : nat) : option handle :=
  option_map (fun i => {| node_key := Group_Input; idx := i |})
             (find_index (fun s => Nat.eqb (identifier s) ident) (group_input_outputs ng)).

Definition outputs_count (ng : node_tree) (n : node) : nat :=
  match type n with
  | GROUP_INPUT => length (group_input_outputs ng)
  | GROUP_OUTPUT => 0
  | _ => 1
  end.

Definition resolve (h : handle) : M object := fun ng =>
  match get_node ng (node_key h) with
  | None => (ng, inr (OtherError (py "KeyError")))
  | Some n =>
      if Nat.ltb (idx h) (outputs_count ng n)
      then (ng, inl (Socket {| owner := node_key h; is_output := true; index := idx h |}))
      else (ng, inr (OtherError (py "IndexError")))
  end.

(** A dict: keys in insertion order, a repeated key keeps its place and takes
    the new value. *)
Fixpoint dict_set {A} (k : str) (v : A) (d : list (str * A)) : list (str * A) :=
  match d with
  | [] => [(k, v)]
  | (k', v') :: d' => if str_eqb k' k then (k, v) :: d' else (k', v') :: dict_set k v d'
  end.

Definition dict_get {A} (k : str) (d : list (str * A)) : option A :=
  option_map snd (find (fun kv => str_eqb (fst kv) k) d).

Definition dict_merge {A} (a b : list (str * A)) : list (str * A) :=
  fold_left (fun d kv => dict_set (fst kv) (snd kv) d) b a.

Section Evaluation.
Context {H : Host}.
Variable api : list (str * handle).       (* {**varsapi, **constapi} *)

Fixpoint eval (node : expr) : M object :=
  let eval_list :=
    fix eval_list (l : list expr) : M (list object) :=
      match l with
      | [] => ret []
      | x :: l' => v <- eval x ;; vs <- eval_list l' ;; ret (v :: vs)
      end in
  match node with
  | Name id =>
      match dict_get id api with
      | Some h => resolve h
      | None =>
          if str_in id funct_namespace then ret (Function id)
          else raise (OtherError (py "name '" ++ id ++ py "' is not defined"))
      end
  | Constant v =>
      match dict_get v api with
      | Some h => if numeric_token v then resolve h else ret (Float v)
      | None => ret (Float v)
      end
  | UnaryOp op operand =>
      o <- eval operand ;;
      match o with
      | Float v => ret (Float v)
      | _ => raise (TypeError (py "bad operand type for unary " ++ unop_text op
                               ++ py ": '" ++ type_name o ++ py "'"))
      end
  | BinOp l op r =>
      a <- eval l ;; b <- eval r ;;
      raise (TypeError (py "unsupported operand type(s) for " ++ binop_text op))
  | Call func args =>
      f <- eval func ;;
      vs <- eval_list args ;;
      match f with
      | Function fname => call_function fname vs
      | _ => raise (TypeError (py "'" ++ type_name f ++ py "' object is not callable"))
      end
  | Tuple elts =>
      vs <- eval_list elts ;;
      ret (TupleObject vs)
  end.

(** The evaluation of the arguments of a call, left to right. *)
Fixpoint eval_list (l : list expr) : M (list object) :=
  match l with
  | [] => ret []
  | x :: l' => v <- eval x ;; vs <- eval_list l' ;; ret (v :: vs)
  end.

End Evaluation.

(** *** Turning the exception into the user's message *)

Fixpoint split_str_from (fuel : nat) (sep : str) (cur : str) (s : str) : list str :=
  match fuel with
  | O => [rev cur ++ s]
  | S f =>
    match s with
    | [] => [rev cur]
    | c :: s' =>
        match strip_prefix sep s with
        | Some rest => rev cur :: split_str_from f sep [] rest
        | None => split_str_from f sep (c :: cur) s'
        end
    end
  end.

(** [s.split(sep)] for a separator of one character or more. *)
Definition split_str (sep s : str) : list str :=
  split_str_from (S (length s)) sep [] s.

Definition is_some {A} (o : option A) : bool :=
  match o with Some _ => true | None => false end.

(** The handler of [except TypeError]; [None] when an index in the handler
    itself is out of range. *)
Definition cook_TypeError (e : str) : option error :=
  if is_some (strip_prefix (py "NodeSetter.") e) then
    match nth_error (split_str (py "NodeSetter.") e) 1 with
    | None => None
    | Some after =>
        let fctname := hd [] (split_str (py "()") after) in
        if substring_in (py "() missing") e then
          match nth_error (split_str (py "() missing ") e) 1 with
          | Some (nbr :: _) => Some (NeedsMoreParams fctname nbr)
          | _ => None
          end
        else if substring_in (py "() takes") e then Some (ExtraParams fctname)
        else Some WrongArguments
    end
  else Some WrongArguments.

(** The handler of [except Exception]. *)
Definition cook_Exception (e : str) : error :=
  if substring_in (py "'tuple' object") e then WrongTupleSyntax else ExecutionError.

(** What a call of a method of the node leaves: a normal return, possibly of
    an [Exception] object, or an exception that nothing caught. *)
Inductive outcome :=
| ReturnNone
| ReturnException (e : error)
| Uncaught.

Definition with_location_of (ng : node_tree) (key : str) (loc : Z * Z) : node_tree :=
  update_node ng key (with_location loc).

(** The final link (the second [try] of [execute_function_expression]). *)
Definition final_link (elemVar elemConst : list str) (ng : node_tree)
  : node_tree * outcome :=
  let last :=
    match active ng with
    | Some a => get_node ng a
    | None =>
        if negb (is_nil elemVar) then get_node ng Group_Input
        else if negb (is_nil elemConst)
        then find (fun n => node_type_eqb (type n) VALUE) (nodes ng)
        else None
    end in
  match last, get_node ng Group_Output with
  | Some last, Some out_node =>
      let ng1 := with_location_of ng (name out_node)
                   ((fst (location last) + width last + NODE_X_OFFSET)%Z,
                    (snd (location last) - NODE_Y_OFFSET)%Z) in
      if Nat.ltb 0 (outputs_count ng last)
      then (link_sockets ng1 {| owner := name last; is_output := true; index := 0 |}
                             {| owner := name out_node; is_output := false; index := 0 |},
            ReturnNone)
      else (ng1, ReturnException FinalLinkError)
  | _, _ => (ng, ReturnException FinalLinkError)
  end.

Section Execute.
Context {H : Host}.

Definition execute_function_expression (elemVar elemConst : list str)
    (expression : expr) (ng : node_tree) (varsapi constapi : list (str * handle))
  : node_tree * outcome :=
  match eval (dict_merge varsapi constapi) expression ng with
  | (ng, inr e) =>
      if is_TypeError e then
        match cook_TypeError (text e) with
        | Some err => (ng, ReturnException err)
        | None => (ng, Uncaught)
        end
      else (ng, ReturnException (cook_Exception (text e)))
  | (ng, inl _) => final_link elemVar elemConst ng
  end.

End Execute.

(** ** The recompilation pass: [apply_expression] *)

Record customnode := {
  user_mathexp : str;
  implicit_mult : bool;
  auto_symbols : bool;
  error_message : str;
  debug_sanatized : str;
  debug_fctexp : str;
  elems : elements;
  node_tree_of : node_tree
}.

Definition set_messages (self : customnode) (err san fct : str) : customnode :=
  {| user_mathexp := user_mathexp self; implicit_mult := implicit_mult self;
     auto_symbols := auto_symbols self; error_message := err;
     debug_sanatized := san; debug_fctexp := fct; elems := elems self;
     node_tree_of := node_tree_of self |}.
Definition set_user_mathexp (self : customnode) (s : str) : customnode :=
  {| user_mathexp := s; implicit_mult := implicit_mult self;
     auto_symbols := auto_symbols self; error_message := error_message self;
     debug_sanatized := debug_sanatized self; debug_fctexp := debug_fctexp self;
     elems := elems self; node_tree_of := node_tree_of self |}.
Definition set_elems (self : customnode) (el : elements) : customnode :=
  {| user_mathexp := user_mathexp self; implicit_mult := implicit_mult self;
     auto_symbols := auto_symbols self; error_message := error_message self;
     debug_sanatized := debug_sanatized self; debug_fctexp := debug_fctexp self;
     elems := el; node_tree_of := node_tree_of self |}.
Definition set_node_tree (self : customnode) (ng : node_tree) : customnode :=
  {| user_mathexp := user_mathexp self; implicit_mult := implicit_mult self;
     auto_symbols := auto_symbols self; error_message := error_message self;
     debug_sanatized := debug_sanatized self; debug_fctexp := debug_fctexp self;
     elems := elems self; node_tree_of := ng |}.

(** Where a pass ended: the [return] it left through (the source returns
    [None] at each), an exception nothing caught, or the model's recursion
    bound. *)
Inductive exit :=
| SanitizeFailed (e : error)
| NoElements
| TransformFailed (e : error)
| ExecuteFailed (e : error)
| Applied
| Crashed
| OutOfFuel.

(** [float(const)] succeeds on a text of digits with at most one point. *)
Definition float_ok (const : str) : bool :=
  forallb (fun c => ascii_digit c || char_eqb c (ch ".")) const
  && existsb ascii_digit const
  && Nat.leb (length (filter (char_eqb (ch ".")) const)) 1.

(** "Clear node tree": every node that is no boundary node is removed. *)
Definition clear_step (g : node_tree) (n : node) : node_tree :=
  match type n with
  | GROUP_INPUT | GROUP_OUTPUT => g
  | _ => nodes_remove g (name n)
  end.

Definition clear_node_tree (ng : node_tree) : node_tree :=
  fold_left clear_step (nodes ng) ng.

Fixpoint enumerate_from {A} (i : nat) (l : list A) : list (nat * A) :=
  match l with
  | [] => []
  | x :: l' => (i, x) :: enumerate_from (S i) l'
  end.

Definition enumerate {A} (l : list A) : list (nat * A) := enumerate_from 0 l.

Definition is_custom (s : interface_socket) : bool :=
  match socket_type_of s with CUSTOM => true | FLOAT => false end.

Section Pass.
Context {H : Host}.

(** "Create new sockets depending on vars" *)
Definition create_sockets (elemVar : list str) (ng : node_tree) : node_tree :=
  if is_nil elemVar then ng
  else
    let current_vars := map socket_name (group_input_outputs ng) in
    fold_left (fun g var => if str_in var current_vars then g else create_socket g var)
              (set_iter elemVar) ng.

(** "Remove unused vars sockets" *)
Definition remove_unused_sockets (elemVar : list str) (ng : node_tree) : node_tree :=
  let idx_to_del :=
    map fst (filter (fun p => negb (is_custom (snd p))
                              && negb (str_in (socket_name (snd p)) elemVar))
                    (enumerate (group_input_outputs ng))) in
  fold_left remove_socket (rev idx_to_del) ng.

(** "Fill equivalence dict with it's socket eq"; [None] when the assertion
    of [get_socket_python_api] fails. *)
Definition fill_vareq (elemVar : list str) (ng : node_tree)
  : option (list (str * handle)) :=
  if is_nil elemVar then Some []
  else
    fold_left (fun acc s =>
                 match acc with
                 | None => None
                 | Some vareq =>
                     if str_in (socket_name s) elemVar then
                       match get_socket_python_api ng (identifier s) with
                       | Some h => Some (dict_set (socket_name s) h vareq)
                       | None => None
                       end
                     else Some vareq
                 end)
              (group_input_outputs ng) (Some []).

(** "Add input for constant right below the vars group input"; on the
    right, [None] when [float(const)] raises. *)
Fixpoint add_constants (todo : list str) (xloc yloc : Z) (ng : node_tree)
    (consteq : list (str * handle)) : node_tree * option (list (str * handle)) :=
  match todo with
  | [] => (ng, Some consteq)
  | const :: todo' =>
      let (ng1, key) := nodes_new ng VALUE in
      if float_ok const then
        let ng2 := update_node ng1 key (with_default 0 const) in
        let (ng3, key') := rename_node ng2 key const in
        let ng4 := update_node ng3 key'
                     (fun n => with_location (xloc, yloc) (with_label const n)) in
        add_constants todo' xloc (yloc - 90)%Z ng4
                      (dict_set const {| node_key := key'; idx := 0 |} consteq)
      else (ng1, None)
  end.

Fixpoint apply_expression (fuel : nat) (self : customnode) : customnode * exit :=
  match fuel with
  | O => (self, OutOfFuel)
  | S fuel' =>
    let ng := node_tree_of self in
    match get_node ng Group_Input, get_node ng Group_Output with
    | Some in_nod, Some out_nod =>
      (* Reset error message *)
      let self := set_messages self [] [] [] in
      (* Support for automatically replacing some symbols *)
      let mached :=
        if auto_symbols self
        then match_exact_tokens (user_mathexp self) (map macro IRRATIONALS)
        else [] in
      if existsb (fun m => negb (is_nil m)) mached then
        (* the assignment sends the update signal: the pass runs again on the
           new text before this one returns *)
        apply_expression fuel'
          (set_user_mathexp self
             (replace_exact_tokens (user_mathexp self)
                (map (fun v => (macro v, unicode v))
                     (filter (fun v => str_in (macro v) mached) IRRATIONALS))))
      else
      (* First we make sure the user expression is correct *)
      let (el, rval) := sanatize_expression (implicit_mult self) (user_mathexp self) in
      let self := set_elems self el in
      match rval with
      | inr e => (set_messages self (message e) (py "Failed") [], SanitizeFailed e)
      | inl sanatized_expr =>
        let self := set_messages self [] sanatized_expr [] in
        let elemVar := elemVar el in
        let elemConst := elemConst el in
        (* Clear node tree *)
        let ng := clear_node_tree ng in
        (* Create new sockets depending on vars; remove unused vars sockets *)
        let ng := create_sockets elemVar ng in
        let ng := remove_unused_sockets elemVar ng in
        match fill_vareq elemVar ng with
        | None => (set_node_tree self ng, Crashed)
        | Some vareq =>
          (* Add input for constant right below the vars group input *)
          let (ng, consteq) :=
            if is_nil elemConst then (ng, Some [])
            else add_constants (set_iter elemConst) (fst (location in_nod))
                               (snd (location in_nod) - 330)%Z ng [] in
          match consteq with
          | None => (set_node_tree self ng, Crashed)
          | Some consteq =>
            let self := set_node_tree self ng in
            (* if we don't have any elements to work with, quit *)
            if is_nil elemVar && is_nil elemConst then (self, NoElements)
            else
            (* Transform user expression into pure function expression *)
            match transform_expression sanatized_expr with
            | inr e =>
                (set_messages self (message e) sanatized_expr (py "Failed"),
                 TransformFailed e)
            | inl fctexp =>
                let self := set_messages self [] sanatized_expr (unparse fctexp) in
                (* Execute the function expression to arrange the user nodetree *)
                match execute_function_expression elemVar elemConst fctexp ng
                                                  vareq consteq with
                | (ng, ReturnException e) =>
                    (set_messages (set_node_tree self ng) (message e) sanatized_expr
                                  (unparse fctexp),
                     ExecuteFailed e)
                | (ng, ReturnNone) => (set_node_tree self ng, Applied)
                | (ng, Uncaught) => (set_node_tree self ng, Crashed)
                end
            end
          end
        end
      end
    | _, _ => (self, Crashed)
    end
  end.

End Pass.

(** The tree that [create_new_nodegroup] hands to a new node: the two
    boundary nodes and no input.  Modelled from the spec: the function is in
    [nodes/boiler.py]; the spec's lifecycle speaks of the boundary
    input/output nodes that persist. *)
Definition boundary_node (t : node_type) (x : Z) : node :=
  {| name := default_name t; label := []; type := t; setting := [];
     location := (x, 0%Z); width := 140%Z; default_values := [] |}.

Definition new_nodegroup : node_tree :=
  {| nodes := [boundary_node GROUP_INPUT (-200); boundary_node GROUP_OUTPUT 200];
     active := None; inputs := []; links := []; serial := 0 |}.

Definition new_customnode (expression : str) : customnode :=
  {| user_mathexp := expression; implicit_mult := false; auto_symbols := false;
     error_message := []; debug_sanatized := []; debug_fctexp := [];
     elems := {| elemTotal := []; elemFct := []; elemConst := []; elemVar := [];
                 elemCmplx := [] |};
     node_tree_of := new_nodegroup |}.

(** ** Notions used in the statements *)

(** The two boundary nodes. *)
Definition boundary_type (n : node) : bool :=
  match type n with
  | GROUP_INPUT | GROUP_OUTPUT => true
  | _ => false
  end.

(** A link of [g'] comes from a link of [g]: same target, same source node. *)
Definition link_from (g : node_tree) (l' : link) : Prop :=
  exists l, In l (links g) /\ to_socket l' = to_socket l
            /\ owner (from_socket l') = owner (from_socket l).

Definition links_from (g g' : node_tree) : Prop :=
  forall l', In l' (links g') -> link_from g l'.

(** A node that is no operation: a boundary node or a value node. *)
Definition operation_free (n : node) : bool :=
  match type n with
  | GROUP_INPUT | GROUP_OUTPUT | VALUE => true
  | _ => false
  end.

(** [s] holds no [c]. *)
Definition lacks (c : char) (s : str) : bool := forallb (fun x => negb (char_eqb c x)) s.

(** A registry name holds neither the [N] of [NodeSetter.] nor a
    parenthesis. *)
Definition plain (f : str) : bool := lacks (ch "N") f && lacks (ch "(") f.

Section Classes.
Context {H : Host}.

(** A token that the loop of [case False] takes into one of its sets. *)
Definition classifiable (e : str) : bool :=
  str_in e funct_namespace || isdigit (replace_char (ch ".") [] e) || isalpha e.

End Classes.

(** ** States for running examples *)

(** A node after its first pass on [a+b], under the example host. *)
Definition compiled_a_plus_b : customnode :=
  Eval vm_compute in fst (apply_expression (H := excerpt) 1 (new_customnode (py "a+b"))).

(** A node with the recognition of irrationals switched on. *)
Definition recognizing (expression : str) : customnode :=
  {| user_mathexp := expression; implicit_mult := false; auto_symbols := true;
     error_message := []; debug_sanatized := []; debug_fctexp := [];
     elems := elems (new_customnode []); node_tree_of := new_nodegroup |}.

(** A node on whose tree a node has been made the active one, as a click on
    it does. *)
Definition with_active_node (key : str) (self : customnode) : customnode :=
  set_node_tree self (set_active (node_tree_of self) (Some key)).

(** A tree with the three inputs [a], [b], [c], and their socket API. *)
Definition three_inputs : node_tree :=
  create_socket (create_socket (create_socket new_nodegroup (py "a")) (py "b")) (py "c").

Definition three_inputs_api : list (str * handle) :=
  [ (py "a", {| node_key := Group_Input; idx := 0 |});
    (py "b", {| node_key := Group_Input; idx := 1 |});
    (py "c", {| node_key := Group_Input; idx := 2 |}) ].

(** ** Notions used in the further properties *)

(** The text that a piece of a scan stands for. *)
Definition source (p : piece) : str :=
  match p with Lit c => [c] | Match g => concat g end.

(** A matcher that returns what it has not consumed: the groups, then the
    rest, are the text it was tried on. *)
Definition consumes (m : matcher) : Prop :=
  forall adv prev s g rest, m adv prev s = Some (g, rest) -> concat g ++ rest = s.

Definition digit_or_point (c : char) : bool := ascii_digit c || char_eqb c (ch ".").

(** The characters of one kind: all ASCII letters, or all digits and
    points. *)
Definition one_kind (cl : char -> bool) : Prop := cl = ascii_alpha \/ cl = digit_or_point.

Section Keys.
Context {H : Host}.

(** A key of a substitution as the sanitizer yields them: a number, or a
    name of ASCII letters. *)
Definition key_ok (t : str) : bool :=
  numeric_token t || (negb (is_nil t) && forallb ascii_alpha t).

End Keys.

Definition starts_with (c : char) (s : str) : bool :=
  match s with
  | x :: _ => char_eqb x c
  | [] => false
  end.

Section Shapes.
Context {H : Host}.

(** Somewhere in [s], a decimal digit with an opening parenthesis right
    after it. *)
Fixpoint digit_then_paren (s : str) : bool :=
  match s with
  | [] => false
  | c :: s' => (re_d c && starts_with (ch "(") s') || digit_then_paren s'
  end.

End Shapes.

(** The operands of a tree, from left to right: its names and constants,
    the names of the functions it calls left aside. *)
Fixpoint operands (e : expr) : list expr :=
  match e with
  | Name _ | Constant _ => [e]
  | BinOp l _ r => operands l ++ operands r
  | UnaryOp _ operand => operands operand
  | Call func args =>
      match func with Name _ => [] | _ => operands func end ++ flat_map operands args
  | Tuple elts => flat_map operands elts
  end.

(** The names that a tree calls. *)
Fixpoint called (e : expr) : list str :=
  match e with
  | Name _ | Constant _ => []
  | BinOp l _ r => called l ++ called r
  | UnaryOp _ operand => called operand
  | Call func args =>
      match func with Name id => [id] | _ => called func end ++ flat_map called args
  | Tuple elts => flat_map called elts
  end.

(** The nodes and the links that a call of a registry entry adds. *)
Definition cost (p : primitive) : nat :=
  match p with
  | Nroot | Floordiv => 2
  | _ => 1
  end.

Definition wires (p : primitive) : nat :=
  match p with
  | Unary _ => 1
  | Binary _ => 2
  | _ => 3
  end.

Definition is_socket (o : object) : bool :=
  match o with Socket _ => true | _ => false end.

(** What a node is known by, and what it is. *)
Definition kind (n : node) : str * node_type := (name n, type n).

(** The API text written for a socket denotes a socket of the tree. *)
Definition resolvable (ng : node_tree) (h : handle) : bool :=
  match get_node ng (node_key h) with
  | Some n => Nat.ltb (idx h) (outputs_count ng n)
  | None => false
  end.

Fixpoint nodes_of (e : expr) : nat :=
  match e with
  | Call func args =>
      match func with
      | Name f => match lookup f with Some p => cost p | None => 0 end
      | _ => 0
      end + list_sum (map nodes_of args)
  | _ => 0
  end.

Fixpoint links_of (e : expr) : nat :=
  match e with
  | Call func args =>
      match func with
      | Name f => match lookup f with Some p => wires p | None => 0 end
      | _ => 0
      end + list_sum (map links_of args)
  | _ => 0
  end.

(** A literal that [ast.unparse] prints as it was written: an integer with
    no zero in front, or digits, a point and digits with no zero in front of
    the first or at the end of the second (a lone zero apart), at most
    fifteen digits in all and not below one ten-thousandth.  (A literal is
    parsed to its value and printed from it; the text that
    [execute_function_expression] receives holds the key of a constant only
    when the constant was written in this form.) *)
Definition plain_integer (d : str) : bool :=
  negb (is_nil d) && forallb ascii_digit d
  && (Nat.eqb (length d) 1 || negb (starts_with (ch "0") d)).

Definition canonical (v : str) : bool :=
  let (d1, r) := span ascii_digit v in
  plain_integer d1
  && match r with
     | [] => true
     | c :: d2 =>
         char_eqb c (ch ".") && negb (is_nil d2) && forallb ascii_digit d2
         && (Nat.eqb (length d2) 1 || negb (starts_with (ch "0") (rev d2)))
         && Nat.leb (length d1 + length d2) 15
         && negb (str_eqb d1 (py "0") && is_some (strip_prefix (py "0000") d2))
     end.

Section WellFormed.
Variable known : str -> bool.

(** A function expression over the keys [known] of the substitution: every
    operand is a key (a constant, one in canonical form), every call is of a
    registry entry that is no key, with as many operands as the entry
    takes. *)
Fixpoint well_formed (e : expr) : bool :=
  match e with
  | Name id => known id
  | Constant v => known v && canonical v
  | Call func args =>
      match func with
      | Name f =>
          negb (known f)
          && match lookup f with
             | Some p => Nat.eqb (length args) (arity p)
             | None => false
             end
          && forallb well_formed args
      | _ => false
      end
  | _ => false
  end.

End WellFormed.

(** The node that a growth leaves active: the last one added, if any. *)
Definition active_after (ng : node_tree) (added : list (str * node_type)) : option str :=
  match rev added with
  | [] => active ng
  | (key, _) :: _ => Some key
  end.

(** Every API text of a substitution denotes a socket of the tree. *)
Definition api_resolves (api : list (str * handle)) (ng : node_tree) : Prop :=
  forallb (fun kv => resolvable ng (snd kv)) api = true.

(** The keys of a substitution. *)
Definition key_of (api : list (str * handle)) (k : str) : bool := is_some (dict_get k api).

Definition is_operation (t : node_type) : bool :=
  match t with
  | MATH | MIX | CLAMP => true
  | _ => false
  end.

(** A tree grown from another: the nodes of before under their names and
    types, then [added]; the links of before, then [new]; the same
    interface; and names that are still unique if they were. *)
Definition grown (ng ng' : node_tree) (added : list (str * node_type)) (new : list link)
  : Prop :=
  map kind (nodes ng') = map kind (nodes ng) ++ added
  /\ links ng' = links ng ++ new
  /\ inputs ng' = inputs ng
  /\ (NoDup (map name (nodes ng)) -> NoDup (map name (nodes ng'))).

(** The number that a text of decimal digits stands for. *)
Definition digit_value (c : char) : nat := N.to_nat c - 48.

Definition decimal_value (s : str) : nat :=
  fold_left (fun a c => 10 * a + digit_value c) s 0.

(** A computation that raises no [TypeError]. *)
Definition quiet {A} (c : M A) : Prop :=
  forall ng ng' x, c ng = (ng', inr x) -> is_TypeError x = false.

(** An exception that [execute_function_expression] turns into a message. *)
Definition cooked (x : exn) : Prop :=
  is_TypeError x = true -> cook_TypeError (text x) <> None.

(** The height of a tree: the number of nodes on its longest branch.  The
    interpreter walks a tree by recursion (the transformer's [visit],
    [ast.unparse], the compiler behind [exec]) and gives up beyond its
    recursion limit, which is a setting of the runtime, as [exec] gives up
    beyond [MAXLEVEL] nested brackets; [eval] and [unparse] know no such
    limit.  What is stated of a tree that goes through these walks is stated
    for a height of [DEPTH] at most, and of a text for a length of [DEPTH] at
    most, which the default setting affords with room to spare. *)
Fixpoint height (e : expr) : nat :=
  match e with
  | Name _ | Constant _ => 1
  | BinOp l _ r => S (Nat.max (height l) (height r))
  | UnaryOp _ operand => S (height operand)
  | Call func args => S (fold_right (fun a m => Nat.max (height a) m) (height func) args)
  | Tuple elts => S (fold_right (fun a m => Nat.max (height a) m) 0 elts)
  end.

Definition DEPTH : nat := 100.

(** A node name that can stand between the quotes of the API text
    [ng.nodes['<name>']]: no quote, no backslash, no line break. *)
Definition quotable (s : str) : bool :=
  forallb (fun c => negb (char_in c [39; 92; 10; 13; 0]%N)) s.

(** The API texts of a substitution are well formed. *)
Definition api_quotable (api : list (str * handle)) : bool :=
  forallb (fun kv => quotable (node_key (snd kv))) api.

(** * Properties *)

(** ** Strings and sets *)

Lemma str_eqb_eq (a b : str) : str_eqb a b = true <-> a = b.
Proof.
  revert b; induction a as [|x a IH]; intros [|y b]; simpl; split; intro E;
    try reflexivity; try discriminate.
  - apply andb_true_iff in E as [E1 E2]. apply N.eqb_eq in E1.
    apply IH in E2. congruence.
  - inversion E; subst. apply andb_true_iff; split.
    + apply N.eqb_refl.
    + now apply IH.
Qed.

Lemma str_eqb_refl (a : str) : str_eqb a a = true.
Proof. now apply str_eqb_eq. Qed.

Lemma str_in_In (t : str) (l : list str) : str_in t l = true <-> In t l.
Proof.
  unfold str_in. rewrite existsb_exists. split.
  - intros (x & Hx & E). apply str_eqb_eq in E. now subst.
  - intro E. exists t. split; [assumption | apply str_eqb_refl].
Qed.

Section Orders.
Context {H : Host}.

Lemma set_iter_nil : set_iter [] = [].
Proof. apply Permutation_nil, Permutation_sym, set_iter_perm. Qed.

Lemma set_iter_one (x : str) : set_iter [x] = [x].
Proof. apply Permutation_length_1_inv, Permutation_sym, set_iter_perm. Qed.

Lemma set_iter_two (x y : str) :
  set_iter [x; y] = [x; y] \/ set_iter [x; y] = [y; x].
Proof. apply Permutation_length_2_inv, Permutation_sym, set_iter_perm. Qed.

Lemma set_iter_In (x : str) (l : list str) : In x (set_iter l) <-> In x l.
Proof.
  split; apply Permutation_in;
    [apply set_iter_perm | apply Permutation_sym, set_iter_perm].
Qed.

(** A search through a set finds nothing when no member qualifies, in
    whatever order the set is run through. *)
Lemma find_set_iter_none (p : str -> bool) (l : list str) :
  forallb (fun x => negb (p x)) l = true -> find p (set_iter l) = None.
Proof.
  intro A. rewrite forallb_forall in A.
  destruct (find p (set_iter l)) as [x|] eqn:F; [|reflexivity].
  apply find_some in F as [I P]. apply -> set_iter_In in I.
  specialize (A x I). rewrite P in A. discriminate.
Qed.

End Orders.

(** ** Running a pass on a given text

    The iteration order of the host is the one unknown of a run on ASCII
    text.  [run_in] takes the pass to its next test, opens the function that
    runs through a set there, settles the order of that set by cases, and
    computes the test; and so on to the end of the pass. *)

Ltac scrutinee t :=
  lazymatch t with
  | match ?s with _ => _ end => scrutinee s
  | _ => constr:(t)
  end.

Ltac head_in E :=
  match type of E with
  | ?x = ?t =>
      let t' := eval lazy head beta iota zeta delta [apply_expression] in t in
      change (x = t') in E
  end.

Ltac open_in E :=
  match type of E with
  | ?x = ?t =>
      let s := scrutinee t in
      let s' := eval cbv beta zeta
                  delta [sanatize_expression create_sockets transform_expression] in s in
      tryif constr_eq s s' then fail
      else match type of E with
           | context C [s] => let T := context C [s'] in change T in E
           end
  end.

Ltac order_in E :=
  match type of E with
  | ?x = ?t =>
      let s := scrutinee t in
      match s with
      | context [@set_iter ?H ?l] =>
          let l' := eval vm_compute in l in
          tryif constr_eq l l' then idtac
          else (let Q := fresh "Q" in
                assert (Q : l = l') by (vm_compute; reflexivity);
                rewrite Q in E; clear Q);
          lazymatch l' with
          | [] => rewrite (@set_iter_nil H) in E
          | [?a] => rewrite (@set_iter_one H a) in E
          | [?a; ?b] =>
              let O := fresh "O" in
              destruct (@set_iter_two H a b) as [O|O]; rewrite O in E; clear O
          end
      end
  end.

Ltac value_in E :=
  match type of E with
  | ?x = ?t =>
      let s := scrutinee t in
      let v := eval vm_compute in s in
      let Q := fresh "Q" in
      assert (Q : s = v) by (vm_compute; reflexivity);
      rewrite Q in E; clear Q
  end.

Ltac is_match_in E :=
  match type of E with
  | _ = match _ with _ => _ end => idtac
  end.

Ltac run_in E :=
  repeat (head_in E; first [open_in E | is_match_in E; first [order_in E | value_in E]]);
  vm_compute in E.

Ltac break_match :=
  match goal with
  | E : context [match ?x with _ => _ end] |- _ => destruct x eqn:?
  end.

(** ** Failure in the sanitizer *)

Section SanitizerFacts.
Context {H : Host}.

(** The loop of [case False] never reports a name as taken: a registry name
    has left the loop as a function before the test is reached. *)
Lemma sort_explicit_failure (todo : list str) : forall el el' e,
  sort_explicit todo el = (el', Some e) ->
  exists t, e = UnrecognizedVariable t /\ In t todo.
Proof.
  induction todo as [|t todo IH]; intros el el' e E; cbn [sort_explicit] in E.
  - discriminate.
  - destruct (str_in t funct_namespace) eqn:F.
    + apply IH in E as (u & -> & I). exists u. split; [reflexivity | now right].
    + destruct (isdigit _).
      * apply IH in E as (u & -> & I). exists u. split; [reflexivity | now right].
      * destruct (isalpha t).
        -- apply IH in E as (u & -> & I). exists u. split; [reflexivity | now right].
        -- inversion E. exists t. split; [reflexivity | now left].
Qed.

Lemma sort_implicit_failure (expression : str) (todo : list str) : forall el el' e,
  sort_implicit expression todo el = (el', Some e) ->
  exists t, e = UnrecognizedVariable t /\ In t todo.
Proof.
  induction todo as [|t todo IH]; intros el el' e E; cbn [sort_implicit] in E.
  - discriminate.
  - repeat match type of E with
           | (if ?c then _ else _) = _ => destruct c
           end;
      try (apply IH in E as (u & -> & I); exists u; split; [reflexivity | now right]).
    inversion E. exists t. split; [reflexivity | now left].
Qed.

(** What a failed sanitization reports: a token of the formatted text that no
    class takes, or else the first character outside the authorized ones. *)
Lemma sanatize_failure (implicit : bool) (expression : str) (el : elements) (e : error) :
  sanatize_expression implicit expression = (el, inr e) ->
  (exists t, e = UnrecognizedVariable t
             /\ In t (gather_elements (format_symbols expression)))
  \/ (exists c, e = UnrecognizedSymbol c
                /\ find (fun c => negb (char_in c authorized_symbols))
                        (format_symbols expression) = Some c).
Proof.
  unfold sanatize_expression. intro E.
  destruct (if implicit then _ else _) as [el0 [err|]] eqn:S in E.
  - inversion E; subst. left.
    destruct implicit.
    + apply sort_implicit_failure in S as (t & -> & I).
      exists t. split; [reflexivity | exact (proj1 (set_iter_In _ _) I)].
    + apply sort_explicit_failure in S as (t & -> & I).
      exists t. split; [reflexivity | exact (proj1 (set_iter_In _ _) I)].
  - destruct (find _ _) as [c|] eqn:F in E; inversion E; subst.
    right. exists c. auto.
Qed.

(** A character outside the authorized ones cannot get through. *)
Lemma unauthorized_fails (implicit : bool) (expression : str) :
  existsb (fun c => negb (char_in c authorized_symbols)) (format_symbols expression) = true ->
  exists e, snd (sanatize_expression implicit expression) = inr e.
Proof.
  intro X. unfold sanatize_expression.
  destruct (if implicit then _ else _) as [el0 [err|]].
  - exists err. reflexivity.
  - destruct (find _ _) as [c|] eqn:F.
    + eexists. reflexivity.
    + apply existsb_exists in X as (c & I & U).
      apply (find_none _ _ F) in I. rewrite U in I. discriminate.
Qed.

End SanitizerFacts.

(** ** Clearing the tree and reconciling the boundary *)

Lemma links_from_refl (g : node_tree) : links_from g g.
Proof. intros l I. exists l. auto. Qed.

Lemma links_from_trans (g1 g2 g3 : node_tree) :
  links_from g1 g2 -> links_from g2 g3 -> links_from g1 g3.
Proof.
  intros A B l3 I3. destruct (B l3 I3) as (l2 & I2 & T2 & O2).
  destruct (A l2 I2) as (l1 & I1 & T1 & O1).
  exists l1. repeat split; congruence.
Qed.

Lemma clear_step_spec (g : node_tree) (n : node) :
  nodes (clear_step g n)
  = filter (fun m => boundary_type n || negb (str_eqb (name m) (name n))) (nodes g)
  /\ inputs (clear_step g n) = inputs g
  /\ links_from g (clear_step g n).
Proof.
  unfold clear_step, boundary_type.
  destruct (type n); cbn [nodes_remove nodes inputs orb];
    repeat split; try apply links_from_refl;
    try (symmetry; apply forallb_filter_id, forallb_forall; reflexivity).
  all: intros l I; cbn [links nodes_remove] in I; apply filter_In in I as [I _];
    exists l; auto.
Qed.

Lemma clear_fold (l : list node) : forall g,
  let g' := fold_left clear_step l g in
  (forall m, In m (nodes g') ->
     In m (nodes g)
     /\ forall n, In n l -> boundary_type n = false -> str_eqb (name m) (name n) = false)
  /\ inputs g' = inputs g
  /\ links_from g g'.
Proof.
  induction l as [|n l IH]; intro g; cbn [fold_left] in *.
  - repeat split; try apply links_from_refl; auto. intros n [].
  - destruct (clear_step_spec g n) as (N & I & L).
    destruct (IH (clear_step g n)) as (N' & I' & L').
    repeat split.
    + apply N' in H. destruct H as [H _]. rewrite N in H.
      apply filter_In in H. tauto.
    + intros k [<-|K] B.
      * apply N' in H. destruct H as [H _]. rewrite N in H.
        apply filter_In in H as [_ H]. rewrite B in H. cbn in H.
        now apply negb_true_iff in H.
      * apply N' in H. destruct H as [_ H]. now apply H.
    + congruence.
    + eapply links_from_trans; eassumption.
Qed.

(** After "Clear node tree" only boundary nodes are left; the interface and
    the remaining links are those of before. *)
Lemma clear_node_tree_spec (g : node_tree) :
  Forall (fun m => boundary_type m = true) (nodes (clear_node_tree g))
  /\ inputs (clear_node_tree g) = inputs g
  /\ links_from g (clear_node_tree g).
Proof.
  destruct (clear_fold (nodes g) g) as (N & I & L).
  change (fold_left clear_step (nodes g) g) with (clear_node_tree g) in *.
  repeat split; auto.
  apply Forall_forall. intros m M. destruct (N m M) as [M0 D].
  destruct (boundary_type m) eqn:B; [reflexivity|].
  specialize (D m M0 B). rewrite str_eqb_refl in D. discriminate.
Qed.

(** Removing positions in descending order is a filter. *)
Lemma remove_descending {A} (P : A -> bool) (l : list A) : forall pre,
  fold_left (fun acc i => remove_nth i acc)
            (rev (map fst (filter (fun p => P (snd p)) (enumerate_from (length pre) l))))
            (pre ++ l)
  = pre ++ filter (fun x => negb (P x)) l.
Proof.
  induction l as [|x l IH]; intro pre; cbn [enumerate_from filter map rev fold_left snd].
  - reflexivity.
  - specialize (IH (pre ++ [x])).
    rewrite length_app, Nat.add_comm in IH. cbn [length Nat.add] in IH.
    rewrite <- app_assoc in IH. cbn [app] in IH.
    destruct (P x) eqn:Px; cbn [map rev fst negb].
    + rewrite fold_left_app, IH. cbn [fold_left].
      rewrite <- app_assoc. cbn [app].
      clear. induction pre; cbn; [reflexivity | now f_equal].
    + rewrite IH, <- app_assoc. reflexivity.
Qed.

Lemma enumerate_from_app {A} (l m : list A) : forall k,
  enumerate_from k (l ++ m) = enumerate_from k l ++ enumerate_from (k + length l) m.
Proof.
  induction l as [|x l IH]; intro k; cbn [app enumerate_from length].
  - now rewrite Nat.add_0_r.
  - rewrite IH. now rewrite Nat.add_succ_r.
Qed.

Lemma remove_socket_fold (idxs : list nat) : forall g,
  let g' := fold_left remove_socket idxs g in
  inputs g' = fold_left (fun acc i => remove_nth i acc) idxs (inputs g)
  /\ nodes g' = nodes g /\ active g' = active g /\ links_from g g'.
Proof.
  induction idxs as [|i idxs IH]; intro g; cbn [fold_left].
  - repeat split; auto. apply links_from_refl.
  - destruct (IH (remove_socket g i)) as (I & N & A & L).
    repeat split; try assumption.
    eapply links_from_trans; [|exact L].
    intros l' M. cbn [remove_socket links] in M.
    apply in_map_iff in M as (l & <- & M). apply filter_In in M as [M _].
    exists l. repeat split; auto.
    cbn [from_socket]. unfold shift_socket. destruct (_ && _); reflexivity.
Qed.

Section Reconcile.
Context {H : Host}.

(** "Remove unused vars sockets" keeps the sockets named by a variable and
    the custom ones, in their order. *)
Lemma remove_unused_sockets_spec (elemVar : list str) (g : node_tree) :
  let g' := remove_unused_sockets elemVar g in
  inputs g' = filter (fun s => is_custom s || str_in (socket_name s) elemVar) (inputs g)
  /\ nodes g' = nodes g /\ active g' = active g /\ links_from g g'.
Proof.
  unfold remove_unused_sockets.
  match goal with |- context [fold_left remove_socket ?l g] =>
    destruct (remove_socket_fold l g) as (I & N & A & L) end.
  cbv zeta. repeat split; try assumption.
  rewrite I. unfold enumerate, group_input_outputs.
  rewrite enumerate_from_app, filter_app. cbn [enumerate_from filter snd].
  change (is_custom virtual_socket) with true. cbn [negb andb].
  rewrite app_nil_r.
  pose proof (remove_descending
                (fun s => negb (is_custom s) && negb (str_in (socket_name s) elemVar))
                (inputs g) []) as R.
  cbn [length app] in R. rewrite R.
  apply filter_ext. intro s.
  destruct (is_custom s), (str_in (socket_name s) elemVar); reflexivity.
Qed.

(** With no variable, "Create new sockets" does nothing. *)
Lemma create_sockets_nil (g : node_tree) : create_sockets [] g = g.
Proof. reflexivity. Qed.

End Reconcile.

(** ** The pass *)

Section PassFacts.
Context {H : Host}.

(** C10. When the sanitizer accepts the text and finds neither a variable
    nor a constant in it (the empty expression, say), the pass still removes
    every interior node and every variable socket of the boundary input, adds
    no link, and ends without an error, without a function expression and
    without a link to the output. *)
Theorem no_elements_pass (fuel : nat) (self : customnode) (el : elements) (text : str) :
  get_node (node_tree_of self) Group_Input <> None ->
  get_node (node_tree_of self) Group_Output <> None ->
  auto_symbols self = false
    \/ match_exact_tokens (user_mathexp self) (map macro IRRATIONALS) = [] ->
  sanatize_expression (implicit_mult self) (user_mathexp self) = (el, inl text) ->
  elemVar el = [] ->
  elemConst el = [] ->
  exists self',
    apply_expression (S fuel) self = (self', NoElements)
    /\ Forall (fun n => boundary_type n = true) (nodes (node_tree_of self'))
    /\ Forall (fun s => is_custom s = true) (inputs (node_tree_of self'))
    /\ links_from (node_tree_of self) (node_tree_of self')
    /\ error_message self' = []
    /\ debug_fctexp self' = []
    /\ debug_sanatized self' = text.
Proof.
  intros GI GO R S V C.
  cbn [apply_expression].
  destruct (get_node (node_tree_of self) Group_Input) as [in_nod|]; [|congruence].
  destruct (get_node (node_tree_of self) Group_Output) as [out_nod|]; [|congruence].
  cbn [auto_symbols user_mathexp implicit_mult set_messages node_tree_of].
  assert ((if auto_symbols self
           then match_exact_tokens (user_mathexp self) (map macro IRRATIONALS)
           else []) = []) as ->
    by (destruct R as [-> | ->]; [reflexivity | now destruct (auto_symbols self)]).
  cbn [existsb]. rewrite S. rewrite V, C.
  cbn [is_nil andb fill_vareq create_sockets set_node_tree set_messages set_elems
       node_tree_of error_message debug_fctexp debug_sanatized].
  eexists. split; [reflexivity|].
  cbn [node_tree_of error_message debug_fctexp debug_sanatized set_node_tree
       set_messages set_elems].
  destruct (remove_unused_sockets_spec [] (clear_node_tree (node_tree_of self)))
    as (I & N & _ & L).
  destruct (clear_node_tree_spec (node_tree_of self)) as (N0 & I0 & L0).
  repeat split; try reflexivity.
  - rewrite N. exact N0.
  - rewrite I. apply Forall_forall. intros s M. apply filter_In in M as [_ M].
    cbn [str_in existsb] in M. now rewrite orb_false_r in M.
  - eapply links_from_trans; eassumption.
Qed.

(** Without the recognition of irrationals, or without one of its macros in
    the text, no pass writes the stored text. *)
Lemma text_kept (fuel : nat) : forall self,
  auto_symbols self = false
    \/ match_exact_tokens (user_mathexp self) (map macro IRRATIONALS) = [] ->
  user_mathexp (fst (apply_expression fuel self)) = user_mathexp self.
Proof.
  destruct fuel as [|fuel]; intros self R; [reflexivity|].
  cbn [apply_expression].
  destruct (get_node (node_tree_of self) Group_Input); [|reflexivity].
  destruct (get_node (node_tree_of self) Group_Output); [|reflexivity].
  cbn [auto_symbols user_mathexp implicit_mult set_messages node_tree_of].
  assert ((if auto_symbols self
           then match_exact_tokens (user_mathexp self) (map macro IRRATIONALS)
           else []) = []) as ->
    by (destruct R as [-> | ->]; [reflexivity | now destruct (auto_symbols self)]).
  cbn [existsb].
  repeat match goal with
         | |- context [match ?x with _ => _ end] => destruct x
         end; reflexivity.
Qed.

End PassFacts.

(** ** Reading CPython's message *)

Lemma strip_prefix_mismatch (c : char) (sep s : str) (x : char) :
  char_eqb c x = false -> strip_prefix (c :: sep) (x :: s) = None.
Proof. intro E. cbn [strip_prefix]. now rewrite E. Qed.

(** Text that lacks the separator's first character is passed over. *)
Lemma split_str_from_skip (c : char) (sep : str) (a : str) : forall fuel cur rest,
  lacks c a = true ->
  split_str_from (length a + fuel) (c :: sep) cur (a ++ rest)
  = split_str_from fuel (c :: sep) (rev a ++ cur) rest.
Proof.
  induction a as [|x a IH]; intros fuel cur rest L.
  - reflexivity.
  - cbn [lacks forallb] in L. apply andb_true_iff in L as [X L].
    apply negb_true_iff in X.
    cbn [length Nat.add app split_str_from].
    rewrite strip_prefix_mismatch by exact X.
    rewrite IH by exact L. cbn [rev]. now rewrite <- app_assoc.
Qed.

(** The first piece begins with what had been gathered. *)
Lemma split_str_from_head (sep : str) (fuel : nat) : forall cur s,
  exists r, hd [] (split_str_from fuel sep cur s) = rev cur ++ r.
Proof.
  induction fuel as [|fuel IH]; intros cur s; cbn [split_str_from].
  - exists s. reflexivity.
  - destruct s as [|c s].
    + exists []. cbn [hd]. now rewrite app_nil_r.
    + destruct (strip_prefix sep (c :: s)).
      * exists []. cbn [hd]. now rewrite app_nil_r.
      * destruct (IH (c :: cur) s) as [r R]. exists (c :: r).
        rewrite R. cbn [rev]. now rewrite <- app_assoc.
Qed.

Lemma split_str_from_cons (sep : str) (fuel : nat) (cur s : str) :
  split_str_from fuel sep cur s
  = hd [] (split_str_from fuel sep cur s) :: tl (split_str_from fuel sep cur s).
Proof.
  destruct fuel; cbn [split_str_from]; [reflexivity|].
  destruct s as [|c s]; [reflexivity|].
  destruct (strip_prefix sep (c :: s)); [reflexivity|].
  revert cur c s. induction fuel as [|fuel IH]; intros cur c s; cbn [split_str_from].
  - reflexivity.
  - destruct s as [|c' s]; [reflexivity|].
    destruct (strip_prefix sep (c' :: s)); [reflexivity|]. apply IH.
Qed.

Lemma substring_in_skip (c : char) (p a : str) : forall rest,
  lacks c a = true ->
  substring_in (c :: p) (a ++ rest) = substring_in (c :: p) rest.
Proof.
  induction a as [|x a IH]; intros rest L.
  - reflexivity.
  - cbn [lacks forallb] in L. apply andb_true_iff in L as [X L].
    apply negb_true_iff in X.
    cbn [app]. cbn [substring_in].
    rewrite strip_prefix_mismatch by exact X. now apply IH.
Qed.

Lemma substring_in_lacks (c : char) (p a : str) :
  lacks c a = true -> substring_in (c :: p) a = false.
Proof.
  intro L. rewrite <- (app_nil_r a), substring_in_skip by exact L. reflexivity.
Qed.

Lemma lacks_app (c : char) (a b : str) :
  lacks c (a ++ b) = lacks c a && lacks c b.
Proof. apply forallb_app. Qed.

Lemma digit_char_lacks (c : char) (d : nat) :
  ascii_digit c = false -> (d < 10)%nat -> char_eqb c (digit_char d) = false.
Proof.
  intros A D. unfold char_eqb. apply N.eqb_neq. intros ->.
  revert A. unfold ascii_digit, in_range, digit_char.
  change (ch "0") with 48%N. change (ch "9") with 57%N.
  intro A. apply andb_false_iff in A.
  destruct A as [A|A]; apply N.leb_gt in A; lia.
Qed.

Lemma str_of_nat_aux_lacks (c : char) (fuel : nat) : forall n acc,
  ascii_digit c = false -> lacks c acc = true ->
  lacks c (str_of_nat_aux fuel n acc) = true.
Proof.
  induction fuel as [|fuel IH]; intros n acc A L; cbn [str_of_nat_aux]; [exact L|].
  assert (lacks c (digit_char (n mod 10) :: acc) = true) as L'.
  { unfold lacks in *. cbn [forallb]. rewrite L.
    rewrite digit_char_lacks by (try exact A; apply Nat.mod_upper_bound; lia).
    reflexivity. }
  destruct (Nat.ltb n 10); [exact L' | now apply IH].
Qed.

Lemma str_of_nat_lacks (c : char) (n : nat) :
  ascii_digit c = false -> lacks c (str_of_nat n) = true.
Proof. intro A. now apply str_of_nat_aux_lacks. Qed.

Lemma registry_plain : forallb (fun p => plain (fst p)) registry = true.
Proof. vm_compute. reflexivity. Qed.

Lemma lookup_plain (fname : str) (p : primitive) :
  lookup fname = Some p -> plain fname = true /\ str_in fname funct_namespace = true.
Proof.
  unfold lookup. intro L.
  destruct (find _ registry) as [[k q]|] eqn:F; [|discriminate].
  apply find_some in F as [I E]. cbn [fst] in E. apply str_eqb_eq in E. subst k.
  split.
  - pose proof registry_plain as R. rewrite forallb_forall in R.
    exact (R _ I).
  - apply str_in_In. unfold funct_namespace. apply in_map_iff.
    exists (fname, q). auto.
Qed.

Lemma strip_prefix_app (p x : str) : strip_prefix p (p ++ x) = Some x.
Proof.
  induction p as [|c p IH]; cbn [app strip_prefix]; [reflexivity|].
  unfold char_eqb. now rewrite N.eqb_refl.
Qed.

(** A text that starts with the separator: an empty piece, then the rest. *)
Lemma split_str_leading (c : char) (sep x : str) :
  split_str (c :: sep) ((c :: sep) ++ x)
  = [] :: split_str_from (S (length (sep ++ x))) (c :: sep) [] x.
Proof.
  unfold split_str. cbn [app length split_str_from].
  change (c :: sep ++ x) with ((c :: sep) ++ x).
  now rewrite strip_prefix_app.
Qed.

(** The function's name, as the handler cuts it out of the message. *)
Lemma handler_fctname (f tail : str) :
  plain f = true ->
  exists after,
    nth_error (split_str (py "NodeSetter.") (py "NodeSetter." ++ f ++ py "()" ++ tail)) 1
    = Some after
    /\ hd [] (split_str (py "()") after) = f.
Proof.
  intro P. apply andb_true_iff in P as [PN PP].
  change (py "NodeSetter.") with (ch "N" :: py "odeSetter.").
  rewrite split_str_leading.
  rewrite split_str_from_cons. cbn [nth_error].
  eexists. split; [reflexivity|].
  rewrite length_app, length_app, Nat.add_comm, <- Nat.add_succ_r, <- Nat.add_assoc.
  rewrite split_str_from_skip by exact PN.
  change (py "()" ++ tail) with (ch "(" :: ch ")" :: tail).
  cbn [length Nat.add split_str_from].
  rewrite !strip_prefix_mismatch by reflexivity.
  match goal with
  | |- context [split_str_from ?fuel ?sep ?cur ?s] =>
      destruct (split_str_from_head sep fuel cur s) as [r ->]
  end.
  cbn [rev]. rewrite app_nil_r, rev_involutive, <- !app_assoc. cbn [app].
  change (py "()") with (ch "(" :: ch ")" :: []).
  unfold split_str.
  replace (S (length (f ++ ch "(" :: ch ")" :: r)))
    with (length f + S (length (ch "(" :: ch ")" :: r)))%nat
    by (rewrite length_app; apply Nat.add_succ_r).
  rewrite split_str_from_skip by exact PP.
  cbn [length split_str_from strip_prefix]. unfold char_eqb. rewrite !N.eqb_refl.
  cbn [hd]. now rewrite app_nil_r, rev_involutive.
Qed.

Lemma prefix_lacks_paren (f : str) :
  plain f = true -> lacks (ch "(") (py "NodeSetter." ++ f) = true.
Proof.
  intro P. apply andb_true_iff in P as [_ P].
  rewrite lacks_app, P. reflexivity.
Qed.

Lemma takes_literal (x : str) : py "() takes " ++ x = py "()" ++ py " takes " ++ x.
Proof. reflexivity. Qed.

Lemma missing_literal (x : str) : py "() missing " ++ x = py "()" ++ py " missing " ++ x.
Proof. reflexivity. Qed.

(** Too many operands: the handler names the function, and no count. *)
Lemma cook_takes (f : str) (expected given : nat) :
  plain f = true ->
  cook_TypeError (takes_text f expected given) = Some (ExtraParams f).
Proof.
  intro P. unfold cook_TypeError, takes_text.
  rewrite takes_literal.
  set (tail := py " takes " ++ str_of_nat (S expected)
               ++ py " positional arguments but " ++ str_of_nat (S given)
               ++ py " were given").
  rewrite strip_prefix_app. cbn [is_some].
  destruct (handler_fctname f tail P) as (after & -> & ->).
  rewrite (app_assoc (py "NodeSetter.") f).
  change (py "() missing") with (ch "(" :: py ") missing").
  change (py "() takes") with (ch "(" :: py ") takes").
  rewrite !substring_in_skip by now apply prefix_lacks_paren.
  assert (lacks (ch "(") (ch ")" :: tail) = true) as L.
  { unfold tail. change (ch ")" :: ?x) with ([ch ")"] ++ x).
    rewrite !lacks_app, !str_of_nat_lacks by reflexivity. reflexivity. }
  change (py "()" ++ tail) with (ch "(" :: ch ")" :: tail).
  assert (substring_in (ch "(" :: py ") missing") (ch "(" :: ch ")" :: tail) = false) as ->.
  { cbn [substring_in]. rewrite substring_in_lacks by exact L.
    unfold tail. reflexivity. }
  rewrite substring_in_skip by now apply prefix_lacks_paren.
  assert (substring_in (ch "(" :: py ") takes") (ch "(" :: ch ")" :: tail) = true) as ->.
  { unfold tail. reflexivity. }
  reflexivity.
Qed.

(** Too few operands: the handler names the function and how many are
    missing. *)
Lemma cook_missing (f : str) (expected given : nat) :
  plain f = true -> (given < expected <= 3)%nat ->
  cook_TypeError (missing_text f expected given)
  = Some (NeedsMoreParams f (digit_char (expected - given))).
Proof.
  intros P B.
  assert (In (expected, given) [(1, 0); (2, 0); (2, 1); (3, 0); (3, 1); (3, 2)])%nat as C
    by (cbn [In]; destruct B as [B1 B2];
        destruct expected as [|[|[|[|?]]]]; destruct given as [|[|[|?]]]; try lia; tauto).
  unfold cook_TypeError, missing_text.
  rewrite missing_literal.
  set (n := (expected - given)%nat).
  set (tail := py " missing " ++ str_of_nat n ++ py " required positional argument"
               ++ (if Nat.eqb n 1 then [] else py "s") ++ py ": "
               ++ listing (skipn given (firstn expected params))).
  rewrite strip_prefix_app. cbn [is_some].
  destruct (handler_fctname f tail P) as (after & -> & ->).
  rewrite (app_assoc (py "NodeSetter.") f).
  change (py "() missing") with (ch "(" :: py ") missing").
  rewrite substring_in_skip by now apply prefix_lacks_paren.
  assert (substring_in (ch "(" :: py ") missing") (py "()" ++ tail) = true) as ->
    by reflexivity.
  unfold split_str.
  replace (S (length ((py "NodeSetter." ++ f) ++ py "()" ++ tail)))
    with (length (py "NodeSetter." ++ f) + S (length (py "()" ++ tail)))%nat
    by (rewrite (length_app (py "NodeSetter." ++ f)); apply Nat.add_succ_r).
  change (py "() missing ") with (ch "(" :: py ") missing ").
  rewrite split_str_from_skip by now apply prefix_lacks_paren.
  clear B. unfold tail, n.
  repeat (destruct C as [C|C]; [inversion C; subst; vm_compute; reflexivity|]).
  destruct C.
Qed.

(** ** Wrong number of operands *)

Section ArityFacts.
Context {H : Host}.

Lemma eval_Call (api : list (str * handle)) (func : expr) (args : list expr) :
  eval api (Call func args)
  = (f <- eval api func ;;
     vs <- eval_list api args ;;
     match f with
     | Function fname => call_function fname vs
     | _ => raise (TypeError (py "'" ++ type_name f ++ py "' object is not callable"))
     end).
Proof. reflexivity. Qed.


End ArityFacts.



(** ** Where a failed pass leaves the tree *)

Lemma update_node_types (P : node -> bool) (g : node_tree) (key : str) (f : node -> node) :
  (forall n, P (f n) = P n) ->
  forallb P (nodes (update_node g key f)) = forallb P (nodes g).
Proof.
  intro F. cbn [update_node set_nodes nodes].
  induction (nodes g) as [|n l IH]; cbn [map forallb]; [reflexivity|].
  rewrite IH. destruct (str_eqb (name n) key); [now rewrite F | reflexivity].
Qed.

Section PassExits.
Context {H : Host}.

Lemma create_sockets_nodes (elemVar : list str) (g : node_tree) :
  nodes (create_sockets elemVar g) = nodes g.
Proof.
  unfold create_sockets. destruct (is_nil elemVar); [reflexivity|].
  generalize (map socket_name (group_input_outputs g)). intro current.
  generalize (set_iter elemVar). intro l. revert g.
  induction l as [|v l IH]; intro g; cbn [fold_left]; [reflexivity|].
  rewrite IH. now destruct (str_in v current).
Qed.

Lemma add_constants_types (todo : list str) : forall xloc yloc g consteq,
  forallb operation_free (nodes g) = true ->
  forallb operation_free (nodes (fst (add_constants todo xloc yloc g consteq))) = true.
Proof.
  induction todo as [|c todo IH]; intros xloc yloc g consteq F; cbn [add_constants].
  - exact F.
  - assert (forallb operation_free (nodes (fst (nodes_new g VALUE))) = true) as F1.
    { cbn [nodes_new fst set_nodes nodes]. rewrite forallb_app, F. reflexivity. }
    destruct (nodes_new g VALUE) as [g1 key] eqn:N. cbn [fst] in F1.
    destruct (float_ok c); [|exact F1].
    destruct (rename_node (update_node g1 key (with_default 0 c)) key c) as [g3 key'] eqn:R.
    apply IH.
    rewrite update_node_types by reflexivity.
    unfold rename_node in R. inversion R; subst g3.
    rewrite update_node_types by reflexivity.
    rewrite update_node_types by reflexivity.
    exact F1.
Qed.

Lemma boundary_operation_free (l : list node) :
  Forall (fun m => boundary_type m = true) l -> forallb operation_free l = true.
Proof.
  intro F. apply forallb_forall. intros n I.
  rewrite Forall_forall in F. specialize (F n I).
  unfold boundary_type in F. unfold operation_free. destruct (type n); congruence.
Qed.

(** A pass that ends in the sanitizer has not touched the tree and shows the
    sanitizer's message. *)
Lemma sanitize_exit (fuel : nat) : forall self self' e,
  apply_expression fuel self = (self', SanitizeFailed e) ->
  node_tree_of self' = node_tree_of self
  /\ error_message self' = message e
  /\ exists text el, sanatize_expression (implicit_mult self) text = (el, inr e).
Proof.
  induction fuel as [|fuel IH]; intros self self' e E.
  - discriminate.
  - cbn [apply_expression] in E.
    destruct (get_node (node_tree_of self) Group_Input); [|discriminate].
    destruct (get_node (node_tree_of self) Group_Output); [|discriminate].
    destruct (existsb _ _) in E.
    + apply IH in E as (E1 & E2 & E3). auto.
    + destruct (sanatize_expression _ _) as [el [t|err]] eqn:S in E.
      * exfalso. repeat (break_match; try discriminate).
      * inversion E; subst. repeat split. eauto.
Qed.

(** A pass that ends in the lowering has by then cleared the tree and set
    up the boundary and the constants: no operation node is left. *)
Lemma transform_exit (fuel : nat) : forall self self' e,
  apply_expression fuel self = (self', TransformFailed e) ->
  forallb operation_free (nodes (node_tree_of self')) = true
  /\ (e = ExpressionNotRecognized \/ exists fname, e = FunctionNotRecognized fname).
Proof.
  induction fuel as [|fuel IH]; intros self self' e E.
  - discriminate.
  - cbn [apply_expression] in E.
    destruct (get_node (node_tree_of self) Group_Input) as [in_nod|]; [|discriminate].
    destruct (get_node (node_tree_of self) Group_Output); [|discriminate].
    destruct (existsb _ _) in E.
    + now apply IH in E.
    + destruct (sanatize_expression _ _) as [el [t|err]] in E; [|discriminate].
      destruct (fill_vareq _ _) in E; [|discriminate].
      set (g1 := remove_unused_sockets (elemVar el)
                   (create_sockets (elemVar el) (clear_node_tree (node_tree_of self)))) in *.
      assert (forallb operation_free (nodes g1) = true) as F1.
      { unfold g1.
        destruct (remove_unused_sockets_spec (elemVar el)
                    (create_sockets (elemVar el) (clear_node_tree (node_tree_of self))))
          as (_ & -> & _).
        rewrite create_sockets_nodes.
        apply boundary_operation_free, clear_node_tree_spec. }
      assert (forallb operation_free
                (nodes (fst (if is_nil (elemConst el) then (g1, Some [])
                             else add_constants (set_iter (elemConst el))
                                    (fst (location in_nod))
                                    (snd (location in_nod) - 330)%Z g1 []))) = true) as F2.
      { destruct (is_nil (elemConst el)); [exact F1 | now apply add_constants_types]. }
      destruct (if is_nil (elemConst el) then _ else _) as [g2 [consteq|]] in *;
        [|discriminate].
      cbn [fst] in F2.
      destruct (is_nil (elemVar el) && is_nil (elemConst el)); [discriminate|].
      destruct (transform_expression t) as [fctexp|err] eqn:T.
      * destruct (execute_function_expression _ _ _ _ _ _) as [g3 []]; discriminate.
      * inversion E; subst. split; [exact F2|].
        unfold transform_expression in T.
        destruct (ast_parse t); [|inversion T; auto].
        destruct (visit e0 []) as [[tn used]|]; [|inversion T; auto].
        destruct (find _ _); inversion T. eauto.
Qed.

(** C7 (amended). With the recognition of irrationals switched off, or with
    none of its macros in the text, no pass writes the stored raw
    expression. *)
Theorem raw_expression_kept (fuel : nat) (self : customnode) :
  auto_symbols self = false
    \/ match_exact_tokens (user_mathexp self) (map macro IRRATIONALS) = [] ->
  user_mathexp (fst (apply_expression fuel self)) = user_mathexp self.
Proof. apply text_kept. Qed.

(** C4 (amended). ["x & y"] is rejected by the sanitizer, which reports the
    token [x&y] that holds the foreign character (tokens are sorted before
    the characters are checked); a text whose every token can be sorted is
    rejected for its first foreign character (["x | y"] for the bar); no text
    with a character outside the authorized ones gets through; and a pass
    that the sanitizer ends leaves the graph as it was. *)
Theorem unknown_symbol_rejection :
  (forall implicit,
     snd (sanatize_expression implicit (py "x & y"))
     = inr (UnrecognizedVariable (py "x&y")))
  /\ snd (sanatize_expression false (py "x | y")) = inr (UnrecognizedSymbol (ch "|"))
  /\ (forall implicit expression,
        existsb (fun c => negb (char_in c authorized_symbols))
                (format_symbols expression) = true ->
        exists e, snd (sanatize_expression implicit expression) = inr e)
  /\ (forall fuel self self' e,
        apply_expression fuel self = (self', SanitizeFailed e) ->
        node_tree_of self' = node_tree_of self).
Proof.
  split; [|split; [|split]].
  - intro implicit.
    remember (sanatize_expression implicit (py "x & y")) as r eqn:E.
    destruct implicit; run_in E; subst r; reflexivity.
  - remember (sanatize_expression false (py "x | y")) as r eqn:E.
    run_in E; subst r; reflexivity.
  - apply unauthorized_fails.
  - intros fuel self self' e E. now apply sanitize_exit in E.
Qed.

(** C8 (the code at the failing input). With implicit multiplication off,
    [sin] used as a variable goes through the sanitizer as a function: the
    text is accepted, and no text at all is ever refused for a name that is
    taken. *)
Theorem registry_name_as_variable :
  sanatize_expression false (py "sin+1")
  = ({| elemTotal := [py "sin"; py "1"]; elemFct := [py "sin"];
        elemConst := [py "1"]; elemVar := []; elemCmplx := [] |},
     inl (py "sin+1"))
  /\ forall implicit expression,
       match snd (sanatize_expression implicit expression) with
       | inr (VariableTaken _) => False
       | _ => True
       end.
Proof.
  split.
  - remember (sanatize_expression false (py "sin+1")) as r eqn:E.
    run_in E; subst r; reflexivity.
  - intros implicit expression.
    destruct (sanatize_expression implicit expression) as [el [t|e]] eqn:S;
      cbn [snd]; [exact I|].
    apply sanatize_failure in S as [(t & -> & _)|(c & -> & _)]; exact I.
Qed.

End PassExits.

(** C1 (counterexample). [a+] typed into a node that had compiled [a+b]:
    the parser refuses the text, and by then the pass has removed the ADD node
    and the input [b]. *)
Lemma parse_failure_mutates_graph :
  snd (apply_expression (H := excerpt) 1 (set_user_mathexp compiled_a_plus_b (py "a+")))
  = TransformFailed ExpressionNotRecognized
  /\ map name (nodes (node_tree_of compiled_a_plus_b))
     = [Group_Input; Group_Output; py "Math"]
  /\ map socket_name (inputs (node_tree_of compiled_a_plus_b)) = [py "a"; py "b"]
  /\ map name (nodes (node_tree_of (fst (apply_expression (H := excerpt) 1
                 (set_user_mathexp compiled_a_plus_b (py "a+"))))))
     = [Group_Input; Group_Output]
  /\ map socket_name (inputs (node_tree_of (fst (apply_expression (H := excerpt) 1
                 (set_user_mathexp compiled_a_plus_b (py "a+"))))))
     = [py "a"].
Proof. vm_compute. repeat split; reflexivity. Qed.

(** A fresh node, recognition off. *)
Lemma raw_expression_kept_witness :
  (auto_symbols (new_customnode (py "Pi*2")) = false
   \/ match_exact_tokens (H := excerpt) (user_mathexp (new_customnode (py "Pi*2")))
                         (map macro IRRATIONALS) = [])
  /\ user_mathexp (fst (apply_expression (H := excerpt) 2 (new_customnode (py "Pi*2"))))
     = py "Pi*2".
Proof.
  split; [left; reflexivity|].
  exact (@raw_expression_kept excerpt 2 (new_customnode (py "Pi*2")) (or_introl eq_refl)).
Defined.

(** C7 (counterexample). With the recognition of irrationals on, a pass over
    [Pi*2] rewrites the stored raw expression itself. *)
Lemma pass_rewrites_raw_expression :
  user_mathexp (recognizing (py "Pi*2")) = py "Pi*2"
  /\ user_mathexp (fst (apply_expression (H := excerpt) 2 (recognizing (py "Pi*2"))))
     = py "π*2".
Proof. vm_compute. split; reflexivity. Qed.

(** C4 (counterexample). The error for ["x & y"] does not carry the
    character [&]. *)
Lemma ampersand_is_not_the_payload :
  snd (sanatize_expression (H := excerpt) false (py "x & y"))
  = inr (UnrecognizedVariable (py "x&y"))
  /\ snd (sanatize_expression (H := excerpt) false (py "x & y"))
     <> inr (UnrecognizedSymbol (ch "&"))
  /\ error_message (fst (apply_expression (H := excerpt) 1
                           (set_user_mathexp compiled_a_plus_b (py "x & y"))))
     = py "Unrecorgnized Variable 'x&y'".
Proof.
  split; [vm_compute; reflexivity|]. split; [|vm_compute; reflexivity].
  vm_compute. discriminate.
Qed.

(** ** Lowering *)

Lemma visit_Call (func : expr) (args : list expr) (used : list str) :
  visit (Call func args) used
  = match visit func (match func with
                      | Name id => set_add id used
                      | _ => used
                      end) with
    | Some (func', used1) =>
        match visit_list args used1 with
        | Some (args', used2) => Some (Call func' args', used2)
        | None => None
        end
    | None => None
    end.
Proof. reflexivity. Qed.

Lemma visit_Tuple (elts : list expr) (used : list str) :
  visit (Tuple elts) used
  = match visit_list elts used with
    | Some (elts', used') => Some (Tuple elts', used')
    | None => None
    end.
Proof. reflexivity. Qed.

(** What holds of every child after its visit holds of the visited list. *)
Lemma visit_list_forall (Q R : expr -> bool) (l : list expr) :
  Forall (fun e => forall used e' used',
                     visit e used = Some (e', used') -> Q e = true -> R e' = true) l ->
  forall used l' used',
    visit_list l used = Some (l', used') -> forallb Q l = true -> forallb R l' = true.
Proof.
  induction 1 as [|e l He Hl IH]; intros used l' used' V A; cbn [visit_list] in V.
  - inversion V. reflexivity.
  - destruct (visit e used) as [[e1 used1]|] eqn:V1; [|discriminate].
    destruct (visit_list l used1) as [[l1 used2]|] eqn:V2; [|discriminate].
    inversion V; subst. cbn [forallb] in *. apply andb_true_iff in A as [A1 A2].
    rewrite (He _ _ _ V1 A1), (IH _ _ _ V2 A2). reflexivity.
Qed.

(** No binary operator survives the visit. *)
Lemma visit_no_BinOp (e : expr) : forall used e' used',
  visit e used = Some (e', used') -> no_BinOp e' = true.
Proof.
  induction e as [id|v|l op r IHl IHr|op e IH|f args IHf IHargs|elts IH]
    using expr_rect_nested; intros used e' used' V.
  - inversion V. reflexivity.
  - inversion V. reflexivity.
  - cbn [visit] in V.
    destruct (visit l used) as [[l1 used1]|] eqn:V1; [|discriminate].
    destruct (visit r used1) as [[r1 used2]|] eqn:V2; [|discriminate].
    destruct (func_name op); inversion V; subst.
    cbn [no_BinOp forallb]. rewrite (IHl _ _ _ V1), (IHr _ _ _ V2). reflexivity.
  - cbn [visit] in V.
    destruct (visit e used) as [[e1 used1]|] eqn:V1; inversion V; subst.
    cbn [no_BinOp]. eapply IH; eassumption.
  - rewrite visit_Call in V.
    destruct (visit f _) as [[f1 used1]|] eqn:V1; [|discriminate].
    destruct (visit_list args used1) as [[args1 used2]|] eqn:V2; inversion V; subst.
    cbn [no_BinOp]. rewrite (IHf _ _ _ V1). cbn [andb].
    eapply (visit_list_forall (fun _ => true) no_BinOp); [|exact V2|].
    + eapply Forall_impl; [|exact IHargs]. cbn beta. eauto.
    + apply forallb_forall. reflexivity.
  - rewrite visit_Tuple in V.
    destruct (visit_list elts used) as [[elts1 used1]|] eqn:V1; inversion V; subst.
    cbn [no_BinOp].
    eapply (visit_list_forall (fun _ => true) no_BinOp); [|exact V1|].
    + eapply Forall_impl; [|exact IH]. cbn beta. eauto.
    + apply forallb_forall. reflexivity.
Qed.

(** An expression of names, constants, calls and binary operators becomes
    one of names, constants and calls. *)
Lemma visit_call_form (e : expr) : forall used e' used',
  visit e used = Some (e', used') -> arithmetic e = true -> call_form e' = true.
Proof.
  induction e as [id|v|l op r IHl IHr|op e IH|f args IHf IHargs|elts IH]
    using expr_rect_nested; intros used e' used' V A.
  - inversion V. reflexivity.
  - inversion V. reflexivity.
  - cbn [visit] in V. cbn [arithmetic] in A. apply andb_true_iff in A as [Al Ar].
    destruct (visit l used) as [[l1 used1]|] eqn:V1; [|discriminate].
    destruct (visit r used1) as [[r1 used2]|] eqn:V2; [|discriminate].
    destruct (func_name op); inversion V; subst.
    cbn [call_form forallb]. rewrite (IHl _ _ _ V1 Al), (IHr _ _ _ V2 Ar). reflexivity.
  - discriminate.
  - rewrite visit_Call in V. cbn [arithmetic] in A. apply andb_true_iff in A as [Af Aa].
    destruct (visit f _) as [[f1 used1]|] eqn:V1; [|discriminate].
    destruct (visit_list args used1) as [[args1 used2]|] eqn:V2; inversion V; subst.
    cbn [call_form]. rewrite (IHf _ _ _ V1 Af). cbn [andb].
    exact (visit_list_forall arithmetic call_form IHargs _ V2 Aa).
  - discriminate.
Qed.

Section LoweringFacts.
Context {H : Host}.

Lemma transform_expression_ok (text : str) (body lowered : expr) (used : list str) :
  ast_parse text = Some body ->
  visit body [] = Some (lowered, used) ->
  forallb (fun f => negb (negb (str_in f funct_namespace))) used = true ->
  transform_expression text = inl lowered.
Proof.
  intros P V F. unfold transform_expression. rewrite P, V.
  now rewrite find_set_iter_none.
Qed.

Lemma sort_explicit_ok (todo : list str) : forall el,
  forallb classifiable todo = true -> snd (sort_explicit todo el) = None.
Proof.
  induction todo as [|e todo IH]; intros el F; cbn [sort_explicit forallb] in *.
  - reflexivity.
  - apply andb_true_iff in F as [C F]. unfold classifiable in C.
    destruct (str_in e funct_namespace); [now apply IH|].
    destruct (isdigit _); [now apply IH|].
    cbn [orb] in C. rewrite C. now apply IH.
Qed.

(** A text of classifiable tokens and authorized characters is accepted, in
    whatever order the tokens are run through. *)
Lemma sanatize_explicit_ok (expression : str) :
  forallb classifiable (gather_elements (format_symbols expression)) = true ->
  forallb (fun c => char_in c authorized_symbols) (format_symbols expression) = true ->
  snd (sanatize_expression false expression)
  = inl (re_sub pattern_number_paren (fun g => group 1 g ++ py "*" ++ group 2 g)
                (format_symbols expression)).
Proof.
  intros C A. unfold sanatize_expression.
  match goal with
  | |- context [sort_explicit ?l ?el] =>
      pose proof (@sort_explicit_ok l el) as S; destruct (sort_explicit l el) as [el' o]
  end.
  cbn [snd] in S. rewrite S.
  - destruct (find _ _) as [c|] eqn:F; [|reflexivity].
    apply find_some in F as [I U]. rewrite forallb_forall in A.
    rewrite (A c I) in U. discriminate.
  - apply forallb_forall. intros e I. apply -> set_iter_In in I.
    rewrite forallb_forall in C. exact (C e I).
Qed.

(** C2 (amended). The sanitized text of [x*2 + (3-4/5)/3 + (x+y)**2] is
    lowered to [add(add(mult(x, 2), div(subtract(3, div(4, 5)), 3)),
    exp(add(x, y), 2))], operands in their order.  For every input, no binary
    operator is left in the lowered tree; an input built from names,
    constants, calls and binary operators is lowered to calls, names and
    constants only. *)
Theorem lowering_to_calls :
  snd (sanatize_expression false (py "x*2 + (3-4/5)/3 + (x+y)**2"))
  = inl (py "x*2+(3-4/5)/3+(x+y)**2")
  /\ transform_expression (py "x*2+(3-4/5)/3+(x+y)**2")
     = inl (Call (Name (py "add"))
              [Call (Name (py "add"))
                 [Call (Name (py "mult")) [Name (py "x"); Constant (py "2")];
                  Call (Name (py "div"))
                    [Call (Name (py "subtract"))
                       [Constant (py "3");
                        Call (Name (py "div")) [Constant (py "4"); Constant (py "5")]];
                     Constant (py "3")]];
               Call (Name (py "exp"))
                 [Call (Name (py "add")) [Name (py "x"); Name (py "y")];
                  Constant (py "2")]])
  /\ (forall lowered,
        transform_expression (py "x*2+(3-4/5)/3+(x+y)**2") = inl lowered ->
        unparse lowered
        = py "add(add(mult(x, 2), div(subtract(3, div(4, 5)), 3)), exp(add(x, y), 2))")
  /\ (forall body used lowered used',
        visit body used = Some (lowered, used') ->
        no_BinOp lowered = true
        /\ (arithmetic body = true -> call_form lowered = true)).
Proof.
  assert (transform_expression (py "x*2+(3-4/5)/3+(x+y)**2")
     = inl (Call (Name (py "add"))
              [Call (Name (py "add"))
                 [Call (Name (py "mult")) [Name (py "x"); Constant (py "2")];
                  Call (Name (py "div"))
                    [Call (Name (py "subtract"))
                       [Constant (py "3");
                        Call (Name (py "div")) [Constant (py "4"); Constant (py "5")]];
                     Constant (py "3")]];
               Call (Name (py "exp"))
                 [Call (Name (py "add")) [Name (py "x"); Name (py "y")];
                  Constant (py "2")]])) as T.
  { eapply transform_expression_ok; vm_compute; reflexivity. }
  split; [|split; [exact T|split]].
  - rewrite sanatize_explicit_ok; vm_compute; reflexivity.
  - intros lowered L. rewrite T in L. inversion L. vm_compute. reflexivity.
  - intros body used lowered used' V. split.
    + eapply visit_no_BinOp; eassumption.
    + eapply visit_call_form; eassumption.
Qed.

(** The text that the sanitizer returns is the formatted text with the
    multiplication signs put in. *)
Lemma sanatize_text (implicit : bool) (expression : str) (el : elements) (t : str) :
  sanatize_expression implicit expression = (el, inl t) ->
  t = re_sub pattern_number_paren (fun g => group 1 g ++ py "*" ++ group 2 g)
             (format_symbols expression).
Proof.
  unfold sanatize_expression.
  destruct (if implicit then _ else _) as [el0 [err|]]; [discriminate|].
  destruct (find _ _); [discriminate|]. intro E. now inversion E.
Qed.

(** C3 (amended). A run of superscripts is rewritten as a unit into a power
    of what it immediately follows: [a²] becomes [(a**2)], the expression
    [a**2] over the variable [a] and the constant [2]; [a²³] becomes
    [(a**23)]; after a closing parenthesis the run becomes [**digits].  A
    multiplication sign is put between a number and an opening parenthesis
    that follows it, and nowhere else: [2(a²)] becomes [2*((a**2))], the
    expression [2*(a**2)], while [(a)b] stays as it is and does not parse;
    whatever text [2a²b] is sanitized to is not the expression
    [2*(a**2)*b]. *)
Theorem superscript_rewrite :
  sanatize_expression false (py "a²")
  = ({| elemTotal := [py "a"; py "2"]; elemFct := []; elemConst := [py "2"];
        elemVar := [py "a"]; elemCmplx := [] |},
     inl (py "(a**2)"))
  /\ ast_parse (py "(a**2)") = ast_parse (py "a**2")
  /\ snd (sanatize_expression false (py "a²³")) = inl (py "(a**23)")
  /\ snd (sanatize_expression false (py "(a+b)²")) = inl (py "(a+b)**2")
  /\ snd (sanatize_expression false (py "2(a²)")) = inl (py "2*((a**2))")
  /\ ast_parse (py "2*((a**2))") = ast_parse (py "2*(a**2)")
  /\ snd (sanatize_expression false (py "(a)b")) = inl (py "(a)b")
  /\ ast_parse (py "(a)b") = None
  /\ (forall implicit sanatized,
        snd (sanatize_expression implicit (py "2a²b")) = inl sanatized ->
        ast_parse sanatized <> ast_parse (py "2*(a**2)*b")).
Proof.
  split; [|split; [|split; [|split; [|split; [|split; [|split; [|split]]]]]]].
  - remember (sanatize_expression false (py "a²")) as r eqn:E.
    run_in E; subst r; reflexivity.
  - vm_compute; reflexivity.
  - rewrite sanatize_explicit_ok; vm_compute; reflexivity.
  - rewrite sanatize_explicit_ok; vm_compute; reflexivity.
  - rewrite sanatize_explicit_ok; vm_compute; reflexivity.
  - vm_compute; reflexivity.
  - rewrite sanatize_explicit_ok; vm_compute; reflexivity.
  - vm_compute; reflexivity.
  - intros implicit sanatized S.
    destruct (sanatize_expression implicit (py "2a²b")) as [el r] eqn:E.
    cbn [snd] in S. subst r. apply sanatize_text in E. subst sanatized.
    vm_compute. discriminate.
Qed.

End LoweringFacts.

(** C2 (counterexample). [-x] is lowered to itself: the unary operator
    stays. *)
Lemma unary_operator_remains :
  ast_parse (py "-x") = Some (UnaryOp USub (Name (py "x")))
  /\ transform_expression (H := excerpt) (py "-x") = inl (UnaryOp USub (Name (py "x")))
  /\ call_form (UnaryOp USub (Name (py "x"))) = false.
Proof. vm_compute. repeat split; reflexivity. Qed.

(** C3 (counterexample). [2a²b]: the run is attached to [2a], not to [a].
    With implicit multiplication off the sanitizer refuses the token [2a];
    with it on the text [(2a**2)b] is accepted with [2a] as a composite, and
    does not parse, while [2*(a**2)*b] does. *)
Lemma superscript_takes_the_digit :
  replace_superscript_exponents (py "2a²b") = py "(2a**2)b"
  /\ snd (sanatize_expression (H := excerpt) false (py "2a²b"))
     = inr (UnrecognizedVariable (py "2a"))
  /\ sanatize_expression (H := excerpt) true (py "2a²b")
     = ({| elemTotal := [py "2a"; py "2"; py "b"]; elemFct := [];
           elemConst := [py "2"]; elemVar := [py "b"]; elemCmplx := [py "2a"] |},
        inl (py "(2a**2)b"))
  /\ ast_parse (py "(2a**2)b") = None
  /\ ast_parse (py "2*(a**2)*b")
     = Some (BinOp (BinOp (Constant (py "2")) Mult
                          (BinOp (Name (py "a")) Pow (Constant (py "2"))))
                   Mult (Name (py "b"))).
Proof. vm_compute. repeat split; reflexivity. Qed.

(** ** Compiling given expressions *)

Section Compilations.
Context {H : Host}.

(** C9 (the code at the failing input). On a tree with no active node,
    compiling the bare variable [x] (on a new tree, or on the tree that [a+b]
    was compiled to) leaves no interior node and one link, from the boundary
    input's socket for [x] to the output socket, and compiling the bare
    constant [5] leaves its value node as the only interior node, linked to
    the output socket.  With Group Output as the active node of the tree the
    same two passes end in the final link's error: the value node of [5] is
    there and the input [x] is there, and nothing is linked to the output
    socket. *)
Theorem bare_token :
  (let (self, x) := apply_expression 1 (new_customnode (py "x")) in
   x = Applied
   /\ map type (nodes (node_tree_of self)) = [GROUP_INPUT; GROUP_OUTPUT]
   /\ map socket_name (inputs (node_tree_of self)) = [py "x"]
   /\ links (node_tree_of self)
      = [ {| from_socket := {| owner := Group_Input; is_output := true; index := 0 |};
             to_socket := {| owner := Group_Output; is_output := false; index := 0 |} |} ])
  /\
  (let first := fst (apply_expression 1 (new_customnode (py "a+b"))) in
   let (self, x) := apply_expression 1 (set_user_mathexp first (py "x")) in
   x = Applied
   /\ map type (nodes (node_tree_of self)) = [GROUP_INPUT; GROUP_OUTPUT]
   /\ map socket_name (inputs (node_tree_of self)) = [py "x"]
   /\ links (node_tree_of self)
      = [ {| from_socket := {| owner := Group_Input; is_output := true; index := 0 |};
             to_socket := {| owner := Group_Output; is_output := false; index := 0 |} |} ])
  /\
  (let (self, x) := apply_expression 1 (new_customnode (py "5")) in
   x = Applied
   /\ map (fun n => (name n, type n)) (nodes (node_tree_of self))
      = [(Group_Input, GROUP_INPUT); (Group_Output, GROUP_OUTPUT); (py "5", VALUE)]
   /\ inputs (node_tree_of self) = []
   /\ links (node_tree_of self)
      = [ {| from_socket := {| owner := py "5"; is_output := true; index := 0 |};
             to_socket := {| owner := Group_Output; is_output := false; index := 0 |} |} ])
  /\
  (let (self, x) := apply_expression 1 (with_active_node Group_Output
                                          (new_customnode (py "5"))) in
   x = ExecuteFailed FinalLinkError
   /\ error_message self = py "Error on Final Link"
   /\ map (fun n => (name n, type n)) (nodes (node_tree_of self))
      = [(Group_Input, GROUP_INPUT); (Group_Output, GROUP_OUTPUT); (py "5", VALUE)]
   /\ links (node_tree_of self) = [])
  /\
  (let (self, x) := apply_expression 1 (with_active_node Group_Output
                                          (new_customnode (py "x"))) in
   x = ExecuteFailed FinalLinkError
   /\ error_message self = py "Error on Final Link"
   /\ map type (nodes (node_tree_of self)) = [GROUP_INPUT; GROUP_OUTPUT]
   /\ map socket_name (inputs (node_tree_of self)) = [py "x"]
   /\ links (node_tree_of self) = []).
Proof.
  split; [|split; [|split; [|split]]].
  - remember (apply_expression 1 (new_customnode (py "x"))) as r eqn:E.
    run_in E; subst r. repeat split; reflexivity.
  - cbv zeta.
    remember (apply_expression 1 (new_customnode (py "a+b"))) as r1 eqn:E1.
    run_in E1; subst r1; cbn [fst].
    all: match goal with
         | |- context [apply_expression 1 ?s] =>
             remember (apply_expression 1 s) as r2 eqn:E2
         end.
    all: run_in E2; subst r2; repeat split; reflexivity.
  - remember (apply_expression 1 (new_customnode (py "5"))) as r eqn:E.
    run_in E; subst r. repeat split; reflexivity.
  - remember (apply_expression 1 (with_active_node Group_Output
                                    (new_customnode (py "5")))) as r eqn:E.
    run_in E; subst r. repeat split; reflexivity.
  - remember (apply_expression 1 (with_active_node Group_Output
                                    (new_customnode (py "x")))) as r eqn:E.
    run_in E; subst r. repeat split; reflexivity.
Qed.

(** C6. Compiling [a+b] on a new tree and then [a+c]: the boundary inputs
    are [a] and [b], then [a] and [c]; the socket [a] of the second pass is
    the one of the first, with its identifier; the identifier of [b] is gone;
    the one of [c] is new. *)
Theorem boundary_reconciliation :
  let first := fst (apply_expression 1 (new_customnode (py "a+b"))) in
  let second := fst (apply_expression 1 (set_user_mathexp first (py "a+c"))) in
  let before := inputs (node_tree_of first) in
  let after := inputs (node_tree_of second) in
  Permutation (map socket_name before) [py "a"; py "b"]
  /\ map socket_name after = [py "a"; py "c"]
  /\ (forall s, In s before -> socket_name s = py "a" -> In s after)
  /\ (forall s, In s before -> socket_name s = py "b" ->
        ~ In (identifier s) (map identifier after))
  /\ (forall s, In s after -> socket_name s = py "c" ->
        ~ In (identifier s) (map identifier before)).
Proof.
  cbv zeta.
  remember (apply_expression 1 (new_customnode (py "a+b"))) as r1 eqn:E1.
  run_in E1; subst r1; cbn [fst].
  all: match goal with
       | |- context [apply_expression 1 ?s] =>
           remember (apply_expression 1 s) as r2 eqn:E2
       end.
  all: run_in E2; subst r2; cbn [fst node_tree_of inputs map socket_name].
  all: split; [first [apply Permutation_refl | apply perm_swap]|].
  all: split; [reflexivity|].
  all: repeat split; intros s I N; cbn [In] in I;
       repeat (destruct I as [<-|I]; [try discriminate N|]); try contradiction;
       cbn; intuition (try discriminate; auto).
Qed.

End Compilations.

(** The empty expression typed into a node that had compiled [a+b]. *)
Lemma no_elements_pass_witness :
  get_node (node_tree_of (set_user_mathexp compiled_a_plus_b [])) Group_Input <> None
  /\ get_node (node_tree_of (set_user_mathexp compiled_a_plus_b [])) Group_Output <> None
  /\ (auto_symbols (set_user_mathexp compiled_a_plus_b []) = false
      \/ match_exact_tokens (H := excerpt)
           (user_mathexp (set_user_mathexp compiled_a_plus_b []))
           (map macro IRRATIONALS) = [])
  /\ sanatize_expression (H := excerpt)
       (implicit_mult (set_user_mathexp compiled_a_plus_b []))
       (user_mathexp (set_user_mathexp compiled_a_plus_b []))
     = (elems (new_customnode []), inl [])
  /\ exists self',
       apply_expression (H := excerpt) 1 (set_user_mathexp compiled_a_plus_b [])
       = (self', NoElements)
       /\ Forall (fun n => boundary_type n = true) (nodes (node_tree_of self'))
       /\ Forall (fun s => is_custom s = true) (inputs (node_tree_of self'))
       /\ links_from (node_tree_of (set_user_mathexp compiled_a_plus_b []))
                     (node_tree_of self')
       /\ error_message self' = []
       /\ debug_fctexp self' = []
       /\ debug_sanatized self' = [].
Proof.
  assert (get_node (node_tree_of (set_user_mathexp compiled_a_plus_b [])) Group_Input
          <> None) as GI by (vm_compute; discriminate).
  assert (get_node (node_tree_of (set_user_mathexp compiled_a_plus_b [])) Group_Output
          <> None) as GO by (vm_compute; discriminate).
  assert (auto_symbols (set_user_mathexp compiled_a_plus_b []) = false
          \/ match_exact_tokens (H := excerpt)
               (user_mathexp (set_user_mathexp compiled_a_plus_b []))
               (map macro IRRATIONALS) = []) as R by (left; reflexivity).
  assert (sanatize_expression (H := excerpt)
            (implicit_mult (set_user_mathexp compiled_a_plus_b []))
            (user_mathexp (set_user_mathexp compiled_a_plus_b []))
          = (elems (new_customnode []), inl [])) as S by (vm_compute; reflexivity).
  split; [exact GI|]. split; [exact GO|]. split; [exact R|]. split; [exact S|].
  exact (@no_elements_pass excerpt 0 _ _ _ GI GO R S eq_refl eq_refl).
Defined.

(** ** Further properties *)

Section Further.
Context {H : Host}.

Lemma create_fold (current : list str) (l : list str) : forall g,
  let g' := fold_left (fun g var => if str_in var current then g else create_socket g var)
                      l g in
  exists added,
    inputs g' = inputs g ++ added
    /\ Forall (fun s => is_custom s = false /\ In (socket_name s) l) added
    /\ (forall v, In v l -> str_in v current = false -> In v (map socket_name added)).
Proof.
  induction l as [|v l IH]; intro g; cbn [fold_left].
  - exists []. rewrite app_nil_r. repeat split; [constructor | intros v []].
  - destruct (str_in v current) eqn:C.
    + destruct (IH g) as (added & I & F & A). exists added. repeat split.
      * exact I.
      * eapply Forall_impl; [|exact F]. cbn beta. intros s [S1 S2]. split; [exact S1 | now right].
      * intros w [<-|W] N; [congruence | now apply A].
    + destruct (IH (create_socket g v)) as (added & I & F & A).
      cbn [create_socket inputs] in I. rewrite <- app_assoc in I. cbn [app] in I.
      eexists. split; [exact I|]. split.
      * constructor; [split; [reflexivity | now left]|].
        eapply Forall_impl; [|exact F]. cbn beta. intros s [S1 S2]. split; [exact S1 | now right].
      * intros w [<-|W] N; [now left | right; now apply A].
Qed.

(** X1. The boundary after "Create new sockets" and "Remove unused vars
    sockets": its sockets are the custom ones and those named by a variable;
    every variable has its socket; a socket that was there under a
    variable's name is still there. *)
Theorem reconciled_boundary (elemVar : list str) (g : node_tree) :
  ~ In [] elemVar ->
  let g' := remove_unused_sockets elemVar (create_sockets elemVar g) in
  (forall s, In s (inputs g') -> is_custom s = true \/ In (socket_name s) elemVar)
  /\ (forall v, In v elemVar -> In v (map socket_name (inputs g')))
  /\ (forall s, In s (inputs g) -> In (socket_name s) elemVar -> In s (inputs g')).
Proof.
  intros NE g'.
  destruct (remove_unused_sockets_spec elemVar (create_sockets elemVar g)) as (I & _).
  fold g' in I.
  assert (exists added,
            inputs (create_sockets elemVar g) = inputs g ++ added
            /\ Forall (fun s => is_custom s = false /\ In (socket_name s) elemVar) added
            /\ (forall v, In v elemVar ->
                  str_in v (map socket_name (group_input_outputs g)) = false ->
                  In v (map socket_name added))) as (added & C & F & A).
  { unfold create_sockets. destruct elemVar as [|e l] eqn:EV.
    - exists []. cbn [is_nil]. rewrite app_nil_r. repeat split; [constructor | intros v []].
    - cbn [is_nil]. rewrite <- EV.
      destruct (create_fold (map socket_name (group_input_outputs g)) (set_iter elemVar) g)
        as (added & C & F & A).
      exists added. repeat split; [exact C | |].
      + eapply Forall_impl; [|exact F]. cbn beta. intros s [S1 S2].
        split; [exact S1 | now apply -> set_iter_In in S2].
      + intros v V N. apply A; [now apply set_iter_In | exact N]. }
  rewrite C in I. repeat split.
  - intros s S. rewrite I in S. apply filter_In in S as [_ S].
    apply orb_true_iff in S as [S|S]; [now left | right; now apply str_in_In].
  - intros v V. rewrite I.
    destruct (str_in v (map socket_name (group_input_outputs g))) eqn:N.
    + apply str_in_In in N. unfold group_input_outputs in N.
      rewrite map_app in N. apply in_app_or in N as [N|N].
      * apply in_map_iff in N as (s & <- & S). apply in_map_iff. exists s.
        split; [reflexivity|]. apply filter_In. split; [apply in_or_app; now left|].
        apply orb_true_iff. right. now apply str_in_In.
      * cbn in N. destruct N as [<-|[]]. contradiction.
    + specialize (A v V N). apply in_map_iff in A as (s & <- & S).
      apply in_map_iff. exists s. split; [reflexivity|].
      apply filter_In. split; [apply in_or_app; now right|].
      apply orb_true_iff. right. now apply str_in_In.
  - intros s S N. rewrite I. apply filter_In. split; [apply in_or_app; now left|].
    apply orb_true_iff. right. now apply str_in_In.
Qed.

End Further.

(** The variables [a], [c] on the tree that [a+b] was compiled to. *)
Lemma reconciled_boundary_witness :
  ~ In [] [py "a"; py "c"]
  /\ map socket_name
         (inputs (remove_unused_sockets [py "a"; py "c"]
                    (create_sockets (H := excerpt) [py "a"; py "c"]
                       (node_tree_of compiled_a_plus_b))))
     = [py "a"; py "c"]
  /\ forall v, In v [py "a"; py "c"] ->
       In v (map socket_name
               (inputs (remove_unused_sockets [py "a"; py "c"]
                          (create_sockets (H := excerpt) [py "a"; py "c"]
                             (node_tree_of compiled_a_plus_b))))).
Proof.
  assert (~ In [] [py "a"; py "c"]) as NE
    by (cbn [In]; intros [E|[E|[]]]; discriminate E).
  split; [exact NE|]. split; [vm_compute; reflexivity|].
  exact (proj1 (proj2 (@reconciled_boundary excerpt [py "a"; py "c"]
                         (node_tree_of compiled_a_plus_b) NE))).
Defined.

(** ** Scanning *)

Lemma strip_prefix_split (p : str) : forall s rest,
  strip_prefix p s = Some rest -> s = p ++ rest.
Proof.
  induction p as [|x p IH]; intros [|y s] rest E; cbn [strip_prefix] in E.
  - now inversion E.
  - now inversion E.
  - discriminate.
  - destruct (char_eqb x y) eqn:C; [|discriminate].
    apply N.eqb_eq in C. subst y. cbn [app]. f_equal. now apply IH.
Qed.

Lemma flat_map_Lit (f : piece -> str) (s : str) :
  (forall c, f (Lit c) = [c]) -> flat_map f (map Lit s) = s.
Proof.
  intro F. induction s as [|c s IH]; cbn [map flat_map]; [reflexivity|].
  rewrite F, IH. reflexivity.
Qed.

(** The pieces of a scan, put end to end, are the text. *)
Lemma re_scan_source (m : matcher) : consumes m ->
  forall fuel adv prev s, flat_map source (re_scan fuel m adv prev s) = s.
Proof.
  intros C fuel. induction fuel as [|f IH]; intros adv prev s; cbn [re_scan].
  - now apply flat_map_Lit.
  - destruct (m adv prev s) as [[g rest]|] eqn:M.
    + cbn [flat_map source]. rewrite IH. now apply C in M.
    + destruct s as [|c s]; [reflexivity|]. cbn [flat_map source app]. now rewrite IH.
Qed.

(** What holds of every match of the pattern holds of every match of a
    scan. *)
Lemma re_scan_matches (m : matcher) (P : list str -> Prop) :
  (forall adv prev s g rest, m adv prev s = Some (g, rest) -> P g) ->
  forall fuel adv prev s g, In (Match g) (re_scan fuel m adv prev s) -> P g.
Proof.
  intros A fuel. induction fuel as [|f IH]; intros adv prev s g I; cbn [re_scan] in I.
  - apply in_map_iff in I as (c & E & _). discriminate.
  - destruct (m adv prev s) as [[g0 rest]|] eqn:M.
    + destruct I as [E|I]; [inversion E; subst; eauto | eauto].
    + destruct s as [|c s]; [destruct I|].
      destruct I as [E|I]; [discriminate | eauto].
Qed.

(** Where the pattern matches nowhere, the scan passes over every
    character. *)
Lemma re_scan_none (m : matcher) (Q : str -> Prop) :
  (forall adv prev s, Q s -> m adv prev s = None) ->
  (forall c s, Q (c :: s) -> Q s) ->
  forall fuel adv prev s, Q s -> re_scan fuel m adv prev s = map Lit s.
Proof.
  intros N T fuel. induction fuel as [|f IH]; intros adv prev s q; cbn [re_scan].
  - reflexivity.
  - rewrite (N adv prev s q). destruct s as [|c s]; [reflexivity|].
    cbn [map]. f_equal. apply IH. eauto.
Qed.

Lemma re_findall_In (m : matcher) (s x : str) :
  In x (re_findall m s) <-> exists g, In (Match g) (pieces m s) /\ x = concat g.
Proof.
  unfold re_findall. rewrite in_flat_map. split.
  - intros ([c|g] & I & X); [destruct X|]. destruct X as [<-|[]]. eauto.
  - intros (g & I & ->). exists (Match g). split; [exact I | now left].
Qed.

Lemma re_scan_no_match (m : matcher) (repl : list str -> str) (fuel : nat) :
  forall adv prev s,
    flat_map (fun p => match p with Lit _ => [] | Match g => [concat g] end)
             (re_scan fuel m adv prev s) = [] ->
    flat_map (fun p => match p with Lit c => [c] | Match g => repl g end)
             (re_scan fuel m adv prev s) = s.
Proof.
  induction fuel as [|f IH]; intros adv prev s E; cbn [re_scan] in *.
  - now apply flat_map_Lit.
  - destruct (m adv prev s) as [[g rest]|]; [discriminate|].
    destruct s as [|c s]; [reflexivity|].
    cbn [flat_map app] in *. f_equal. now apply IH.
Qed.

(** A substitution with no match leaves the text as it is. *)
Lemma re_sub_no_match (m : matcher) (repl : list str -> str) (s : str) :
  re_findall m s = [] -> re_sub m repl s = s.
Proof. apply re_scan_no_match. Qed.

(** The scan of the empty pattern: an empty match before every character and
    at the end. *)
Lemma empty_pattern_scan (s : str) : forall fuel prev,
  2 * S (length s) <= fuel ->
  re_scan fuel empty_pattern false prev s
  = Match [[]] :: flat_map (fun c => [Lit c; Match [[]]]) s.
Proof.
  induction s as [|c s IH]; intros fuel prev F; cbn [length] in F.
  - destruct fuel as [|[|f]]; [lia | lia |]. reflexivity.
  - destruct fuel as [|[|f]]; [lia | lia |].
    cbn [re_scan empty_pattern concat app is_nil flat_map]. f_equal. f_equal.
    apply IH. lia.
Qed.

Section TokenFacts.
Context {H : Host}.

Lemma boundary_some (t : str) (adv : bool) (prev : option char) (s : str) (g : list str)
    (rest : str) :
  boundary t adv prev s = Some (g, rest) ->
  g = [t] /\ s = t ++ rest /\ (adv = true -> t <> []).
Proof.
  unfold boundary. destruct (strip_prefix t s) as [r|] eqn:S; [|discriminate].
  destruct (if numeric_token t then _ else _); [|discriminate]. cbn [andb].
  destruct (negb (adv && is_nil t)) eqn:A; [|discriminate].
  intro E. inversion E; subst. split; [reflexivity|]. split; [now apply strip_prefix_split|].
  intros -> ->. discriminate.
Qed.

(** With no empty token, the demand to advance changes nothing. *)
Lemma boundary_advance (t : str) (adv : bool) (prev : option char) (s : str) :
  t <> [] -> boundary t adv prev s = boundary t false prev s.
Proof.
  intro N. unfold boundary. destruct t; [congruence|]. cbn [is_nil].
  now rewrite andb_false_r.
Qed.

Lemma alternatives_some (tokens : list str) (adv : bool) (prev : option char) (s : str)
    (g : list str) (rest : str) :
  alternatives tokens adv prev s = Some (g, rest) ->
  exists t, In t tokens /\ g = [t] /\ s = t ++ rest /\ (adv = true -> t <> []).
Proof.
  induction tokens as [|t ts IH]; cbn [alternatives]; [discriminate|].
  destruct (boundary t adv prev s) as [[g0 r0]|] eqn:B.
  - intro E. inversion E; subst. apply boundary_some in B as (-> & -> & A).
    exists t. repeat split; auto. now left.
  - intro E. apply IH in E as (u & I & E1 & E2 & A). exists u. repeat split; auto. now right.
Qed.

Lemma alternatives_advance (tokens : list str) (adv : bool) (prev : option char) (s : str) :
  ~ In [] tokens -> alternatives tokens adv prev s = alternatives tokens false prev s.
Proof.
  induction tokens as [|t ts IH]; cbn [alternatives In]; [reflexivity|].
  intro N. rewrite (@boundary_advance t adv) by (intros ->; tauto).
  destruct (boundary t false prev s); [reflexivity|]. apply IH. tauto.
Qed.

Lemma build_token_pattern_cons (t : str) (ts : list str) :
  build_token_pattern (t :: ts) = alternatives (t :: ts).
Proof. reflexivity. Qed.

Lemma build_token_pattern_some (tokens : list str) (adv : bool) (prev : option char)
    (s : str) (g : list str) (rest : str) :
  tokens <> [] ->
  build_token_pattern tokens adv prev s = Some (g, rest) ->
  exists t, In t tokens /\ g = [t] /\ s = t ++ rest.
Proof.
  intros N E. destruct tokens as [|t ts]; [congruence|].
  rewrite build_token_pattern_cons in E.
  apply alternatives_some in E as (u & I & E1 & E2 & _). eauto.
Qed.

Lemma build_token_pattern_consumes (tokens : list str) :
  consumes (build_token_pattern tokens).
Proof.
  intros adv prev s g rest E. destruct tokens as [|t ts].
  - unfold build_token_pattern, empty_pattern in E. cbn [is_nil] in E.
    destruct adv; [discriminate|]. now inversion E.
  - apply build_token_pattern_some in E as (u & _ & -> & ->); [|discriminate].
    cbn [concat]. now rewrite app_nil_r.
Qed.

(** With no token the matches are the empty texts found before every
    character and at the end, and a substitution changes nothing. *)
Lemma match_no_token (string : str) :
  match_exact_tokens string [] = repeat [] (S (length string)).
Proof.
  unfold match_exact_tokens, re_findall, pieces, build_token_pattern. cbn [is_nil].
  rewrite empty_pattern_scan by lia. cbn [flat_map concat app repeat]. f_equal.
  induction string as [|c s IH]; cbn [flat_map app length repeat]; [reflexivity|].
  now rewrite IH.
Qed.

Lemma replace_no_token (string : str) : replace_exact_tokens string [] = string.
Proof.
  unfold replace_exact_tokens, re_sub, pieces, build_token_pattern. cbn [map is_nil].
  rewrite empty_pattern_scan by lia. cbn [flat_map concat app mapping_get].
  induction string as [|c s IH]; cbn [flat_map app]; [reflexivity|].
  now rewrite IH.
Qed.

End TokenFacts.

(** ** Exact tokens *)

Lemma In_flat_map_split {A B} (f : A -> list B) (l : list A) (x : A) :
  In x l -> exists a b, flat_map f l = a ++ f x ++ b.
Proof.
  intro I. apply in_split in I as (l1 & l2 & ->).
  exists (flat_map f l1), (flat_map f l2).
  rewrite flat_map_app. reflexivity.
Qed.

Lemma substring_in_middle (p a b : str) : substring_in p (a ++ p ++ b) = true.
Proof.
  induction a as [|x a IH]; cbn [app].
  - destruct (p ++ b) eqn:E; cbn [substring_in]; rewrite <- E, strip_prefix_app; reflexivity.
  - cbn [substring_in]. destruct (strip_prefix p (x :: a ++ p ++ b)); [reflexivity | exact IH].
Qed.

Lemma ascii_alpha_spec (c : char) :
  ascii_alpha c = true ->
  is_ascii c = true /\ ascii_digit c = false /\ char_eqb c (ch ".") = false.
Proof.
  unfold ascii_alpha, ascii_digit, is_ascii, in_range, char_eqb.
  change (ch "A") with 65%N. change (ch "Z") with 90%N.
  change (ch "a") with 97%N. change (ch "z") with 122%N.
  change (ch "0") with 48%N. change (ch "9") with 57%N. change (ch ".") with 46%N.
  intro A. apply orb_true_iff in A.
  rewrite !andb_true_iff, !N.leb_le in A.
  rewrite N.ltb_lt, andb_false_iff, !N.leb_gt, N.eqb_neq. lia.
Qed.

Lemma digit_or_point_spec (c : char) :
  digit_or_point c = true -> is_ascii c = true /\ ascii_alpha c = false.
Proof.
  unfold digit_or_point, ascii_alpha, ascii_digit, is_ascii, in_range, char_eqb.
  change (ch "A") with 65%N. change (ch "Z") with 90%N.
  change (ch "a") with 97%N. change (ch "z") with 122%N.
  change (ch "0") with 48%N. change (ch "9") with 57%N. change (ch ".") with 46%N.
  intro A. apply orb_true_iff in A.
  rewrite andb_true_iff, !N.leb_le, N.eqb_eq in A.
  rewrite N.ltb_lt, orb_false_iff, !andb_false_iff, !N.leb_gt. lia.
Qed.

Lemma last_char_cons (c : char) (t : str) (prev : option char) :
  exists x, last_char (c :: t) prev = Some x /\ In x (c :: t).
Proof.
  unfold last_char. destruct (rev (c :: t)) as [|x r] eqn:R.
  - apply (f_equal (@length char)) in R. rewrite length_rev in R. discriminate.
  - exists x. split; [reflexivity|]. apply in_rev. rewrite R. now left.
Qed.

Lemma mapping_get_absent (mapping : list (str * str)) (s : str) :
  ~ In s (map fst mapping) -> mapping_get mapping s = s.
Proof.
  induction mapping as [|[k v] m IH]; cbn [mapping_get map fst In]; [reflexivity|].
  intro N. destruct (str_eqb k s) eqn:E.
  - apply str_eqb_eq in E. tauto.
  - apply IH. tauto.
Qed.

Section ExactTokenFacts.
Context {H : Host}.

Lemma alpha_word (c : char) : ascii_alpha c = true -> re_w c = true /\ re_d c = false.
Proof.
  intro A. destruct (ascii_alpha_spec _ A) as (I & D & _).
  unfold re_w, re_d, isalpha_char, isdecimal_char. rewrite I, A, D. split; reflexivity.
Qed.

Lemma point_digit_or_dot (c : char) :
  digit_or_point c = true -> digit_or_dot (Some c) = true.
Proof.
  intro A. destruct (digit_or_point_spec _ A) as (I & _).
  unfold digit_or_dot, re_d, isdecimal_char. rewrite I. exact A.
Qed.

Lemma numeric_token_head (t : str) :
  numeric_token t = true -> exists c t', t = c :: t' /\ re_d c = true.
Proof.
  unfold numeric_token. destruct t as [|c t']; cbn [span].
  - discriminate.
  - destruct (re_d c) eqn:D; [eauto|]. discriminate.
Qed.

Lemma letters_not_numeric (c : char) (t : str) :
  ascii_alpha c = true -> numeric_token (c :: t) = false.
Proof.
  intro A. unfold numeric_token. cbn [span].
  destruct (alpha_word _ A) as [_ ->]. reflexivity.
Qed.

(** In a text of one kind, a key matches the whole text or nothing, and
    only where nothing of that kind comes before. *)
Lemma boundary_whole (cl : char -> bool) (t : str) (adv : bool) (prev : option char)
    (s : str) (g : list str) (rest : str) :
  one_kind cl -> key_ok t = true -> forallb cl s = true ->
  boundary t adv prev s = Some (g, rest) ->
  rest = [] /\ match prev with Some c => cl c = false | None => True end.
Proof.
  intros K O U B. pose proof (boundary_some _ _ _ _ B) as (-> & -> & _).
  rewrite forallb_app in U. apply andb_true_iff in U as [Ut Ur].
  rewrite boundary_advance in B
    by (intros ->; unfold key_ok in O; cbn in O; discriminate).
  unfold boundary in B. rewrite strip_prefix_app in B. cbn [andb negb] in B.
  rewrite andb_true_r in B.
  unfold key_ok in O. destruct (numeric_token t) eqn:N.
  - destruct (numeric_token_head _ N) as (c & t' & -> & D).
    cbn [forallb] in Ut. apply andb_true_iff in Ut as [Uc _].
    destruct K as [-> | ->].
    + destruct (alpha_word _ Uc) as [_ D']. congruence.
    + destruct (negb (digit_or_dot prev)) eqn:P; [|discriminate]. cbn [andb] in B.
      destruct rest as [|r rest].
      * split; [reflexivity|]. destruct prev as [p|]; [|exact I].
        destruct (digit_or_point p) eqn:X; [|reflexivity].
        apply point_digit_or_dot in X. rewrite X in P. discriminate.
      * cbn [forallb] in Ur. apply andb_true_iff in Ur as [Ur _].
        apply point_digit_or_dot in Ur. cbn [hd_error] in B. rewrite Ur in B. discriminate.
  - cbn [orb] in O. apply andb_true_iff in O as [NE L].
    destruct t as [|c t']; [discriminate|].
    cbn [forallb] in L, Ut. apply andb_true_iff in L as [Lc L].
    apply andb_true_iff in Ut as [Uc Ut].
    destruct K as [-> | ->].
    + destruct (last_char_cons c t' prev) as (x & Lx & X).
      rewrite Lx in B.
      assert (ascii_alpha x = true) as Ax.
      { destruct X as [<-|X]; [exact Lc|]. rewrite forallb_forall in L. now apply L. }
      cbn [app hd_error] in B. unfold word_boundary in B. cbn [word] in B.
      rewrite (proj1 (alpha_word _ Lc)), (proj1 (alpha_word _ Ax)) in B.
      destruct (word prev) eqn:Wp; [discriminate|]. cbn [xorb andb] in B.
      destruct rest as [|r rest].
      * split; [reflexivity|]. destruct prev as [p|]; [|exact I].
        destruct (ascii_alpha p) eqn:X'; [|reflexivity].
        cbn [word] in Wp. rewrite (proj1 (alpha_word _ X')) in Wp. discriminate.
      * cbn [forallb] in Ur. apply andb_true_iff in Ur as [Ur _].
        cbn [hd_error word] in B. rewrite (proj1 (alpha_word _ Ur)) in B. discriminate.
    + destruct (digit_or_point_spec _ Uc) as [_ X]. congruence.
Qed.

Lemma build_whole (cl : char -> bool) (keys : list str) (adv : bool) (prev : option char)
    (s : str) (g : list str) (rest : str) :
  one_kind cl -> forallb key_ok keys = true -> forallb cl s = true ->
  alternatives keys adv prev s = Some (g, rest) ->
  g = [s] /\ rest = [] /\ match prev with Some c => cl c = false | None => True end.
Proof.
  intros K O U. induction keys as [|t ts IH]; cbn [alternatives]; [discriminate|].
  cbn [forallb] in O. apply andb_true_iff in O as [Ot O].
  destruct (boundary t adv prev s) as [[g0 r0]|] eqn:B.
  - intro E. inversion E; subst.
    destruct (boundary_whole _ _ _ _ K Ot U B) as [-> P].
    apply boundary_some in B as (-> & -> & _). rewrite app_nil_r. auto.
  - now apply IH.
Qed.

Lemma boundary_self (cl : char -> bool) (s : str) :
  one_kind cl -> key_ok s = true -> forallb cl s = true ->
  boundary s false None s = Some ([s], []).
Proof.
  intros K O U. unfold boundary.
  rewrite <- (app_nil_r s) at 2. rewrite strip_prefix_app.
  unfold key_ok in O. destruct (numeric_token s) eqn:N; [reflexivity|].
  cbn [orb] in O. apply andb_true_iff in O as [NE L].
  destruct s as [|c t']; [discriminate|].
  destruct (last_char_cons c t' None) as (x & Lx & X).
  rewrite Lx.
  assert (ascii_alpha x = true) as Ax.
  { rewrite forallb_forall in L. now apply L. }
  cbn [forallb] in L. apply andb_true_iff in L as [Lc L].
  rewrite app_nil_r. cbn [hd_error]. unfold word_boundary. cbn [word].
  rewrite (proj1 (alpha_word _ Lc)), (proj1 (alpha_word _ Ax)). reflexivity.
Qed.

Lemma build_finds (cl : char -> bool) (keys : list str) (s : str) :
  one_kind cl -> forallb key_ok keys = true -> forallb cl s = true ->
  In s keys -> alternatives keys false None s <> None.
Proof.
  intros K O U. induction keys as [|t ts IH]; cbn [alternatives In]; [tauto|].
  cbn [forallb] in O. apply andb_true_iff in O as [Ot O].
  intros [->|I].
  - erewrite boundary_self by eassumption. discriminate.
  - destruct (boundary t false None s); [discriminate | now apply IH].
Qed.

Lemma re_scan_inside (cl : char -> bool) (keys : list str) :
  one_kind cl -> forallb key_ok keys = true ->
  forall fuel adv c s, cl c = true -> forallb cl s = true ->
    re_scan fuel (alternatives keys) adv (Some c) s = map Lit s.
Proof.
  intros K O fuel. induction fuel as [|f IH]; intros adv c s C U; cbn [re_scan].
  - reflexivity.
  - destruct (alternatives keys adv (Some c) s) as [[g rest]|] eqn:B.
    + eapply build_whole in B; [|exact K|exact O|exact U]; destruct B as (_ & _ & X). congruence.
    + destruct s as [|x s]; [reflexivity|].
      cbn [forallb] in U. apply andb_true_iff in U as [Ux U].
      cbn [map]. f_equal. now apply IH.
Qed.

Lemma re_scan_end (keys : list str) (fuel : nat) (adv : bool) (prev : option char) :
  forallb key_ok keys = true ->
  re_scan fuel (alternatives keys) adv prev [] = [].
Proof.
  intro O. destruct fuel as [|f]; cbn [re_scan]; [reflexivity|].
  destruct (alternatives keys adv prev []) as [[g rest]|] eqn:B; [|reflexivity].
  apply alternatives_some in B as (t & I & -> & E & _).
  symmetry in E. apply app_eq_nil in E as [-> ->].
  rewrite forallb_forall in O. specialize (O [] I). discriminate.
Qed.

End ExactTokenFacts.

Lemma span_split (p : char -> bool) (s : str) : forall a b,
  span p s = (a, b) -> s = a ++ b.
Proof.
  induction s as [|c s IH]; intros a b E; cbn [span] in E.
  - now inversion E.
  - destruct (p c).
    + destruct (span p s) as [a0 b0]. inversion E; subst. cbn [app]. f_equal. now apply IH.
    + now inversion E.
Qed.

Lemma span_none (p : char -> bool) (s : str) :
  existsb p s = false -> span p s = ([], s).
Proof.
  destruct s as [|c s]; cbn [existsb span]; [reflexivity|].
  intro E. apply orb_false_iff in E as [-> _]. reflexivity.
Qed.

Lemma re_sub_none (m : matcher) (repl : list str -> str) (Q : str -> Prop) (s : str) :
  (forall adv prev s, Q s -> m adv prev s = None) ->
  (forall c s, Q (c :: s) -> Q s) ->
  Q s -> re_sub m repl s = s.
Proof.
  intros N T q. unfold re_sub, pieces. rewrite (re_scan_none m Q N T) by exact q.
  now apply flat_map_Lit.
Qed.

(** A text with no superscript in it goes through
    [replace_superscript_exponents] as it is. *)
Lemma superscript_free_unchanged (expr : str) :
  existsb is_superscript expr = false -> replace_superscript_exponents expr = expr.
Proof.
  intro F. unfold replace_superscript_exponents.
  assert (forall c s, existsb is_superscript (c :: s) = false ->
                      existsb is_superscript s = false) as T.
  { intros c s E. cbn [existsb] in E. now apply orb_false_iff in E. }
  rewrite (re_sub_none pattern_base repl_base (fun s => existsb is_superscript s = false)); auto.
  - apply (re_sub_none pattern_paren repl_paren (fun s => existsb is_superscript s = false)); auto.
    intros adv prev s E. unfold pattern_paren. destruct s as [|c r]; [reflexivity|].
    destruct (char_eqb c (ch ")")); [|reflexivity].
    rewrite span_none by now apply T in E. reflexivity.
  - intros adv prev s E. unfold pattern_base.
    destruct (span base_char s) as [base r] eqn:S. apply span_split in S. subst s.
    rewrite existsb_app in E. apply orb_false_iff in E as [_ E].
    rewrite (span_none _ _ E). cbn [is_nil]. now rewrite orb_true_r.
Qed.

Lemma mapping_get_filter (keep : str -> bool) (mapping : list (str * str)) (t : str) :
  keep t = true ->
  mapping_get (filter (fun kv => keep (fst kv)) mapping) t = mapping_get mapping t.
Proof.
  intro K. induction mapping as [|[k v] m IH]; cbn [filter mapping_get fst]; [reflexivity|].
  destruct (keep k) eqn:Kk; cbn [mapping_get].
  - now rewrite IH.
  - destruct (str_eqb k t) eqn:E; [|exact IH].
    apply str_eqb_eq in E. congruence.
Qed.

Lemma map_fst_filter (keep : str -> bool) (mapping : list (str * str)) :
  map fst (filter (fun kv => keep (fst kv)) mapping) = filter keep (map fst mapping).
Proof.
  induction mapping as [|[k v] m IH]; cbn [filter map fst]; [reflexivity|].
  destruct (keep k); cbn [map fst]; now rewrite IH.
Qed.

Lemma flat_map_ext_In {A B} (f g : A -> list B) (l : list A) :
  (forall x, In x l -> f x = g x) -> flat_map f l = flat_map g l.
Proof.
  induction l as [|x l IH]; intro E; cbn [flat_map]; [reflexivity|].
  rewrite (E x (or_introl eq_refl)), IH; [reflexivity|].
  intros y I. apply E. now right.
Qed.

Section FilteredPattern.
Context {H : Host}.
Variable keep : str -> bool.

Lemma build_filtered_none (keys : list str) (adv : bool) (prev : option char) (s : str) :
  alternatives keys adv prev s = None ->
  alternatives (filter keep keys) adv prev s = None.
Proof.
  induction keys as [|k ks IH]; cbn [filter alternatives]; [reflexivity|].
  destruct (boundary k adv prev s) eqn:B; [discriminate|]. intro E.
  destruct (keep k); cbn [alternatives]; [rewrite B|]; now apply IH.
Qed.

Lemma build_filtered_some (keys : list str) (adv : bool) (prev : option char) (s : str)
    (g : list str) (rest : str) :
  alternatives keys adv prev s = Some (g, rest) ->
  keep (concat g) = true ->
  alternatives (filter keep keys) adv prev s = Some (g, rest).
Proof.
  induction keys as [|k ks IH]; cbn [filter alternatives]; [discriminate|].
  destruct (boundary k adv prev s) as [[g0 r0]|] eqn:B.
  - intros E K. inversion E; subst. pose proof (boundary_some _ _ _ _ B) as (-> & _).
    cbn [concat] in K. rewrite app_nil_r in K. rewrite K.
    cbn [alternatives]. now rewrite B.
  - intros E K. destruct (keep k); cbn [alternatives]; [rewrite B|]; now apply IH.
Qed.

Lemma re_scan_filtered (keys : list str) (fuel : nat) : forall adv prev s,
  (forall g, In (Match g) (re_scan fuel (alternatives keys) adv prev s) ->
             keep (concat g) = true) ->
  re_scan fuel (alternatives (filter keep keys)) adv prev s
  = re_scan fuel (alternatives keys) adv prev s.
Proof.
  induction fuel as [|f IH]; intros adv prev s K; cbn [re_scan] in *; [reflexivity|].
  destruct (alternatives keys adv prev s) as [[g rest]|] eqn:B.
  - rewrite (build_filtered_some _ _ _ _ B) by (apply K; now left).
    f_equal. apply IH. intros g0 I. apply K. now right.
  - rewrite (build_filtered_none _ _ _ _ B).
    destruct s as [|c s]; [reflexivity|]. f_equal. apply IH.
    intros g0 I. apply K. now right.
Qed.

(** Leaving out of the substitution the keys that match nowhere in the text
    changes nothing. *)
Lemma replace_filtered (mapping : list (str * str)) (s : str) :
  (forall x, In x (match_exact_tokens s (map fst mapping)) -> keep x = true) ->
  replace_exact_tokens s (filter (fun kv => keep (fst kv)) mapping)
  = replace_exact_tokens s mapping.
Proof.
  intro K. destruct mapping as [|kv mapping]; [reflexivity|].
  set (full := kv :: mapping) in *.
  assert (forall g, In (Match g) (pieces (alternatives (map fst full)) s) ->
                    keep (concat g) = true) as KM.
  { intros g I. apply K. apply re_findall_In. exists g. split; [exact I | reflexivity]. }
  destruct (filter (fun kv => keep (fst kv)) full) as [|kv' rest] eqn:F.
  - rewrite replace_no_token. symmetry. apply re_sub_no_match.
    destruct (re_findall (build_token_pattern (map fst full)) s) as [|x l] eqn:M;
      [reflexivity|].
    assert (In x (match_exact_tokens s (map fst full))) as I
      by (unfold match_exact_tokens; rewrite M; now left).
    pose proof (K x I) as Kx.
    apply re_findall_In in I as (g & I & ->).
    apply (@re_scan_matches (alternatives (map fst full))
             (fun g => exists t, In t (map fst full) /\ g = [t])) in I.
    + destruct I as (t & T & ->). cbn [concat] in Kx. rewrite app_nil_r in Kx.
      apply in_map_iff in T as (p & <- & P).
      assert (In p (filter (fun kv => keep (fst kv)) full)) as X
        by (apply filter_In; auto).
      rewrite F in X. destruct X.
    + intros adv prev s0 g0 r0 B. apply alternatives_some in B as (t & T & -> & _). eauto.
  - assert (build_token_pattern (filter keep (map fst full))
            = alternatives (filter keep (map fst full))) as B.
    { rewrite <- map_fst_filter, F. reflexivity. }
    rewrite <- F. unfold replace_exact_tokens, re_sub. rewrite map_fst_filter, B.
    change (build_token_pattern (map fst full)) with (alternatives (map fst full)).
    unfold pieces. rewrite re_scan_filtered by exact KM.
    apply flat_map_ext_In. intros [c|g] I; [reflexivity|].
    apply mapping_get_filter. now apply KM.
Qed.

End FilteredPattern.

(** ** The text that the sanitizer returns *)

Lemma forallb_flat_map {A B} (P : B -> bool) (f : A -> list B) (l : list A) :
  forallb P (flat_map f l) = forallb (fun x => forallb P (f x)) l.
Proof.
  induction l as [|x l IH]; cbn [flat_map forallb]; [reflexivity|].
  now rewrite forallb_app, IH.
Qed.

Lemma forallb_concat_nth (P : char -> bool) (g : list str) (k : nat) :
  forallb P (concat g) = true -> forallb P (nth k g []) = true.
Proof.
  revert k. induction g as [|x g IH]; intros k F; cbn [concat] in F.
  - destruct k; reflexivity.
  - rewrite forallb_app in F. apply andb_true_iff in F as [Fx Fg].
    destruct k; cbn [nth]; [exact Fx | now apply IH].
Qed.

(** A substitution whose replacements are made of the characters matched
    and of characters that satisfy [P] keeps a text within [P]. *)
Lemma re_sub_forall (P : char -> bool) (m : matcher) (repl : list str -> str) (s : str) :
  consumes m ->
  (forall g, forallb P (concat g) = true -> forallb P (repl g) = true) ->
  forallb P s = true -> forallb P (re_sub m repl s) = true.
Proof.
  intros C R F. unfold re_sub, pieces.
  pose proof (re_scan_source C (2 * S (length s)) false None s) as E.
  rewrite <- E, forallb_flat_map in F. rewrite forallb_flat_map.
  rewrite forallb_forall in *. intros [c|g] I; specialize (F _ I); cbn [source] in F.
  - exact F.
  - now apply R.
Qed.

Lemma span_forall (p : char -> bool) (s : str) : forall a b,
  span p s = (a, b) -> forallb p a = true.
Proof.
  induction s as [|c s IH]; intros a b E; cbn [span] in E.
  - now inversion E.
  - destruct (p c) eqn:Pc.
    + destruct (span p s) as [a0 b0]. inversion E; subst. cbn [forallb].
      rewrite Pc. eapply IH; reflexivity.
    + now inversion E.
Qed.

Lemma span_stop (p : char -> bool) (s : str) : forall a b,
  span p s = (a, b) -> match b with c :: _ => p c = false | [] => True end.
Proof.
  induction s as [|c s IH]; intros a b E; cbn [span] in E.
  - inversion E. exact I.
  - destruct (p c) eqn:Pc.
    + destruct (span p s) as [a0 b0]. inversion E; subst. eapply IH; reflexivity.
    + inversion E; subst. exact Pc.
Qed.

Lemma find_none_forallb {A} (p : A -> bool) (l : list A) :
  find (fun x => negb (p x)) l = None -> forallb p l = true.
Proof.
  intro F. apply forallb_forall. intros x I.
  apply (find_none _ _ F) in I. now apply negb_false_iff in I.
Qed.

Section SanitizedText.
Context {H : Host}.

Lemma re_d_paren : re_d (ch "(") = false.
Proof. reflexivity. Qed.

Lemma re_d_star : re_d (ch "*") = false.
Proof. reflexivity. Qed.

(** What [pattern_number_paren] matches: a number that starts with a digit
    and holds digits and points only, then the parenthesis. *)
Lemma pattern_number_paren_some (adv : bool) (prev : option char) (s : str) (g : list str)
    (rest : str) :
  pattern_number_paren adv prev s = Some (g, rest) ->
  exists c num, g = [c :: num; [ch "("]] /\ s = (c :: num) ++ ch "(" :: rest
                /\ re_d c = true
                /\ forallb (fun x => re_d x || char_eqb x (ch ".")) (c :: num) = true.
Proof.
  unfold pattern_number_paren.
  destruct (span re_d s) as [d1 r] eqn:S1.
  pose proof (span_split _ _ S1) as E1. pose proof (span_forall _ _ S1) as F1.
  destruct d1 as [|c d1]; cbn [is_nil]; [discriminate|].
  destruct r as [|x r1]; [discriminate|].
  assert (forallb (fun x => re_d x || char_eqb x (ch ".")) (c :: d1) = true) as G1.
  { rewrite forallb_forall in *. intros y I. now rewrite (F1 y I). }
  cbn [forallb] in F1. apply andb_true_iff in F1 as [Fc F1].
  destruct (char_eqb x (ch "(")) eqn:X.
  - intro E. inversion E; subst. apply N.eqb_eq in X. subst x.
    exists c, d1. auto.
  - destruct (char_eqb x (ch ".")) eqn:D; [|discriminate].
    destruct (span re_d r1) as [d2 r2] eqn:S2.
    pose proof (span_split _ _ S2) as E2. pose proof (span_forall _ _ S2) as F2.
    destruct (is_nil d2); [discriminate|].
    destruct r2 as [|y r3]; [discriminate|].
    destruct (char_eqb y (ch "(")) eqn:Y; [|discriminate].
    intro E. inversion E; subst. apply N.eqb_eq in Y. subst y.
    exists c, (d1 ++ x :: d2). repeat split.
    + cbn [app]. now rewrite <- app_assoc.
    + exact Fc.
    + change (c :: d1 ++ x :: d2) with ((c :: d1) ++ x :: d2).
      rewrite forallb_app, G1. cbn [forallb andb]. rewrite D, orb_true_r. cbn [andb].
      rewrite forallb_forall in *. intros z I. now rewrite (F2 z I).
Qed.

Lemma pattern_number_paren_consumes : consumes pattern_number_paren.
Proof.
  intros adv prev s g rest E.
  apply pattern_number_paren_some in E as (c & num & -> & -> & _).
  cbn [concat]. rewrite app_nil_r, <- app_assoc. reflexivity.
Qed.

(** A digit straight before a parenthesis is where the pattern matches. *)
Lemma pattern_number_paren_at (adv : bool) (prev : option char) (c : char) (r : str) :
  re_d c = true -> pattern_number_paren adv prev (c :: ch "(" :: r) <> None.
Proof.
  intro D. unfold pattern_number_paren. cbn [span]. rewrite D, re_d_paren.
  cbn [is_nil]. discriminate.
Qed.

End SanitizedText.

(** ** Exact tokens: what is matched, and what is put in their place *)

Section ExactTokenLemmas.
Context {H : Host}.

Lemma matches_listed (string : str) (tokenlist : list str) (x : str) :
  tokenlist <> [] -> In x (match_exact_tokens string tokenlist) -> In x tokenlist.
Proof.
  unfold match_exact_tokens. intros N I. apply re_findall_In in I as (g & I & ->).
  assert (exists t, In t tokenlist /\ g = [t]) as (t & T & ->).
  { unfold pieces in I.
    refine (@re_scan_matches (build_token_pattern tokenlist)
              (fun g => exists t, In t tokenlist /\ g = [t]) _ _ _ _ _ _ I).
    intros adv prev s g0 rest B.
    apply build_token_pattern_some in B as (t & T & -> & _); eauto. }
  cbn [concat]. now rewrite app_nil_r.
Qed.

End ExactTokenLemmas.

Section ExactTokenTheorems.
Context {H : Host}.

(** X2. With at least one token listed, every match that
    [match_exact_tokens] returns is one of the listed tokens, and occurs in
    the text.  With no token listed, the pattern is the empty one, and the
    matches are the empty texts found before every character and at the
    end. *)
Theorem matched_tokens_listed (string : str) (tokenlist : list str) :
  (tokenlist <> [] ->
   forall x, In x (match_exact_tokens string tokenlist) ->
             In x tokenlist /\ substring_in x string = true)
  /\ match_exact_tokens string [] = repeat [] (S (length string)).
Proof.
  split; [|apply match_no_token].
  intros N x. unfold match_exact_tokens. intro I.
  apply re_findall_In in I as (g & I & ->).
  assert (exists t, In t tokenlist /\ g = [t]) as (t & T & ->).
  { unfold pieces in I.
    refine (@re_scan_matches (build_token_pattern tokenlist)
              (fun g => exists t, In t tokenlist /\ g = [t]) _ _ _ _ _ _ I).
    intros adv prev s g0 rest B.
    apply build_token_pattern_some in B as (t & T & -> & _); eauto. }
  cbn [concat]. rewrite app_nil_r. split; [exact T|].
  destruct (In_flat_map_split source _ _ I) as (a & b & E).
  unfold pieces in E. rewrite re_scan_source in E by apply build_token_pattern_consumes.
  rewrite E. cbn [source concat]. rewrite app_nil_r. apply substring_in_middle.
Qed.

(** X3. On a text that is one token (a name of ASCII letters, or digits and
    points), with keys as the sanitizer yields them, [replace_exact_tokens]
    is [tokens_mapping.get(text, text)]: the text is replaced as a whole when
    it is a key, and left as it is otherwise; a key never rewrites a part of
    a longer token. *)
Theorem whole_token_substitution (tokens_mapping : list (str * str)) (s : str) :
  forallb key_ok (map fst tokens_mapping) = true ->
  forallb ascii_alpha s = true \/ forallb digit_or_point s = true ->
  replace_exact_tokens s tokens_mapping = mapping_get tokens_mapping s.
Proof.
  intros O U.
  assert (exists cl, one_kind cl /\ forallb cl s = true) as (cl & K & Us).
  { destruct U as [U|U]; [exists ascii_alpha | exists digit_or_point]; split; auto;
      [now left | now right]. }
  clear U. destruct tokens_mapping as [|kv mapping]; [apply replace_no_token|].
  set (tokens_mapping := kv :: mapping) in *.
  unfold replace_exact_tokens, re_sub, pieces.
  change (build_token_pattern (map fst tokens_mapping))
    with (alternatives (map fst tokens_mapping)).
  change (2 * S (length s)) with (S (length s + S (length s + 0))).
  cbn [re_scan].
  destruct (alternatives (map fst tokens_mapping) false None s) as [[g rest]|] eqn:B.
  - eapply build_whole in B; [|exact K|exact O|exact Us]. destruct B as (-> & -> & _).
    rewrite re_scan_end by exact O. cbn [flat_map concat]. now rewrite !app_nil_r.
  - rewrite mapping_get_absent.
    + destruct s as [|c s]; [reflexivity|].
      cbn [forallb] in Us. apply andb_true_iff in Us as [Uc Us].
      erewrite re_scan_inside by eassumption.
      cbn [flat_map app]. f_equal. now apply flat_map_Lit.
    + intro I. eapply build_finds in I; eauto.
Qed.

(** X4. The formatting that opens [sanatize_expression] is the plain
    composition of its three rewrites: blanks removed, superscripts
    rewritten, the three irrational glyphs replaced by their values.  The
    tests that guard the rewrites (is there a superscript, did a glyph match,
    which glyphs matched) change nothing in the result. *)
Theorem format_symbols_composition (expression : str) :
  format_symbols expression
  = replace_exact_tokens
      (replace_superscript_exponents (replace_char (ch " ") [] expression))
      (map (fun v => (unicode v, value v)) IRRATIONALS).
Proof.
  unfold format_symbols.
  set (e1 := replace_char (ch " ") [] expression).
  assert ((if existsb is_superscript e1 then replace_superscript_exponents e1 else e1)
          = replace_superscript_exponents e1) as ->.
  { destruct (existsb is_superscript e1) eqn:S; [reflexivity|].
    symmetry. now apply superscript_free_unchanged. }
  set (e2 := replace_superscript_exponents e1).
  set (mached := match_exact_tokens e2 (map unicode IRRATIONALS)).
  destruct (existsb (fun m => negb (is_nil m)) mached) eqn:A.
  - transitivity (replace_exact_tokens e2
                    (filter (fun kv => str_in (fst kv) mached)
                            (map (fun v => (unicode v, value v)) IRRATIONALS))).
    + f_equal. cbn [IRRATIONALS filter map unicode value fst].
      destruct (str_in (py "π") mached), (str_in (py "𝑒") mached),
               (str_in (py "φ") mached); reflexivity.
    + apply (replace_filtered (fun k => str_in k mached)).
      intros x I. now apply str_in_In.
  - symmetry. apply re_sub_no_match.
    change (map fst (map (fun v => (unicode v, value v)) IRRATIONALS))
      with (map unicode IRRATIONALS).
    fold (match_exact_tokens e2 (map unicode IRRATIONALS)). fold mached.
    destruct mached as [|x l] eqn:M; [reflexivity|].
    assert (In x (match_exact_tokens e2 (map unicode IRRATIONALS))) as I
      by (fold mached; rewrite M; now left).
    apply matches_listed in I; [|discriminate].
    cbn [existsb] in A. apply orb_false_iff in A as [A _].
    destruct I as [<-|[<-|[<-|[]]]]; discriminate A.
Qed.

End ExactTokenTheorems.

Section SanitizedTextTheorems.
Context {H : Host}.

Lemma digit_then_paren_number (num tail : str) :
  forallb (fun x => re_d x || char_eqb x (ch ".")) num = true ->
  starts_with (ch "(") tail = false ->
  digit_then_paren (num ++ tail) = digit_then_paren tail.
Proof.
  intros F T. induction num as [|c num IH]; cbn [app]; [reflexivity|].
  cbn [forallb] in F. apply andb_true_iff in F as [Fc F].
  cbn [digit_then_paren]. rewrite (IH F).
  assert (starts_with (ch "(") (num ++ tail) = false) as ->.
  { destruct num as [|x num]; [exact T|]. cbn [app starts_with].
    cbn [forallb] in F. apply andb_true_iff in F as [Fx _].
    destruct (char_eqb x (ch "(")) eqn:X; [|reflexivity].
    apply N.eqb_eq in X. subst x. rewrite re_d_paren in Fx. discriminate Fx. }
  now rewrite andb_false_r.
Qed.

(** The text that comes out of the last rewrite of the sanitizer: no digit
    stands before a parenthesis, and a parenthesis at its head was at the
    head of the text that went in. *)
Lemma number_paren_scan (fuel : nat) : forall adv prev s,
  length s < fuel ->
  let o := flat_map (fun p => match p with
                              | Lit c => [c]
                              | Match g => group 1 g ++ py "*" ++ group 2 g
                              end)
                    (re_scan fuel pattern_number_paren adv prev s) in
  digit_then_paren o = false
  /\ (starts_with (ch "(") o = true -> starts_with (ch "(") s = true).
Proof.
  induction fuel as [|f IH]; intros adv prev s L; [lia|].
  cbn [re_scan].
  destruct (pattern_number_paren adv prev s) as [[g rest]|] eqn:M.
  - destruct (pattern_number_paren_some _ _ _ M) as (c & num & -> & -> & D & F).
    assert (length rest < f) as L'.
    { rewrite length_app in L. cbn [length] in L. lia. }
    destruct (IH (is_nil (concat [c :: num; [ch "("]]))
                 (last_char (concat [c :: num; [ch "("]]) prev) rest L') as [IH1 _].
    cbn zeta. cbn [flat_map].
    match goal with |- context [flat_map ?f ?l] => set (o' := flat_map f l) in * end.
    change (group 1 [c :: num; [ch "("]]) with (c :: num).
    change (group 2 [c :: num; [ch "("]]) with [ch "("].
    rewrite <- app_assoc.
    change ((py "*" ++ [ch "("]) ++ o') with (ch "*" :: ch "(" :: o').
    split.
    + rewrite (@digit_then_paren_number (c :: num) (ch "*" :: ch "(" :: o') F eq_refl).
      cbn [digit_then_paren].
      change (re_d (ch "*")) with false. change (re_d (ch "(")) with false.
      exact IH1.
    + cbn [app starts_with]. intro X. apply N.eqb_eq in X. subst c.
      rewrite re_d_paren in D. discriminate.
  - destruct s as [|c s]; [split; [reflexivity | intro X; exact X]|].
    cbn [length] in L. assert (length s < f) as L' by lia.
    destruct (IH false (Some c) s L') as [IH1 IH2].
    cbn zeta. cbn [flat_map app digit_then_paren]. split.
    + rewrite IH1, orb_false_r.
      destruct (re_d c) eqn:D; [|reflexivity]. cbn [andb].
      match goal with |- starts_with _ ?o = false => destruct (starts_with (ch "(") o) eqn:X end;
        [|reflexivity].
      specialize (IH2 eq_refl). destruct s as [|x s]; [discriminate|].
      cbn [starts_with] in IH2. apply N.eqb_eq in IH2. subst x.
      exfalso. exact (@pattern_number_paren_at H adv prev c s D M).
    + intro X. exact X.
Qed.

(** X5. The text that [sanatize_expression] returns holds authorized
    characters only. *)
Theorem sanatized_text_authorized (implicit : bool) (expression : str)
    (el : elements) (t : str) :
  sanatize_expression implicit expression = (el, inl t) ->
  forallb (fun c => char_in c authorized_symbols) t = true.
Proof.
  unfold sanatize_expression.
  destruct (if implicit then _ else _) as [el0 [err|]]; [discriminate|].
  destruct (find _ _) eqn:F; [discriminate|]. intro E. inversion E; subst.
  apply re_sub_forall.
  - apply pattern_number_paren_consumes.
  - intros g G. unfold group. rewrite forallb_app. cbn [forallb].
    rewrite !forallb_concat_nth by exact G. reflexivity.
  - now apply find_none_forallb.
Qed.

(** X6. In the text that [sanatize_expression] returns no digit stands
    straight before an opening parenthesis: the multiplication sign has been
    put in at every such place. *)
Theorem sanatized_text_multiplies (implicit : bool) (expression : str)
    (el : elements) (t : str) :
  sanatize_expression implicit expression = (el, inl t) ->
  digit_then_paren t = false.
Proof.
  intro E. apply sanatize_text in E. subst t.
  unfold re_sub, pieces. apply number_paren_scan. lia.
Qed.

End SanitizedTextTheorems.

(** ** The classes of the sanitizer *)

Lemma set_add_In (e x : str) (s : list str) : In x (set_add e s) <-> x = e \/ In x s.
Proof.
  unfold set_add. destruct (str_in e s) eqn:E.
  - apply str_in_In in E. split; [auto | intros [->|I]; assumption].
  - rewrite in_app_iff. cbn [In]. intuition congruence.
Qed.

Section Classification.
Context {H : Host}.

(** What the loop of [case False] has put into the sets when it ends without
    a failure. *)
Lemma sort_explicit_sets (todo : list str) : forall el el',
  sort_explicit todo el = (el', None) ->
  elemTotal el' = elemTotal el /\ elemCmplx el' = elemCmplx el
  /\ (forall x, In x (elemFct el') <->
        In x (elemFct el) \/ (In x todo /\ str_in x funct_namespace = true))
  /\ (forall x, In x (elemConst el') <->
        In x (elemConst el)
        \/ (In x todo /\ str_in x funct_namespace = false
            /\ isdigit (replace_char (ch ".") [] x) = true))
  /\ (forall x, In x (elemVar el') <->
        In x (elemVar el)
        \/ (In x todo /\ str_in x funct_namespace = false
            /\ isdigit (replace_char (ch ".") [] x) = false /\ isalpha x = true))
  /\ (forall x, In x todo -> classifiable x = true).
Proof.
  induction todo as [|e todo IH]; intros el el' E; cbn [sort_explicit] in E.
  - inversion E; subst. cbn [In]. repeat split; tauto.
  - assert (forall F D A : bool,
              str_in e funct_namespace = F ->
              isdigit (replace_char (ch ".") [] e) = D -> isalpha e = A ->
              F || D || A = true -> classifiable e = true) as CE
      by (intros F D A <- <- <-; exact (fun X => X)).
    destruct (str_in e funct_namespace) eqn:F;
      [|destruct (isdigit (replace_char (ch ".") [] e)) eqn:D;
        [|destruct (isalpha e) eqn:A; [|discriminate]]];
      apply IH in E as (T & C & EF & EC & EV & CL);
      cbn [add_fct add_const add_var elemTotal elemCmplx elemFct elemConst elemVar] in *;
      (split; [exact T|]); (split; [exact C|]); (split; [|split; [|split]]).
    all: try (intros x [<-|I]; [eapply CE; eauto | now apply CL]).
    all: intro x; first [rewrite EF | rewrite EC | rewrite EV];
         rewrite ?set_add_In; cbn [In]; intuition (subst; congruence).
Qed.

End Classification.

Lemma replace_char_chars (sep : char) (r s : str) (x : char) :
  In x (replace_char sep r s) -> In x r \/ (In x s /\ char_eqb x sep = false).
Proof.
  unfold replace_char. rewrite in_flat_map. intros (c & I & X).
  destruct (char_eqb c sep) eqn:E; [now left|].
  destruct X as [<-|[]]. right. split; assumption.
Qed.

Lemma fold_replace_chars (seps : str) (x : char) : forall s,
  In x (fold_left (fun acc c => replace_char c (py "|") acc) seps s) ->
  x = ch "|" \/ (In x s /\ char_in x seps = false).
Proof.
  induction seps as [|d seps IH]; intros s I; cbn [fold_left] in I.
  - right. split; [exact I | reflexivity].
  - apply IH in I as [->|[I N]]; [now left|].
    apply replace_char_chars in I as [I|[I E]].
    + left. destruct I as [<-|[]]. reflexivity.
    + right. split; [exact I|]. cbn [char_in existsb]. rewrite E. exact N.
Qed.

Lemma split_on_chars (sep : char) (s : str) : forall cur piece x,
  In piece (split_on sep cur s) -> In x piece ->
  (In x cur \/ In x s) /\ char_eqb x sep = false \/ In x cur.
Proof.
  induction s as [|c s IH]; intros cur piece x P X; cbn [split_on] in P.
  - destruct P as [<-|[]]. right. now apply in_rev.
  - destruct (char_eqb c sep) eqn:E.
    + destruct P as [<-|P]; [right; now apply in_rev|].
      destruct (IH _ _ _ P X) as [[[[]|I] N]|[]]. left. split; [right; now right | exact N].
    + destruct (IH _ _ _ P X) as [[[I|I] N]|I].
      * destruct I as [<-|I]; [left; split; [right; now left | exact E]|].
        left. split; [now left | exact N].
      * left. split; [right; now right | exact N].
      * destruct I as [<-|I]; [left; split; [right; now left | exact E] | now right].
Qed.

Lemma set_of_In (l : list str) (x : str) : In x (set_of l) <-> In x l.
Proof.
  unfold set_of.
  assert (forall acc, In x (fold_left (fun s e => set_add e s) l acc) <-> In x acc \/ In x l) as G.
  { induction l as [|e l IH]; intro acc; cbn [fold_left In]; [tauto|].
    rewrite IH, set_add_In. intuition congruence. }
  rewrite G. cbn [In]. tauto.
Qed.

(** A token holds characters of the text only, none of them a separator,
    and at least one. *)
Lemma gather_elements_chars (expression x : str) :
  In x (gather_elements expression) ->
  x <> [] /\ forall c, In c x -> In c expression /\ char_in c (operand ++ py ",()") = false.
Proof.
  unfold gather_elements. rewrite set_of_In, filter_In.
  intros [P NE]. split; [now destruct x|].
  intros c C. unfold split in P.
  destruct (split_on_chars _ _ _ _ _ P C) as [[[[]|I] N]|[]].
  apply fold_replace_chars in I as [->|I]; [discriminate N | exact I].
Qed.

Lemma replace_char_keeps (sep : char) (r s : str) (x : char) :
  In x s -> char_eqb x sep = false -> In x (replace_char sep r s).
Proof.
  intros I E. unfold replace_char. apply in_flat_map. exists x.
  split; [exact I|]. rewrite E. now left.
Qed.

Lemma authorized_ascii (c : char) :
  char_in c authorized_symbols = true -> is_ascii c = true.
Proof.
  unfold char_in. rewrite existsb_exists. intros (y & I & E).
  apply N.eqb_eq in E. subst y.
  assert (forallb is_ascii authorized_symbols = true) as F by reflexivity.
  rewrite forallb_forall in F. now apply F.
Qed.

Lemma char_in_In (c : char) (s : str) : char_in c s = true <-> In c s.
Proof.
  unfold char_in. rewrite existsb_exists. split.
  - intros (y & I & E). apply N.eqb_eq in E. now subst.
  - intro I. exists c. split; [exact I | apply N.eqb_refl].
Qed.

Section ClassTheorems.
Context {H : Host}.

Lemma sanatize_explicit_success (expression : str) (el : elements) (t : str) :
  sanatize_expression false expression = (el, inl t) ->
  sort_explicit (set_iter (gather_elements (format_symbols expression)))
    {| elemTotal := gather_elements (format_symbols expression); elemFct := [];
       elemConst := []; elemVar := []; elemCmplx := [] |} = (el, None)
  /\ forallb (fun c => char_in c authorized_symbols) (format_symbols expression) = true.
Proof.
  unfold sanatize_expression.
  destruct (sort_explicit _ _) as [el0 [err|]]; [discriminate|].
  destruct (find _ _) eqn:F; [discriminate|]. intro E. inversion E; subst.
  split; [reflexivity | now apply find_none_forallb].
Qed.

(** X7. With implicit multiplication off, an accepted text has each of its
    tokens in exactly one of three sets: the registry names among the
    functions; of the others, those that are digits once the points are
    taken out among the constants; of the rest, the alphabetic ones among
    the variables.  Nothing else is in these sets, and no composite is
    recorded. *)
Theorem token_classes (expression : str) (el : elements) (t : str) :
  sanatize_expression false expression = (el, inl t) ->
  elemTotal el = gather_elements (format_symbols expression)
  /\ elemCmplx el = []
  /\ (forall x, In x (elemFct el) <-> In x (elemTotal el) /\ In x funct_namespace)
  /\ (forall x, In x (elemConst el) <->
        In x (elemTotal el) /\ ~ In x funct_namespace
        /\ isdigit (replace_char (ch ".") [] x) = true)
  /\ (forall x, In x (elemVar el) <->
        In x (elemTotal el) /\ ~ In x funct_namespace
        /\ isdigit (replace_char (ch ".") [] x) = false /\ isalpha x = true)
  /\ (forall x, In x (elemTotal el) ->
        In x (elemFct el) \/ In x (elemConst el) \/ In x (elemVar el)).
Proof.
  intro E. apply sanatize_explicit_success in E as [E _].
  apply sort_explicit_sets in E as (T & C & EF & EC & EV & CL).
  cbn [elemTotal elemCmplx elemFct elemConst elemVar] in *.
  assert (forall x, str_in x funct_namespace = false <-> ~ In x funct_namespace) as N.
  { intro x. rewrite <- str_in_In. now destruct (str_in x funct_namespace). }
  split; [exact T|]. split; [exact C|]. rewrite T.
  split; [|split; [|split]].
  - intro x. rewrite EF, set_iter_In, str_in_In. cbn [In]. tauto.
  - intro x. rewrite EC, set_iter_In, N. cbn [In]. tauto.
  - intro x. rewrite EV, set_iter_In, N. cbn [In]. tauto.
  - intros x I. rewrite EF, EC, EV. rewrite !set_iter_In.
    specialize (CL x (proj2 (set_iter_In _ _) I)). unfold classifiable in CL.
    destruct (str_in x funct_namespace); [tauto|].
    destruct (isdigit (replace_char (ch ".") [] x)); [tauto|].
    cbn [orb] in CL. tauto.
Qed.

(** The shapes of the variables and constants of an accepted text. *)
Lemma explicit_shapes (expression : str) (el : elements) (t : str) :
  sanatize_expression false expression = (el, inl t) ->
  (forall x, In x (elemVar el) ->
     x <> [] /\ forallb ascii_alpha x = true /\ ~ In x funct_namespace)
  /\ (forall x, In x (elemConst el) ->
        forallb digit_or_point x = true /\ existsb ascii_digit x = true).
Proof.
  intro E. apply sanatize_explicit_success in E as [S A].
  apply sort_explicit_sets in S as (T & _ & _ & EC & EV & _).
  cbn [elemTotal elemConst elemVar] in *.
  assert (forall x c, In x (set_iter (gather_elements (format_symbols expression))) ->
                      In c x -> is_ascii c = true) as ASCII.
  { intros x c I C. apply -> set_iter_In in I.
    apply gather_elements_chars in I as [_ I]. destruct (I c C) as [I' _].
    rewrite forallb_forall in A. apply authorized_ascii. now apply A. }
  split; intros x I.
  - apply EV in I as [[]|(I & F & _ & L)].
    split; [|split].
    + intros ->. discriminate L.
    + apply forallb_forall. intros c C.
      unfold isalpha in L. destruct x as [|x0 x']; [destruct C|].
      rewrite forallb_forall in L. specialize (L c C).
      unfold isalpha_char in L. now rewrite (ASCII _ _ I C) in L.
    + rewrite <- str_in_In. now rewrite F.
  - apply EC in I as [[]|(I & _ & D)].
    unfold isdigit in D.
    destruct (replace_char (ch ".") [] x) as [|d r] eqn:R; [discriminate|].
    rewrite <- R in D. rewrite forallb_forall in D.
    assert (forall c, In c x -> char_eqb c (ch ".") = false -> ascii_digit c = true) as G.
    { intros c C P. specialize (D c (@replace_char_keeps (ch ".") [] x c C P)).
      unfold isdigit_char in D. now rewrite (ASCII _ _ I C) in D. }
    split.
    + apply forallb_forall. intros c C. unfold digit_or_point.
      destruct (char_eqb c (ch ".")) eqn:P; [apply orb_true_r|].
      now rewrite (G c C P).
    + apply existsb_exists. exists d.
      assert (In d (replace_char (ch ".") [] x)) as Id by (rewrite R; now left).
      apply replace_char_chars in Id as [[]|[Id P]]. split; [exact Id | now apply G].
Qed.

(** X8. With implicit multiplication off, every variable of an accepted
    text is a non-empty name of ASCII letters that the registry does not
    hold, and every constant is made of ASCII digits and points, with at least
    one digit. *)
Theorem variable_and_constant_shapes (expression : str) (el : elements) (t : str) :
  sanatize_expression false expression = (el, inl t) ->
  (forall x, In x (elemVar el) ->
     x <> [] /\ forallb ascii_alpha x = true /\ ~ In x funct_namespace)
  /\ (forall x, In x (elemConst el) ->
        forallb digit_or_point x = true /\ existsb ascii_digit x = true).
Proof. apply explicit_shapes. Qed.

End ClassTheorems.

(** ** Lowering: operands, called names, a second visit *)

Lemma visit_Name_inv (e : expr) (used : list str) (id : str) (used' : list str) :
  visit e used = Some (Name id, used') -> e = Name id.
Proof.
  destruct e as [i|v|l op r|op e|f args|elts].
  - intro E. now inversion E.
  - intro E. inversion E.
  - cbn [visit]. destruct (visit l used) as [[l1 u1]|]; [|discriminate].
    destruct (visit r u1) as [[r1 u2]|]; [|discriminate].
    destruct (func_name op); discriminate.
  - cbn [visit]. destruct (visit e used) as [[e1 u1]|]; discriminate.
  - rewrite visit_Call. destruct (visit f _) as [[f1 u1]|]; [|discriminate].
    destruct (visit_list args u1) as [[a1 u2]|]; discriminate.
  - rewrite visit_Tuple. destruct (visit_list elts used) as [[e1 u1]|]; discriminate.
Qed.

Lemma visit_list_operands (l : list expr) :
  Forall (fun e => forall used e' used',
                     visit e used = Some (e', used') -> operands e' = operands e) l ->
  forall used l' used',
    visit_list l used = Some (l', used') -> flat_map operands l' = flat_map operands l.
Proof.
  induction 1 as [|e l He Hl IH]; intros used l' used' V; cbn [visit_list] in V.
  - now inversion V.
  - destruct (visit e used) as [[e1 u1]|] eqn:V1; [|discriminate].
    destruct (visit_list l u1) as [[l1 u2]|] eqn:V2; [|discriminate].
    inversion V; subst. cbn [flat_map]. now rewrite (He _ _ _ V1), (IH _ _ _ V2).
Qed.

(** X9. The lowering keeps the operands of an expression, in their order:
    the names and constants of the lowered tree, read from left to right, are
    those of the tree that was parsed. *)
Theorem lowering_keeps_operands (e : expr) : forall used e' used',
  visit e used = Some (e', used') -> operands e' = operands e.
Proof.
  induction e as [id|v|l op r IHl IHr|op e IH|f args IHf IHargs|elts IH]
    using expr_rect_nested; intros used e' used' V.
  - now inversion V.
  - now inversion V.
  - cbn [visit] in V.
    destruct (visit l used) as [[l1 u1]|] eqn:V1; [|discriminate].
    destruct (visit r u1) as [[r1 u2]|] eqn:V2; [|discriminate].
    destruct (func_name op); inversion V; subst.
    cbn [operands flat_map app]. rewrite app_nil_r.
    now rewrite (IHl _ _ _ V1), (IHr _ _ _ V2).
  - cbn [visit] in V.
    destruct (visit e used) as [[e1 u1]|] eqn:V1; inversion V; subst.
    cbn [operands]. eapply IH; eassumption.
  - rewrite visit_Call in V.
    destruct (visit f _) as [[f1 u1]|] eqn:V1; [|discriminate].
    destruct (visit_list args u1) as [[a1 u2]|] eqn:V2; inversion V; subst.
    cbn [operands]. rewrite (visit_list_operands IHargs _ V2). f_equal.
    destruct f as [i| | | | |]; [inversion V1; reflexivity | ..].
    all: pose proof (IHf _ _ _ V1) as Ef;
      destruct f1 as [i| | | | |];
      [apply visit_Name_inv in V1; discriminate V1 | ..]; exact Ef.
  - rewrite visit_Tuple in V.
    destruct (visit_list elts used) as [[e1 u1]|] eqn:V1; inversion V; subst.
    cbn [operands]. exact (visit_list_operands IH _ V1).
Qed.

Lemma visit_list_called (l : list expr) :
  Forall (fun e => forall used e' used',
                     visit e used = Some (e', used') ->
                     forall f, In f used' <-> In f used \/ In f (called e')) l ->
  forall used l' used',
    visit_list l used = Some (l', used') ->
    forall f, In f used' <-> In f used \/ In f (flat_map called l').
Proof.
  induction 1 as [|e l He Hl IH]; intros used l' used' V f; cbn [visit_list] in V.
  - inversion V; subst. cbn [flat_map In]. tauto.
  - destruct (visit e used) as [[e1 u1]|] eqn:V1; [|discriminate].
    destruct (visit_list l u1) as [[l1 u2]|] eqn:V2; [|discriminate].
    inversion V; subst. cbn [flat_map]. rewrite in_app_iff.
    rewrite (IH _ _ _ V2), (He _ _ _ V1). tauto.
Qed.

(** [functions_used] after a visit: what it held before, and the names that
    the lowered tree calls. *)
Lemma visit_called (e : expr) : forall used e' used',
  visit e used = Some (e', used') ->
  forall f, In f used' <-> In f used \/ In f (called e').
Proof.
  induction e as [id|v|l op r IHl IHr|op e IH|fn args IHf IHargs|elts IH]
    using expr_rect_nested; intros used e' used' V f.
  - inversion V; subst. cbn [called In]. tauto.
  - inversion V; subst. cbn [called In]. tauto.
  - cbn [visit] in V.
    destruct (visit l used) as [[l1 u1]|] eqn:V1; [|discriminate].
    destruct (visit r u1) as [[r1 u2]|] eqn:V2; [|discriminate].
    destruct (func_name op) as [g|]; inversion V; subst.
    cbn [called flat_map app In]. rewrite app_nil_r, in_app_iff, set_add_In.
    rewrite (IHr _ _ _ V2), (IHl _ _ _ V1). intuition congruence.
  - cbn [visit] in V.
    destruct (visit e used) as [[e1 u1]|] eqn:V1; inversion V; subst.
    cbn [called]. eapply IH; eassumption.
  - rewrite visit_Call in V.
    destruct (visit fn _) as [[f1 u1]|] eqn:V1; [|discriminate].
    destruct (visit_list args u1) as [[a1 u2]|] eqn:V2; inversion V; subst.
    cbn [called]. rewrite in_app_iff, (visit_list_called IHargs _ V2).
    destruct fn as [i| | | | |];
      [inversion V1; subst; cbn [In]; rewrite set_add_In; intuition congruence | ..].
    all: rewrite (IHf _ _ _ V1);
      destruct f1 as [i| | | | |];
      [apply visit_Name_inv in V1; discriminate V1 | ..]; tauto.
  - rewrite visit_Tuple in V.
    destruct (visit_list elts used) as [[e1 u1]|] eqn:V1; inversion V; subst.
    cbn [called]. exact (visit_list_called IH _ V1 f).
Qed.

Lemma visit_list_again (l : list expr) :
  Forall (fun e => no_BinOp e = true ->
                   forall used, exists used', visit e used = Some (e, used')) l ->
  forallb no_BinOp l = true ->
  forall used, exists used', visit_list l used = Some (l, used').
Proof.
  induction 1 as [|e l He Hl IH]; intros N used; cbn [visit_list].
  - eauto.
  - cbn [forallb] in N. apply andb_true_iff in N as [Ne Nl].
    destruct (He Ne used) as [u1 ->]. destruct (IH Nl u1) as [u2 ->]. eauto.
Qed.

(** A tree with no binary operator in it comes out of the visit as it went
    in. *)
Lemma visit_again (e : expr) :
  no_BinOp e = true -> forall used, exists used', visit e used = Some (e, used').
Proof.
  induction e as [id|v|l op r IHl IHr|op e IH|fn args IHf IHargs|elts IH]
    using expr_rect_nested; intros N used.
  - cbn [visit]. eauto.
  - cbn [visit]. eauto.
  - discriminate.
  - cbn [visit]. destruct (IH N used) as [u ->]. eauto.
  - rewrite visit_Call. cbn [no_BinOp] in N. apply andb_true_iff in N as [Nf Na].
    match goal with |- context [visit fn ?u] => destruct (IHf Nf u) as [u1 ->] end.
    destruct (visit_list_again IHargs Na u1) as [u2 ->]. eauto.
  - rewrite visit_Tuple. cbn [no_BinOp] in N.
    destruct (visit_list_again IH N used) as [u ->]. eauto.
Qed.

(** X10. Lowering is idempotent: a tree that the visit has returned goes
    through another visit unchanged. *)
Theorem lowering_idempotent (e : expr) (used : list str) (e' : expr) (used' : list str) :
  visit e used = Some (e', used') ->
  forall again, exists used'', visit e' again = Some (e', used'').
Proof.
  intros V again. apply visit_again. eapply visit_no_BinOp. exact V.
Qed.

Section CalledNames.
Context {H : Host}.

(** X11. A text that [transform_expression] accepts calls registry
    functions only. *)
Theorem lowered_calls_registry (math_express : str) (lowered : expr) (f : str) :
  transform_expression math_express = inl lowered ->
  In f (called lowered) -> In f funct_namespace.
Proof.
  unfold transform_expression.
  destruct (ast_parse math_express) as [body|]; [|discriminate].
  destruct (visit body []) as [[e' used]|] eqn:V; [|discriminate].
  destruct (find _ _) eqn:F; [discriminate|].
  intros E C. inversion E; subst.
  assert (In f (set_iter used)) as I.
  { apply set_iter_In. apply (visit_called _ _ V). now right. }
  apply (find_none _ _ F) in I. apply negb_false_iff in I. now apply str_in_In.
Qed.


End CalledNames.

(** ** Names that the host makes unique *)

Lemma decimal_value_app (a b : str) :
  decimal_value (a ++ b)
  = fold_left (fun x c => 10 * x + digit_value c) b (decimal_value a).
Proof. unfold decimal_value. apply fold_left_app. Qed.

Lemma digit_value_char (n : nat) : digit_value (digit_char n) = n.
Proof. unfold digit_value, digit_char. lia. Qed.

Lemma str_of_nat_aux_value (fuel : nat) : forall n acc,
  n < fuel ->
  exists d, str_of_nat_aux fuel n acc = d ++ acc /\ decimal_value d = n.
Proof.
  induction fuel as [|f IH]; intros n acc L; [lia|].
  cbn [str_of_nat_aux].
  destruct (Nat.ltb n 10) eqn:T.
  - apply Nat.ltb_lt in T. exists [digit_char (Nat.modulo n 10)]. split; [reflexivity|].
    unfold decimal_value. cbn [fold_left]. rewrite digit_value_char.
    rewrite Nat.mod_small by exact T. lia.
  - apply Nat.ltb_ge in T.
    assert (Nat.div n 10 < f) as L'.
    { pose proof (Nat.div_lt n 10). lia. }
    destruct (IH (Nat.div n 10) (digit_char (Nat.modulo n 10) :: acc) L') as (d & E & V).
    exists (d ++ [digit_char (Nat.modulo n 10)]). split.
    + rewrite E, <- app_assoc. reflexivity.
    + rewrite decimal_value_app, V. cbn [fold_left]. rewrite digit_value_char.
      pose proof (Nat.div_mod_eq n 10). lia.
Qed.

Lemma str_of_nat_value (n : nat) : decimal_value (str_of_nat n) = n.
Proof.
  unfold str_of_nat.
  destruct (@str_of_nat_aux_value (S n) n [] (Nat.lt_succ_diag_r n)) as (d & E & V).
  rewrite E, app_nil_r. exact V.
Qed.

Lemma suffix_value (k : nat) : decimal_value (tl (suffix k)) = k.
Proof.
  unfold suffix. change (py ".") with [ch "."]. cbn [app tl].
  destruct (Nat.ltb k 10); [|destruct (Nat.ltb k 100)];
    rewrite ?decimal_value_app; cbn [app]; try apply str_of_nat_value.
Qed.

Lemma suffix_inj (base : str) (j k : nat) :
  base ++ suffix j = base ++ suffix k -> j = k.
Proof.
  intro E. apply app_inv_head in E.
  rewrite <- (suffix_value j), <- (suffix_value k). now rewrite E.
Qed.

Lemma suffix_not_base (base : str) (k : nat) : base ++ suffix k <> base.
Proof.
  intro E. rewrite <- (app_nil_r base) in E at 2. apply app_inv_head in E.
  discriminate E.
Qed.

Lemma candidates_NoDup (base : str) (n : nat) : forall k,
  NoDup (map (fun j => base ++ suffix j) (seq k n)).
Proof.
  induction n as [|n IH]; intro k; cbn [seq map]; constructor.
  - intro I. apply in_map_iff in I as (j & E & J). apply suffix_inj in E.
    apply in_seq in J. lia.
  - apply IH.
Qed.

Lemma numbered_fresh (base : str) (taken : list str) (fuel : nat) : forall k,
  fuel + k = S (length taken) ->
  In base taken ->
  (forall j, 1 <= j < k -> In (base ++ suffix j) taken) ->
  ~ In (numbered fuel k base taken) taken.
Proof.
  induction fuel as [|f IH]; intros k F B A; cbn [numbered].
  - exfalso.
    assert (NoDup (base :: map (fun j => base ++ suffix j) (seq 1 (length taken)))) as N.
    { constructor; [|apply candidates_NoDup].
      intro I. apply in_map_iff in I as (j & E & _). exact (@suffix_not_base base j E). }
    apply NoDup_incl_length with (l' := taken) in N.
    + cbn [length] in N. rewrite length_map, length_seq in N. lia.
    + intros x [<-|I]; [exact B|].
      apply in_map_iff in I as (j & <- & J). apply in_seq in J. apply A. lia.
  - destruct (str_in (base ++ suffix k) taken) eqn:S.
    + apply IH; [lia | exact B|]. intros j J.
      destruct (Nat.eq_dec j k) as [->|N]; [now apply str_in_In | apply A; lia].
    + intro I. apply str_in_In in I. congruence.
Qed.

(** The name that the host gives is not one of those taken. *)
Lemma unique_name_fresh (base : str) (taken : list str) :
  ~ In (unique_name base taken) taken.
Proof.
  unfold unique_name. destruct (str_in base taken) eqn:B.
  - apply numbered_fresh; [lia | now apply str_in_In | intros j J; lia].
  - intro I. apply str_in_In in I. congruence.
Qed.

(** ** Synthesis of a well-formed function expression *)

Lemma map_kind_update (key : str) (f : node -> node) (l : list node) :
  (forall n, kind (f n) = kind n) ->
  map kind (map (fun n => if str_eqb (name n) key then f n else n) l) = map kind l.
Proof.
  intro K. rewrite map_map. apply map_ext. intro n.
  destruct (str_eqb (name n) key); [apply K | reflexivity].
Qed.

Lemma get_node_kind (ng : node_tree) (key : str) :
  option_map type (get_node ng key)
  = option_map snd (find (fun p => str_eqb (fst p) key) (map kind (nodes ng))).
Proof.
  unfold get_node. induction (nodes ng) as [|n l IH]; cbn [map find]; [reflexivity|].
  cbn [kind fst]. destruct (str_eqb (name n) key); [reflexivity | exact IH].
Qed.

Lemma map_name_kind (l : list node) : map name l = map fst (map kind l).
Proof. rewrite map_map. reflexivity. Qed.

Lemma grown_refl (ng : node_tree) : grown ng ng [] [].
Proof. unfold grown. rewrite !app_nil_r. auto. Qed.

Lemma grown_trans (a b c : node_tree) (ad1 ad2 : list (str * node_type))
    (n1 n2 : list link) :
  grown a b ad1 n1 -> grown b c ad2 n2 -> grown a c (ad1 ++ ad2) (n1 ++ n2).
Proof.
  intros (N1 & L1 & I1 & D1) (N2 & L2 & I2 & D2). unfold grown.
  rewrite N2, N1, L2, L1, I2, I1, !app_assoc. repeat split; auto.
Qed.

Lemma find_app_some {A} (p : A -> bool) (l m : list A) (x : A) :
  find p l = Some x -> find p (l ++ m) = Some x.
Proof.
  induction l as [|y l IH]; cbn [find app]; [discriminate|].
  destruct (p y); [auto | exact IH].
Qed.

Lemma resolvable_grown (ng ng' : node_tree) (added : list (str * node_type))
    (new : list link) (h : handle) :
  grown ng ng' added new -> resolvable ng h = true -> resolvable ng' h = true.
Proof.
  intros (N & _ & I & _) R. unfold resolvable in *.
  pose proof (get_node_kind ng (node_key h)) as K.
  pose proof (get_node_kind ng' (node_key h)) as K'.
  destruct (get_node ng (node_key h)) as [n|]; [|discriminate].
  cbn [option_map] in K. symmetry in K.
  destruct (find _ (map kind (nodes ng))) as [p|] eqn:F; [|discriminate].
  rewrite N, (find_app_some _ _ added F) in K'.
  destruct (get_node ng' (node_key h)) as [n'|]; [|discriminate].
  cbn [option_map] in K, K'. unfold outputs_count in *.
  replace (type n') with (type n) by congruence.
  unfold group_input_outputs in *. now rewrite I.
Qed.

Lemma resolve_ok (ng : node_tree) (h : handle) :
  resolvable ng h = true ->
  resolve h ng = (ng, inl (Socket {| owner := node_key h; is_output := true;
                                     index := idx h |})).
Proof.
  unfold resolvable, resolve. destruct (get_node ng (node_key h)); [|discriminate].
  now intros ->.
Qed.

Lemma sockets_shape (vs : list object) :
  forallb is_socket vs = true -> exists ss, vs = map Socket ss.
Proof.
  induction vs as [|[s| | |] vs IH]; cbn [forallb is_socket andb]; try discriminate.
  - exists []. reflexivity.
  - intro F. destruct (IH F) as [ss ->]. exists (s :: ss). reflexivity.
Qed.

Lemma place_spec (t : node_type) (s : str) (ng ng' : node_tree) (r : str + exn) :
  place t s ng = (ng', r) ->
  exists key, r = inl key /\ grown ng ng' [(key, t)] [] /\ active ng' = Some key.
Proof.
  unfold place, nodes_new. intro E. inversion E; subst. eexists. split; [reflexivity|].
  split; [|reflexivity]. unfold grown.
  cbn [nodes links inputs set_active update_node set_nodes].
  rewrite map_kind_update by reflexivity. rewrite map_app, app_nil_r.
  repeat split. intro D.
  rewrite map_name_kind, map_kind_update by reflexivity.
  rewrite <- map_name_kind, map_app. cbn [map name].
  apply NoDup_app; [exact D | repeat constructor; intros [] |].
  intros x X [<-|[]]. exact (unique_name_fresh _ _ X).
Qed.

Lemma grown_link (ng ng' : node_tree) (added : list (str * node_type)) (new : list link)
    (s1 s2 : socket) :
  grown ng ng' added new ->
  grown ng (link_sockets ng' s1 s2) added (new ++ [{| from_socket := s1; to_socket := s2 |}]).
Proof.
  intros (N & L & I & D). unfold grown. cbn [link_sockets set_links nodes links inputs].
  rewrite N, L, I, app_assoc. auto.
Qed.

Lemma grown_update (ng ng' : node_tree) (added : list (str * node_type)) (new : list link)
    (key : str) (f : node -> node) :
  (forall n, kind (f n) = kind n) ->
  grown ng ng' added new -> grown ng (update_node ng' key f) added new.
Proof.
  intros K (N & L & I & D). unfold grown. cbn [update_node set_nodes nodes links inputs].
  rewrite map_kind_update by exact K. repeat split; auto.
  intro X. rewrite map_name_kind, map_kind_update by exact K.
  rewrite <- map_name_kind. auto.
Qed.

Lemma grown_place (ng ng1 ng2 : node_tree) (added : list (str * node_type))
    (new : list link) (key : str) (t : node_type) :
  grown ng ng1 added new -> grown ng1 ng2 [(key, t)] [] ->
  grown ng ng2 (added ++ [(key, t)]) new.
Proof.
  intros G1 G2. pose proof (grown_trans G1 G2) as G. now rewrite app_nil_r in G.
Qed.

Ltac place_in t s ng ng1 key G A :=
  let P := fresh "P" in let r := fresh "r" in
  destruct (place t s ng) as [ng1 r] eqn:P;
  apply place_spec in P as (key & -> & G & A); cbv beta iota.

Lemma floatmath_sockets (op : str) (s1 : socket) (o2 o3 : option socket) (ng : node_tree) :
  exists ng' key new,
    _floatmath op (Socket s1) (option_map Socket o2) (option_map Socket o3) ng
    = (ng', inl (output0 key))
    /\ grown ng ng' [(key, MATH)] new
    /\ length new = 1 + length (match o2 with Some s => [s] | None => [] end)
                   + length (match o3 with Some s => [s] | None => [] end)
    /\ active ng' = Some key.
Proof.
  unfold _floatmath, bind, id_data, ret. 
  place_in MATH op ng ng1 key G A.
  unfold link_operand, modify.
  destruct o2 as [s2|], o3 as [s3|]; cbn [option_map truthy];
    do 3 eexists; (split; [reflexivity|]);
    (split; [repeat apply grown_link; exact G|]); (split; [reflexivity | exact A]).
Qed.

(** A registry entry called on as many sockets as it takes: the nodes and
    links it adds, the node it leaves active, the socket it returns. *)
Lemma run_sockets (p : primitive) (ss : list socket) (ng : node_tree) :
  length ss = arity p ->
  exists ng' front key t new,
    run p (map Socket ss) ng = (ng', inl (output0 key))
    /\ grown ng ng' (front ++ [(key, t)]) new
    /\ length (front ++ [(key, t)]) = cost p
    /\ length new = wires p
    /\ forallb (fun k => is_operation (snd k)) (front ++ [(key, t)]) = true
    /\ active ng' = Some key.
Proof.
  intro L.
  destruct p; cbn [arity] in L;
    (destruct ss as [|s1 [|s2 [|s3 [|s4 ss]]]]; try discriminate L); cbn [run map].
  - destruct (floatmath_sockets operation_type s1 None None ng)
      as (ng' & key & new & E & G & N & A). cbn [option_map] in E.
    exists ng', [], key, MATH, new. split; [exact E|]. split; [exact G|]. repeat split; auto.
  - destruct (floatmath_sockets operation_type s1 (Some s2) None ng)
      as (ng' & key & new & E & G & N & A). cbn [option_map] in E.
    exists ng', [], key, MATH, new. split; [exact E|]. split; [exact G|]. repeat split; auto.
  - destruct (floatmath_sockets operation_type s1 (Some s2) (Some s3) ng)
      as (ng' & key & new & E & G & N & A). cbn [option_map] in E.
    exists ng', [], key, MATH, new. split; [exact E|]. split; [exact G|]. repeat split; auto.
  - unfold _floatmath_nroot, bind, id_data, ret.
    place_in MATH (py "DIVIDE") ng ng1 divnode G1 A1.
    cbv beta iota zeta delta [modify link_operand output0].
    match goal with |- context [place MATH (py "POWER") ?g] =>
      place_in MATH (py "POWER") g ng2 pnode G2 A2 end.
    exists (link_sockets
              (link_sockets ng2 s1 {| owner := pnode; is_output := false; index := 0 |})
              {| owner := divnode; is_output := true; index := 0 |}
              {| owner := pnode; is_output := false; index := 1 |}),
           [(divnode, MATH)], pnode, MATH.
    eexists. split; [reflexivity|]. split.
    + do 2 apply grown_link. eapply grown_place with (added := [(divnode, MATH)]); [|exact G2].
      apply grown_link. apply grown_update; [reflexivity | exact G1].
    + repeat split; auto.
  - unfold bind.
    destruct (floatmath_sockets (py "DIVIDE") s1 (Some s2) None ng)
      as (ng1 & q & new1 & E1 & G1 & N1 & A1). cbn [option_map] in E1.
    rewrite E1. unfold output0.
    destruct (floatmath_sockets (py "FLOOR") {| owner := q; is_output := true; index := 0 |}
                                None None ng1)
      as (ng2 & key & new2 & E2 & G2 & N2 & A2). cbn [option_map] in E2.
    exists ng2, [(q, MATH)], key, MATH, (new1 ++ new2).
    split; [exact E2|]. split; [exact (grown_trans G1 G2)|].
    split; [reflexivity|]. split; [rewrite length_app, N1, N2; reflexivity|].
    split; [reflexivity | exact A2].
  - unfold _mix, bind, id_data, ret.
    place_in MIX (py "FLOAT") ng ng1 key G A.
    change (str_eqb (py "FLOAT") (py "FLOAT")) with true.
    unfold link_operand, modify. cbv iota beta.
    eexists. exists [], key, MIX. eexists. split; [reflexivity|].
    split; [repeat apply grown_link; exact G|]. repeat split; auto.
  - unfold _floatclamp, bind, id_data, ret.
    place_in CLAMP clamp_type ng ng1 key G A.
    unfold link_operand, modify.
    eexists. exists [], key, CLAMP. eexists. split; [reflexivity|].
    split; [repeat apply grown_link; exact G|]. repeat split; auto.
Qed.

Lemma dict_get_In {A} (k : str) (v : A) (d : list (str * A)) :
  dict_get k d = Some v -> In (k, v) d.
Proof.
  unfold dict_get. destruct (find _ d) as [[k' v']|] eqn:F; [|discriminate].
  intro E. inversion E; subst. apply find_some in F as [I K].
  cbn [fst] in K. apply str_eqb_eq in K. now subst.
Qed.

Section Synthesis.
Context {H : Host}.
Variable api : list (str * handle).

Lemma canonical_numeric (v : str) : canonical v = true -> numeric_token v = true.
Proof.
  unfold canonical, numeric_token.
  assert (forall s, forallb ascii_digit s = true -> forallb re_d s = true) as D.
  { intros s F. rewrite forallb_forall in *. intros c I. specialize (F c I).
    unfold re_d, isdecimal_char. 
    assert (is_ascii c = true) as ->; [|exact F].
    unfold ascii_digit, in_range, is_ascii in *.
    change (ch "0") with 48%N in F. change (ch "9") with 57%N in F.
    apply andb_true_iff in F as [_ F]. apply N.leb_le in F. apply N.ltb_lt. lia. }
  assert (forall s a b, span ascii_digit s = (a, b) ->
            match b with c :: _ => re_d c = false \/ ascii_digit c = false | [] => True end) as ST.
  { intros s a b S. apply span_stop in S. destruct b; auto. }
  destruct (span ascii_digit v) as [d1 r] eqn:S1.
  pose proof (span_split _ _ S1) as E1. pose proof (span_forall _ _ S1) as F1.
  unfold plain_integer. intro C.
  apply andb_true_iff in C as [C1 C2]. apply andb_true_iff in C1 as [C1 _].
  apply andb_true_iff in C1 as [N1 _].
  assert (forall t, (forall c t', t = c :: t' -> re_d c = false) ->
                    span re_d (d1 ++ t) = (d1, t)) as SP.
  { intros t T. clear - D F1 T. induction d1 as [|c d IH]; cbn [app].
    - destruct t as [|c t']; [reflexivity|]. cbn [span]. now rewrite (T c t' eq_refl).
    - cbn [forallb] in F1. apply andb_true_iff in F1 as [Fc F1].
      cbn [span]. assert (re_d c = true) as ->.
      { specialize (D [c]). cbn [forallb] in D. rewrite Fc in D.
        specialize (D eq_refl). now apply andb_true_iff in D. }
      now rewrite (IH F1). }
  subst v. destruct r as [|c d2].
  - rewrite SP by (intros c t' X; discriminate X). now rewrite N1.
  - repeat (apply andb_true_iff in C2 as [C2 ?]).
    match goal with X : char_eqb c (ch ".") = true |- _ => pose proof X as P end.
    apply N.eqb_eq in P. subst c.
    rewrite SP by (intros c t' X; inversion X; subst; reflexivity).
    rewrite N1. cbn [andb]. change (char_eqb (ch ".") (ch ".")) with true. cbn [andb].
    assert (span re_d d2 = (d2, [])) as ->.
    { rewrite <- (app_nil_r d2) at 1.
      match goal with X : forallb ascii_digit d2 = true |- _ =>
        clear - D X; induction d2 as [|c d IH]; [reflexivity|];
        cbn [forallb] in X; apply andb_true_iff in X as [Xc X];
        cbn [app span]; specialize (D [c]); cbn [forallb] in D; rewrite Xc in D;
        specialize (D eq_refl); apply andb_true_iff in D as [-> _];
        now rewrite (IH X)
      end. }
    match goal with X : negb (is_nil d2) = true |- _ => rewrite X end. reflexivity.
Qed.

Lemma api_resolves_grown (ng ng' : node_tree) (added : list (str * node_type))
    (new : list link) :
  grown ng ng' added new -> api_resolves api ng -> api_resolves api ng'.
Proof.
  unfold api_resolves. intros G R. rewrite forallb_forall in *.
  intros kv I. eapply resolvable_grown; eauto.
Qed.

Lemma api_resolve (ng : node_tree) (k : str) (h : handle) :
  api_resolves api ng -> dict_get k api = Some h ->
  resolve h ng = (ng, inl (Socket {| owner := node_key h; is_output := true;
                                     index := idx h |})).
Proof.
  intros R D. apply resolve_ok. apply dict_get_In in D.
  unfold api_resolves in R. rewrite forallb_forall in R. exact (R _ D).
Qed.

(** What the evaluation of a well-formed expression does, stated for the
    induction. *)
Lemma synthesized_all (e : expr) : forall ng,
  well_formed (key_of api) e = true -> api_resolves api ng ->
  exists ng' s added new,
    eval api e ng = (ng', inl (Socket s))
    /\ grown ng ng' added new
    /\ length added = nodes_of e
    /\ length new = links_of e
    /\ forallb (fun k => is_operation (snd k)) added = true
    /\ active ng' = active_after ng added.
Proof.
  induction e as [id|v|l op r IHl IHr|op e IH|fn args IHf IHargs|elts IH]
    using expr_rect_nested; intros ng W R; try discriminate W.
  - cbn [well_formed] in W. cbn [eval]. unfold key_of in W.
    destruct (dict_get id api) as [h|] eqn:D; [|discriminate].
    rewrite (@api_resolve ng _ h R D).
    eexists ng, _, [], []. split; [reflexivity|].
    split; [apply grown_refl|]. repeat split; reflexivity.
  - cbn [well_formed] in W. cbn [eval]. unfold key_of in W.
    destruct (dict_get v api) as [h|] eqn:D; [|discriminate].
    cbn [is_some andb] in W. rewrite (canonical_numeric _ W), (@api_resolve ng _ h R D).
    eexists ng, _, [], []. split; [reflexivity|].
    split; [apply grown_refl|]. repeat split; reflexivity.
  - cbn [well_formed] in W. destruct fn as [f| | | | |]; try discriminate W.
    apply andb_true_iff in W as [W Wa]. apply andb_true_iff in W as [Wk Wp].
    unfold key_of in Wk.
    destruct (dict_get f api) as [h|] eqn:D; [discriminate|].
    destruct (lookup f) as [p|] eqn:L; [|discriminate].
    apply Nat.eqb_eq in Wp.
    assert (forall ng, forallb (well_formed (key_of api)) args = true -> api_resolves api ng ->
              exists ng' ss added new,
                eval_list api args ng = (ng', inl (map Socket ss))
                /\ length ss = length args
                /\ grown ng ng' added new
                /\ length added = list_sum (map nodes_of args)
                /\ length new = list_sum (map links_of args)
                /\ forallb (fun k => is_operation (snd k)) added = true
                /\ active ng' = active_after ng added) as LIST.
    { clear - IHargs. induction IHargs as [|e l He Hl IH]; intros ng W R.
      - exists ng, [], [], []. cbn [eval_list ret map length list_sum forallb].
        split; [reflexivity|]. split; [reflexivity|]. split; [apply grown_refl|].
        repeat split; reflexivity.
      - cbn [forallb] in W. apply andb_true_iff in W as [We Wl].
        destruct (He ng We R) as (ng1 & s & ad1 & n1 & E1 & G1 & A1 & N1 & O1 & C1).
        destruct (IH ng1 Wl (@api_resolves_grown ng ng1 ad1 n1 G1 R))
          as (ng2 & ss & ad2 & n2 & E2 & L2 & G2 & A2 & N2 & O2 & C2).
        exists ng2, (s :: ss), (ad1 ++ ad2), (n1 ++ n2).
        cbn [eval_list]. unfold bind. rewrite E1, E2. unfold ret.
        split; [reflexivity|]. split; [cbn [length]; now rewrite L2|].
        split; [exact (grown_trans G1 G2)|].
        cbn [map list_sum]. rewrite !length_app, A1, A2, N1, N2, forallb_app, O1, O2.
        repeat split; try reflexivity.
        rewrite C2. unfold active_after. rewrite rev_app_distr.
        destruct (rev ad2) as [|[k t] r]; [|reflexivity].
        cbn [app]. exact C1. }
    destruct (LIST ng Wa R) as (ng1 & ss & ad1 & n1 & E1 & L1 & G1 & A1 & N1 & O1 & C1).
    destruct (@run_sockets p ss ng1) as (ng2 & front & key & t & n2 & E2 & G2 & A2 & N2 & O2 & C2);
      [congruence|].
    rewrite eval_Call. unfold bind at 1. cbn [eval]. rewrite D.
    rewrite (proj2 (lookup_plain _ L)). unfold ret at 1.
    unfold bind. rewrite E1. unfold call_function. rewrite L.
    rewrite length_map, L1, Wp, Nat.ltb_irrefl. rewrite E2.
    exists ng2, {| owner := key; is_output := true; index := 0 |},
           (ad1 ++ front ++ [(key, t)]), (n1 ++ n2).
    split; [reflexivity|]. split; [exact (grown_trans G1 G2)|].
    cbn [nodes_of links_of]. rewrite L.
    rewrite !length_app, A1, N1, N2, forallb_app, O1, O2.
    rewrite length_app in A2. rewrite A2.
    repeat split; try reflexivity; try lia.
    rewrite C2. unfold active_after. rewrite !rev_app_distr. reflexivity.
Qed.

End Synthesis.

Lemma find_kind_NoDup (l : list (str * node_type)) (key : str) (t : node_type) :
  NoDup (map fst l) -> In (key, t) l ->
  find (fun p => str_eqb (fst p) key) l = Some (key, t).
Proof.
  induction l as [|[k u] l IH]; intros N I; [destruct I|].
  cbn [map fst] in N. inversion N as [|? ? X N']; subst.
  cbn [find fst]. destruct I as [E|I].
  - inversion E; subst. now rewrite str_eqb_refl.
  - destruct (str_eqb k key) eqn:K; [|now apply IH].
    apply str_eqb_eq in K. subst k. exfalso. apply X.
    apply in_map_iff. exists (key, t). auto.
Qed.

Lemma get_node_added (ng : node_tree) (key : str) (t : node_type) :
  NoDup (map name (nodes ng)) -> In (key, t) (map kind (nodes ng)) ->
  exists n, get_node ng key = Some n /\ name n = key /\ type n = t.
Proof.
  intros N I. pose proof (get_node_kind ng key) as K.
  rewrite map_name_kind in N. rewrite (@find_kind_NoDup _ _ _ N I) in K.
  unfold get_node in *. destruct (find _ (nodes ng)) as [n|] eqn:F; [|discriminate].
  exists n. apply find_some in F as [_ F]. apply str_eqb_eq in F.
  cbn [option_map snd] in K. split; [reflexivity|]. split; [exact F | congruence].
Qed.

Lemma get_node_grown (ng ng' : node_tree) (added : list (str * node_type))
    (new : list link) (key : str) (n : node) :
  grown ng ng' added new -> get_node ng key = Some n ->
  exists n', get_node ng' key = Some n' /\ name n' = key /\ type n' = type n.
Proof.
  intros (N & _) G.
  pose proof (get_node_kind ng key) as K. pose proof (get_node_kind ng' key) as K'.
  rewrite G in K. cbn [option_map] in K. symmetry in K.
  destruct (find _ (map kind (nodes ng))) as [p|] eqn:F; [|discriminate].
  rewrite N, (find_app_some _ _ added F) in K'.
  unfold get_node in *. destruct (find _ (nodes ng')) as [n'|] eqn:F'; [|discriminate].
  exists n'. apply find_some in F' as [_ F']. apply str_eqb_eq in F'.
  cbn [option_map] in K, K'. split; [reflexivity|]. split; [exact F' | congruence].
Qed.

Section SynthesisTheorems.
Context {H : Host}.

(** X13. The evaluation of a well-formed function expression of height
    [DEPTH] at most, under a substitution whose keys are tokens and whose API
    texts are well formed and denote sockets of the tree, succeeds and returns
    a socket.  It adds one node for every call (two for [nroot] and for
    [floordiv]), all of them operation nodes put after the nodes of before,
    and one link for every operand of a call (one more for [nroot] and for
    [floordiv]); it leaves the nodes of before in place under their names and
    types, and the interface as it was. *)
Theorem synthesis_of_well_formed (api : list (str * handle)) (e : expr) (ng : node_tree) :
  forallb key_ok (map fst api) = true ->
  api_quotable api = true ->
  height e <= DEPTH ->
  well_formed (key_of api) e = true ->
  api_resolves api ng ->
  exists ng' s added new,
    eval api e ng = (ng', inl (Socket s))
    /\ map kind (nodes ng') = map kind (nodes ng) ++ added
    /\ length added = nodes_of e
    /\ forallb (fun k => is_operation (snd k)) added = true
    /\ links ng' = links ng ++ new
    /\ length new = links_of e
    /\ inputs ng' = inputs ng.
Proof.
  intros _ _ _ W R.
  destruct (@synthesized_all _ _ e _ W R) as (ng' & s & added & new & E & (N & L & I & _) & A & B & O & _).
  exists ng', s, added, new. repeat split; assumption.
Qed.

Lemma execute_well_formed (elemVar elemConst : list str)
    (varsapi constapi : list (str * handle)) (e : expr) (ng : node_tree) (out : node) :
  well_formed (key_of (dict_merge varsapi constapi)) e = true ->
  api_resolves (dict_merge varsapi constapi) ng ->
  NoDup (map name (nodes ng)) ->
  get_node ng Group_Output = Some out ->
  0 < nodes_of e ->
  exists ng' added new key t,
    execute_function_expression elemVar elemConst e ng varsapi constapi = (ng', ReturnNone)
    /\ map kind (nodes ng') = map kind (nodes ng) ++ added ++ [(key, t)]
    /\ S (length added) = nodes_of e
    /\ forallb (fun k => is_operation (snd k)) (added ++ [(key, t)]) = true
    /\ links ng' = links ng ++ new
                   ++ [{| from_socket := {| owner := key; is_output := true; index := 0 |};
                          to_socket := {| owner := Group_Output; is_output := false;
                                          index := 0 |} |}]
    /\ length new = links_of e
    /\ inputs ng' = inputs ng.
Proof.
  intros W R D GO P.
  destruct (@synthesized_all _ _ e _ W R) as (ng1 & s & added & new & E & G & A & B & O & C).
  unfold execute_function_expression. rewrite E.
  destruct (rev added) as [|[key t] front] eqn:RV.
  { apply (f_equal (@length _)) in RV. rewrite length_rev in RV. cbn [length] in RV. lia. }
  assert (added = rev front ++ [(key, t)]) as EA.
  { rewrite <- (rev_involutive added), RV. reflexivity. }
  unfold active_after in C. rewrite RV in C.
  pose proof G as (N & L & I & DD). specialize (DD D).
  destruct (@get_node_added ng1 key t DD) as (last & GL & NL & TL).
  { rewrite N, EA. apply in_or_app. right. apply in_or_app. right. now left. }
  destruct (@get_node_grown _ _ _ _ Group_Output _ G GO) as (out1 & GO1 & NO & _).
  unfold final_link. rewrite C, GL, GO1.
  assert (Nat.ltb 0 (outputs_count ng1 last) = true) as ->.
  { unfold outputs_count. rewrite TL.
    rewrite EA, forallb_app in O. apply andb_true_iff in O as [_ O].
    cbn [forallb snd andb] in O. rewrite andb_true_r in O.
    destruct t; try discriminate O; reflexivity. }
  eexists. exists (rev front), new, key, t. split; [reflexivity|].
  unfold with_location_of, link_sockets. cbn [set_links nodes links inputs update_node set_nodes].
  rewrite map_kind_update by reflexivity. rewrite N, L, I, NL, NO, EA.
  rewrite <- !app_assoc. repeat split; try reflexivity.
  - rewrite EA, length_app in A. cbn [length] in A. lia.
  - now rewrite <- EA.
  - exact B.
Qed.

(** X14. [execute_function_expression] on a well-formed function expression
    of height [DEPTH] at most with at least one call, under a substitution
    whose keys are tokens and whose API texts are well formed and denote
    sockets, on a tree with unique node names and a Group Output: the
    evaluation succeeds, the output of the node made last is linked to the
    first input of Group Output, and no error is returned. *)
Theorem execution_of_well_formed (elemVar elemConst : list str)
    (varsapi constapi : list (str * handle)) (e : expr) (ng : node_tree) (out : node) :
  forallb key_ok (map fst (dict_merge varsapi constapi)) = true ->
  api_quotable (dict_merge varsapi constapi) = true ->
  height e <= DEPTH ->
  well_formed (key_of (dict_merge varsapi constapi)) e = true ->
  api_resolves (dict_merge varsapi constapi) ng ->
  NoDup (map name (nodes ng)) ->
  get_node ng Group_Output = Some out ->
  0 < nodes_of e ->
  exists ng' added new key t,
    execute_function_expression elemVar elemConst e ng varsapi constapi = (ng', ReturnNone)
    /\ map kind (nodes ng') = map kind (nodes ng) ++ added ++ [(key, t)]
    /\ S (length added) = nodes_of e
    /\ forallb (fun k => is_operation (snd k)) (added ++ [(key, t)]) = true
    /\ links ng' = links ng ++ new
                   ++ [{| from_socket := {| owner := key; is_output := true; index := 0 |};
                          to_socket := {| owner := Group_Output; is_output := false;
                                          index := 0 |} |}]
    /\ length new = links_of e
    /\ inputs ng' = inputs ng.
Proof. intros _ _ _. apply execute_well_formed. Qed.

End SynthesisTheorems.

(** ** The stages of the pass on a tree with unique names *)

Lemma filter_names_absent (key : str) (l : list node) :
  ~ In key (map name l) ->
  filter (fun m => negb (str_eqb (name m) key)) l = l.
Proof.
  intro N. apply forallb_filter_id, forallb_forall. intros m I.
  apply negb_true_iff. destruct (str_eqb (name m) key) eqn:E; [|reflexivity].
  apply str_eqb_eq in E. exfalso. apply N. apply in_map_iff. eauto.
Qed.

Lemma clear_fold_filter (rest : list node) : forall done g,
  nodes g = filter boundary_type done ++ rest ->
  NoDup (map name (done ++ rest)) ->
  nodes (fold_left clear_step rest g) = filter boundary_type (done ++ rest).
Proof.
  induction rest as [|n rest IH]; intros done g E N; cbn [fold_left].
  - now rewrite app_nil_r in *.
  - replace (done ++ n :: rest) with ((done ++ [n]) ++ rest) in *
      by (rewrite <- app_assoc; reflexivity).
    apply IH; [|exact N].
    rewrite filter_app. cbn [filter]. unfold clear_step, boundary_type.
    rewrite <- app_assoc.
    assert (~ In (name n) (map name (filter boundary_type done ++ rest))) as A.
    { rewrite <- app_assoc, map_app in N. apply NoDup_remove_2 in N. cbn [app map] in N.
      intro I. apply N. rewrite map_app in *. apply in_app_or in I as [I|I].
      - apply in_or_app. left. apply in_map_iff in I as (m & M & I).
        apply filter_In in I as [I _]. apply in_map_iff. eauto.
      - apply in_or_app. now right. }
    destruct (type n); try exact E; cbn [app];
      cbn [nodes_remove nodes]; rewrite E, filter_app; cbn [filter];
      rewrite str_eqb_refl; cbn [negb];
      rewrite <- filter_app; now apply filter_names_absent.
Qed.

(** On a tree with unique names, "Clear node tree" leaves the boundary nodes
    and nothing else. *)
Lemma clear_node_tree_nodes (g : node_tree) :
  NoDup (map name (nodes g)) ->
  nodes (clear_node_tree g) = filter boundary_type (nodes g).
Proof.
  intro N. unfold clear_node_tree.
  apply (clear_fold_filter (nodes g) [] g); [reflexivity | exact N].
Qed.



Lemma dict_set_In {A} (k : str) (v : A) (d : list (str * A)) (x : str * A) :
  In x (dict_set k v d) -> x = (k, v) \/ In x d.
Proof.
  induction d as [|[k' v'] d IH]; cbn [dict_set In].
  - intros [<-|[]]. now left.
  - destruct (str_eqb k' k); cbn [In]; intuition.
Qed.

Lemma dict_set_keys {A} (k : str) (v : A) (d : list (str * A)) (x : str) :
  In x (map fst (dict_set k v d)) <-> x = k \/ In x (map fst d).
Proof.
  induction d as [|[k' v'] d IH]; cbn [dict_set map fst In].
  - intuition.
  - destruct (str_eqb k' k) eqn:E; cbn [map fst In].
    + apply str_eqb_eq in E. subst. intuition.
    + rewrite IH. intuition.
Qed.




Lemma find_index_some {A} (p : A -> bool) (l : list A) (x : A) :
  In x l -> p x = true -> exists i, find_index p l = Some i /\ i < length l.
Proof.
  induction l as [|y l IH]; intros I P; [destruct I|].
  cbn [find_index length]. destruct (p y) eqn:Py.
  - exists 0. split; [reflexivity | lia].
  - destruct I as [->|I]; [congruence|].
    destruct (IH I P) as (i & -> & L). exists (S i). split; [reflexivity | lia].
Qed.

Lemma get_socket_python_api_some (ng : node_tree) (s : interface_socket) :
  In s (group_input_outputs ng) ->
  exists i, get_socket_python_api ng (identifier s)
            = Some {| node_key := Group_Input; idx := i |}
            /\ i < length (group_input_outputs ng).
Proof.
  intro I. unfold get_socket_python_api.
  destruct (find_index_some (fun x => Nat.eqb (identifier x) (identifier s)) _ _ I
              (Nat.eqb_refl _)) as (i & -> & L).
  exists i. auto.
Qed.

(** "Fill equivalence dict": the assertion of [get_socket_python_api] never
    fails there; the keys are the variables that have a socket, and every API
    text is of an output of Group Input. *)
Lemma fill_vareq_spec (elemVar : list str) (ng : node_tree) :
  exists vareq,
    fill_vareq elemVar ng = Some vareq
    /\ (forall k, In k (map fst vareq) <->
                  In k elemVar /\ In k (map socket_name (group_input_outputs ng)))
    /\ (forall k h, In (k, h) vareq ->
          node_key h = Group_Input /\ idx h < length (group_input_outputs ng)).
Proof.
  unfold fill_vareq. destruct (is_nil elemVar) eqn:E.
  - destruct elemVar; [|discriminate]. exists []. split; [reflexivity|].
    split; [intro k; cbn [map In]; tauto | intros k h []].
  - clear E.
    assert (forall l acc,
              incl l (group_input_outputs ng) ->
              (forall k h, In (k, h) acc ->
                 node_key h = Group_Input /\ idx h < length (group_input_outputs ng)) ->
              exists vareq,
                fold_left (fun acc s =>
                   match acc with
                   | None => None
                   | Some vareq =>
                       if str_in (socket_name s) elemVar then
                         match get_socket_python_api ng (identifier s) with
                         | Some h => Some (dict_set (socket_name s) h vareq)
                         | None => None
                         end
                       else Some vareq
                   end) l (Some acc) = Some vareq
                /\ (forall k, In k (map fst vareq) <->
                      In k (map fst acc) \/ (In k elemVar /\ In k (map socket_name l)))
                /\ (forall k h, In (k, h) vareq ->
                      node_key h = Group_Input
                      /\ idx h < length (group_input_outputs ng))) as G.
    { induction l as [|s l IH]; intros acc I A; cbn [fold_left].
      - exists acc. split; [reflexivity|]. split; [intro k; cbn [map In]; tauto | exact A].
      - assert (incl l (group_input_outputs ng)) as I' by (intros x X; apply I; now right).
        destruct (str_in (socket_name s) elemVar) eqn:V.
        + destruct (get_socket_python_api_some ng s (I s (or_introl eq_refl)))
            as (i & -> & L).
          destruct (IH (dict_set (socket_name s) {| node_key := Group_Input; idx := i |} acc) I')
            as (vareq & F & K & R).
          { intros k h X. apply dict_set_In in X as [X|X]; [|exact (A _ _ X)].
            inversion X; subst. cbn [node_key idx]. auto. }
          exists vareq. split; [exact F|]. split; [|exact R].
          intro k. rewrite K, dict_set_keys. cbn [map In]. apply str_in_In in V.
          intuition (subst; auto).
        + destruct (IH acc I' A) as (vareq & F & K & R).
          exists vareq. split; [exact F|]. split; [|exact R].
          intro k. rewrite K. cbn [map In].
          assert (~ In (socket_name s) elemVar) as N
            by (rewrite <- str_in_In; now rewrite V).
          intuition (subst; auto). contradiction. }
    destruct (G (group_input_outputs ng) [] (incl_refl _)) as (vareq & F & K & R);
      [intros k h []|].
    exists vareq. split; [exact F|]. split; [|exact R].
    intro k. rewrite K. cbn [map In]. tauto.
Qed.

Lemma map_kind_rename (key key' : str) (l : list node) :
  ~ In key (map name l) ->
  map kind (map (fun n => if str_eqb (name n) key then with_name key' n else n) l)
  = map kind l.
Proof.
  intro N. rewrite map_map. apply map_ext_in. intros n I.
  destruct (str_eqb (name n) key) eqn:E; [|reflexivity].
  apply str_eqb_eq in E. exfalso. apply N. apply in_map_iff. eauto.
Qed.

Lemma filter_other_names (key : str) (l : list str) :
  ~ In key l -> filter (fun k => negb (str_eqb k key)) (l ++ [key]) = l.
Proof.
  intro N. rewrite filter_app. cbn [filter]. rewrite str_eqb_refl. cbn [negb].
  rewrite app_nil_r. apply forallb_filter_id, forallb_forall. intros k I.
  apply negb_true_iff. destruct (str_eqb k key) eqn:E; [|reflexivity].
  apply str_eqb_eq in E. subst. contradiction.
Qed.

(** One constant: a value node is added under a name made from the text of
    the constant. *)
Lemma add_constant_grown (ng : node_tree) (const : str) (f : node -> node) :
  (forall n, kind (f n) = kind n) ->
  let (ng1, key) := nodes_new ng VALUE in
  let (ng3, key') := rename_node (update_node ng1 key (with_default 0 const)) key const in
  grown ng (update_node ng3 key' f) [(key', VALUE)] [].
Proof.
  intro K. unfold nodes_new, rename_node.
  set (key := unique_name (default_name VALUE) (map name (nodes ng))).
  assert (~ In key (map name (nodes ng))) as FK by apply unique_name_fresh.
  cbn [update_node set_nodes nodes].
  set (n0 := {| name := key; label := []; type := VALUE; setting := [];
                location := (0, 0)%Z; width := 140%Z; default_values := [] |}).
  assert (map name (map (fun n => if str_eqb (name n) key then with_default 0 const n else n)
                        (nodes ng ++ [n0])) = map name (nodes ng) ++ [key]) as NM.
  { rewrite map_name_kind, map_kind_update by reflexivity.
    rewrite <- map_name_kind, map_app. reflexivity. }
  rewrite NM, (@filter_other_names key _ FK).
  set (key' := unique_name const (map name (nodes ng))).
  assert (~ In key' (map name (nodes ng))) as FK' by apply unique_name_fresh.
  assert (map kind
            (map (fun n => if str_eqb (name n) key then with_name key' n else n)
               (map (fun n => if str_eqb (name n) key then with_default 0 const n else n)
                  (nodes ng ++ [n0])))
          = map kind (nodes ng) ++ [(key', VALUE)]) as KD.
  { rewrite !map_app. cbn [map name n0]. rewrite str_eqb_refl.
    cbn [name with_default]. rewrite str_eqb_refl. f_equal.
    rewrite map_kind_rename.
    - now apply map_kind_update.
    - rewrite map_name_kind. rewrite map_kind_update by reflexivity.
      now rewrite <- map_name_kind. }
  unfold grown. cbn [update_node set_nodes nodes links inputs].
  rewrite map_kind_update by exact K.
  rewrite KD, app_nil_r. repeat split. intro D.
  rewrite map_name_kind, map_kind_update by exact K. rewrite KD, map_app.
  rewrite <- map_name_kind. cbn [map fst].
  apply NoDup_app; [exact D | repeat constructor; intros [] |].
  intros x X [<-|[]]. contradiction.
Qed.

(** "Add input for constant": with constants that [float] takes, one value
    node for each, and an API text of its output for each. *)
Lemma add_constants_spec (todo : list str) : forall xloc yloc ng consteq,
  forallb float_ok todo = true ->
  exists ng' consteq' added,
    add_constants todo xloc yloc ng consteq = (ng', Some consteq')
    /\ grown ng ng' added []
    /\ length added = length todo
    /\ forallb (fun k => node_type_eqb (snd k) VALUE) added = true
    /\ (forall k, In k (map fst consteq') <-> In k (map fst consteq) \/ In k todo)
    /\ (forall k h, In (k, h) consteq' ->
          In (k, h) consteq \/ (In (node_key h, VALUE) added /\ idx h = 0)).
Proof.
  induction todo as [|c todo IH]; intros xloc yloc ng consteq F.
  - exists ng, consteq, []. cbn [add_constants].
    split; [reflexivity|]. split; [apply grown_refl|].
    repeat split; cbn [In]; tauto.
  - cbn [forallb] in F. apply andb_true_iff in F as [Fc F].
    cbn [add_constants].
    pose proof (@add_constant_grown ng c
                  (fun n => with_location (xloc, yloc) (with_label c n))
                  (fun n => eq_refl)) as G.
    destruct (nodes_new ng VALUE) as [ng1 key]. rewrite Fc.
    destruct (rename_node (update_node ng1 key (with_default 0 c)) key c) as [ng3 key'].
    destruct (IH xloc (yloc - 90)%Z
                (update_node ng3 key'
                   (fun n => with_location (xloc, yloc) (with_label c n)))
                (dict_set c {| node_key := key'; idx := 0 |} consteq) F)
      as (ng' & consteq' & added & E & G' & L & V & K & R).
    exists ng', consteq', ((key', VALUE) :: added).
    split; [exact E|].
    split; [exact (grown_trans G G')|].
    split; [cbn [length]; now rewrite L|].
    split; [cbn [forallb snd node_type_eqb]; exact V|].
    split.
    + intro k. rewrite K, dict_set_keys. cbn [In]. intuition.
    + intros k h I. apply R in I as [I|[I Z]].
      * apply dict_set_In in I as [I|I]; [|now left].
        inversion I; subst. right. cbn [node_key idx]. split; [now left | reflexivity].
      * right. split; [now right | exact Z].
Qed.

(** A constant that [float] refuses stops the loop with its exception. *)
Lemma add_constants_crash (todo : list str) : forall xloc yloc ng consteq,
  forallb float_ok todo = false ->
  snd (add_constants todo xloc yloc ng consteq) = None.
Proof.
  induction todo as [|c todo IH]; intros xloc yloc ng consteq F; [discriminate|].
  cbn [forallb] in F. cbn [add_constants].
  destruct (nodes_new ng VALUE) as [ng1 key].
  destruct (float_ok c); [|reflexivity]. cbn [andb] in F.
  destruct (rename_node _ key c) as [ng3 key']. now apply IH.
Qed.




Section ReconcileFacts.
Context {H : Host}.

(** The boundary after "Create new sockets" and "Remove unused vars
    sockets". *)
Lemma reconcile_inputs (elemVar : list str) (g : node_tree) :
  ~ In [] elemVar ->
  let g' := remove_unused_sockets elemVar (create_sockets elemVar g) in
  (forall s, In s (inputs g') -> is_custom s = true \/ In (socket_name s) elemVar)
  /\ (forall v, In v elemVar -> In v (map socket_name (inputs g')))
  /\ (forall s, In s (inputs g) -> In (socket_name s) elemVar -> In s (inputs g')).
Proof.
  intros NE g'.
  destruct (remove_unused_sockets_spec elemVar (create_sockets elemVar g)) as (I & _).
  fold g' in I.
  assert (exists added,
            inputs (create_sockets elemVar g) = inputs g ++ added
            /\ Forall (fun s => is_custom s = false /\ In (socket_name s) elemVar) added
            /\ (forall v, In v elemVar ->
                  str_in v (map socket_name (group_input_outputs g)) = false ->
                  In v (map socket_name added))) as (added & C & F & A).
  { unfold create_sockets. destruct elemVar as [|e l] eqn:EV.
    - exists []. cbn [is_nil]. rewrite app_nil_r. repeat split; [constructor | intros v []].
    - cbn [is_nil]. rewrite <- EV.
      destruct (create_fold (map socket_name (group_input_outputs g)) (set_iter elemVar) g)
        as (added & C & F & A).
      exists added. repeat split; [exact C | |].
      + eapply Forall_impl; [|exact F]. cbn beta. intros s [S1 S2].
        split; [exact S1 | now apply -> set_iter_In in S2].
      + intros v V N. apply A; [now apply set_iter_In | exact N]. }
  rewrite C in I. repeat split.
  - intros s S. rewrite I in S. apply filter_In in S as [_ S].
    apply orb_true_iff in S as [S|S]; [now left | right; now apply str_in_In].
  - intros v V. rewrite I.
    destruct (str_in v (map socket_name (group_input_outputs g))) eqn:N.
    + apply str_in_In in N. unfold group_input_outputs in N.
      rewrite map_app in N. apply in_app_or in N as [N|N].
      * apply in_map_iff in N as (s & <- & S). apply in_map_iff. exists s.
        split; [reflexivity|]. apply filter_In. split; [apply in_or_app; now left|].
        apply orb_true_iff. right. now apply str_in_In.
      * cbn in N. destruct N as [<-|[]]. contradiction.
    + specialize (A v V N). apply in_map_iff in A as (s & <- & S).
      apply in_map_iff. exists s. split; [reflexivity|].
      apply filter_In. split; [apply in_or_app; now right|].
      apply orb_true_iff. right. now apply str_in_In.
  - intros s S N. rewrite I. apply filter_In. split; [apply in_or_app; now left|].
    apply orb_true_iff. right. now apply str_in_In.
Qed.

(** The tree after the boundary has been reconciled: its nodes are those of
    before. *)
Lemma reconcile_nodes (elemVar : list str) (g : node_tree) :
  nodes (remove_unused_sockets elemVar (create_sockets elemVar g)) = nodes g.
Proof.
  destruct (remove_unused_sockets_spec elemVar (create_sockets elemVar g)) as (_ & -> & _).
  apply create_sockets_nodes.
Qed.

End ReconcileFacts.

(** ** Compiling a well-formed expression *)

Section Compilation.
Context {H : Host}.

Lemma forallb_set_iter (p : str -> bool) (l : list str) :
  forallb p (set_iter l) = forallb p l.
Proof.
  destruct (forallb p l) eqn:F.
  - rewrite forallb_forall in *. intros x I. apply F. now apply -> set_iter_In in I.
  - destruct (forallb p (set_iter l)) eqn:G; [|reflexivity].
    rewrite forallb_forall in G. rewrite <- F. symmetry. apply forallb_forall.
    intros x I. apply G. now apply set_iter_In.
Qed.


End Compilation.

(** ** The exceptions of an evaluation are all caught *)

Lemma quiet_ret {A} (a : A) : quiet (ret a).
Proof. intros ng ng' x E. discriminate E. Qed.

Lemma quiet_modify (f : node_tree -> node_tree) : quiet (modify f).
Proof. intros ng ng' x E. discriminate E. Qed.

Lemma quiet_raise {A} (t : str) : quiet (@raise A (OtherError t)).
Proof. intros ng ng' x E. inversion E. reflexivity. Qed.

Lemma quiet_bind {A B} (c : M A) (k : A -> M B) :
  quiet c -> (forall a, quiet (k a)) -> quiet (bind c k).
Proof.
  intros Qc Qk ng ng' x E. unfold bind in E.
  destruct (c ng) as [ng1 [a|y]] eqn:C.
  - exact (Qk a _ _ _ E).
  - inversion E; subst. exact (Qc _ _ _ C).
Qed.

Lemma quiet_place (t : node_type) (s : str) : quiet (place t s).
Proof.
  intros ng ng' x E. apply place_spec in E as (key & E & _). discriminate E.
Qed.

Lemma quiet_id_data (o : object) : quiet (id_data o).
Proof. destruct o; cbn [id_data]; first [apply quiet_ret | apply quiet_raise]. Qed.

Lemma quiet_link_operand (o : object) (key : str) (i : nat) : quiet (link_operand o key i).
Proof. destruct o; cbn [link_operand]; first [apply quiet_modify | apply quiet_raise]. Qed.

Ltac quiet_step :=
  first [ apply quiet_ret | apply quiet_modify | apply quiet_raise | apply quiet_place
        | apply quiet_id_data | apply quiet_link_operand
        | apply quiet_bind; [|intro] ].

Lemma quiet_floatmath (op : str) (s1 : object) (s2 s3 : option object) :
  quiet (_floatmath op s1 s2 s3).
Proof.
  unfold _floatmath. repeat quiet_step.
  - destruct s2 as [o|]; [destruct (truthy (Some o))|]; repeat quiet_step.
  - destruct s3 as [o|]; [destruct (truthy (Some o))|]; repeat quiet_step.
Qed.

Lemma quiet_run (p : primitive) (args : list object) :
  length args = arity p -> quiet (run p args).
Proof.
  intro L.
  destruct p; cbn [arity] in L;
    (destruct args as [|s1 [|s2 [|s3 [|s4 args]]]]; try discriminate L); cbn [run].
  - apply quiet_floatmath.
  - apply quiet_floatmath.
  - apply quiet_floatmath.
  - unfold _floatmath_nroot. repeat quiet_step.
  - apply quiet_bind; [apply quiet_floatmath | intro; apply quiet_floatmath].
  - unfold _mix. repeat quiet_step.
  - unfold _floatclamp. repeat quiet_step.
Qed.

Lemma cooked_other (t : str) : cooked (OtherError t).
Proof. intro E. discriminate E. Qed.

Lemma cooked_plain (c : char) (t : str) :
  char_eqb (ch "N") c = false -> cooked (TypeError (c :: t)).
Proof.
  intros N _. cbn [text TypeError]. unfold cook_TypeError.
  change (py "NodeSetter.") with (ch "N" :: py "odeSetter."). cbn [strip_prefix].
  rewrite N. discriminate.
Qed.

Lemma cooked_quiet {A} (c : M A) (ng ng' : node_tree) (x : exn) :
  quiet c -> c ng = (ng', inr x) -> cooked x.
Proof. intros Q E T. rewrite (Q _ _ _ E) in T. discriminate T. Qed.

Lemma cooked_call (fname : str) (args : list object) (ng ng' : node_tree) (x : exn) :
  call_function fname args ng = (ng', inr x) -> cooked x.
Proof.
  unfold call_function. destruct (lookup fname) as [p|] eqn:L.
  - destruct (lookup_plain _ L) as [P _].
    destruct (Nat.ltb (length args) (arity p)) eqn:Lt.
    + intro E. inversion E; subst. intros _. cbn [text TypeError].
      apply Nat.ltb_lt in Lt.
      rewrite cook_missing; [discriminate | exact P |].
      split; [exact Lt | destruct p; cbn [arity]; lia].
    + destruct (Nat.ltb (arity p) (length args)) eqn:Gt.
      * intro E. inversion E; subst. intros _. cbn [text TypeError].
        rewrite cook_takes by exact P. discriminate.
      * apply Nat.ltb_ge in Lt, Gt. intro E. eapply cooked_quiet; [|exact E].
        apply quiet_run. lia.
  - intro E. inversion E. apply cooked_other.
Qed.

Section Caught.
Context {H : Host}.
Variable api : list (str * handle).

Lemma resolve_quiet (h : handle) : quiet (resolve h).
Proof.
  intros ng ng' x. unfold resolve. destruct (get_node ng (node_key h)).
  - destruct (Nat.ltb _ _); intro E; inversion E; reflexivity.
  - intro E; inversion E; reflexivity.
Qed.

Lemma eval_list_cooked (l : list expr) :
  Forall (fun e => forall ng ng' x, eval api e ng = (ng', inr x) -> cooked x) l ->
  forall ng ng' x, eval_list api l ng = (ng', inr x) -> cooked x.
Proof.
  induction 1 as [|e l He Hl IH]; intros ng ng' x E; cbn [eval_list] in E.
  - discriminate E.
  - unfold bind in E. destruct (eval api e ng) as [ng1 [v|y]] eqn:E1.
    + destruct (eval_list api l ng1) as [ng2 [vs|y]] eqn:E2.
      * discriminate E.
      * inversion E; subst. exact (IH _ _ _ E2).
    + inversion E; subst. exact (He _ _ _ E1).
Qed.

(** Every exception that the evaluation of an expression raises is one that
    the handlers of [execute_function_expression] turn into a message. *)
Lemma eval_cooked (e : expr) : forall ng ng' x,
  eval api e ng = (ng', inr x) -> cooked x.
Proof.
  induction e as [id|v|l op r IHl IHr|op e IH|fn args IHf IHargs|elts IH]
    using expr_rect_nested; intros ng ng' x E.
  - cbn [eval] in E. destruct (dict_get id api) as [h|].
    + eapply cooked_quiet; [apply (resolve_quiet h) | exact E].
    + destruct (str_in id funct_namespace); [discriminate E|].
      inversion E. apply cooked_other.
  - cbn [eval] in E. destruct (dict_get v api) as [h|]; [|discriminate E].
    destruct (numeric_token v); [|discriminate E].
    eapply cooked_quiet; [apply (resolve_quiet h) | exact E].
  - cbn [eval] in E. unfold bind in E.
    destruct (eval api l ng) as [ng1 [a|y]] eqn:E1.
    + destruct (eval api r ng1) as [ng2 [b|y]] eqn:E2.
      * inversion E; subst. destruct op; now apply cooked_plain.
      * inversion E; subst. exact (IHr _ _ _ E2).
    + inversion E; subst. exact (IHl _ _ _ E1).
  - cbn [eval] in E. unfold bind in E.
    destruct (eval api e ng) as [ng1 [o|y]] eqn:E1.
    + destruct o; try discriminate E; inversion E; subst; now apply cooked_plain.
    + inversion E; subst. exact (IH _ _ _ E1).
  - rewrite eval_Call in E. unfold bind in E.
    destruct (eval api fn ng) as [ng1 [f|y]] eqn:E1.
    + destruct (eval_list api args ng1) as [ng2 [vs|y]] eqn:E2.
      * destruct f; try (inversion E; subst; now apply cooked_plain).
        eapply cooked_call; exact E.
      * inversion E; subst. eapply eval_list_cooked; [exact IHargs | exact E2].
    + inversion E; subst. exact (IHf _ _ _ E1).
  - cbn [eval] in E. 
    change ((fix eval_list (l : list expr) : M (list object) :=
               match l with
               | [] => ret []
               | x :: l' => v <- eval api x;; vs <- eval_list l';; ret (v :: vs)
               end) elts) with (eval_list api elts) in E.
    unfold bind in E.
    destruct (eval_list api elts ng) as [ng1 [vs|y]] eqn:E1; [discriminate E|].
    inversion E; subst. eapply eval_list_cooked; [exact IH | exact E1].
Qed.

End Caught.

Lemma final_link_caught (elemVar elemConst : list str) (ng : node_tree) :
  snd (final_link elemVar elemConst ng) <> Uncaught.
Proof.
  unfold final_link.
  destruct (match active ng with Some a => _ | None => _ end) as [last|];
    [destruct (get_node ng Group_Output) as [out|]; [destruct (Nat.ltb _ _)|]|];
    cbn [snd]; discriminate.
Qed.

Lemma message_not_empty (e : error) : message e <> [].
Proof. destruct e; cbn [message]; discriminate. Qed.

Section PassOutcomes.
Context {H : Host}.

(** [execute_function_expression] lets no exception through. *)
Lemma execute_caught (elemVar elemConst : list str) (e : expr) (ng : node_tree)
    (varsapi constapi : list (str * handle)) :
  snd (execute_function_expression elemVar elemConst e ng varsapi constapi) <> Uncaught.
Proof.
  unfold execute_function_expression.
  destruct (eval (dict_merge varsapi constapi) e ng) as [ng1 [o|x]] eqn:E.
  - apply final_link_caught.
  - destruct (is_TypeError x) eqn:T; [|cbn [snd]; discriminate].
    pose proof (eval_cooked _ _ _ E T) as C.
    destruct (cook_TypeError (text x)); [cbn [snd]; discriminate | congruence].
Qed.

Ltac rest_not_crashed :=
  match goal with |- context [if ?b then (_, NoElements) else _] => destruct b end;
  [cbn [snd]; discriminate|];
  destruct (transform_expression _) as [?fctexp|?err]; [|cbn [snd]; discriminate];
  match goal with
  | |- context [execute_function_expression ?a ?b ?c ?d ?e ?f] =>
      let U := fresh "U" in
      pose proof (execute_caught a b c d e f) as U;
      destruct (execute_function_expression a b c d e f) as [?ng [| |]]
  end; cbn [snd] in *; congruence.

Lemma crash_cause (fuel : nat) (self : customnode) (el : elements)
    (r : str + error) :
  get_node (node_tree_of self) Group_Input <> None ->
  get_node (node_tree_of self) Group_Output <> None ->
  auto_symbols self = false
    \/ match_exact_tokens (user_mathexp self) (map macro IRRATIONALS) = [] ->
  sanatize_expression (implicit_mult self) (user_mathexp self) = (el, r) ->
  (snd (apply_expression (S fuel) self) = Crashed
   <-> (exists t, r = inl t) /\ forallb float_ok (elemConst el) = false).
Proof.
  intros GI GO R S.
  cbn [apply_expression].
  destruct (get_node (node_tree_of self) Group_Input) as [in_nod|]; [|congruence].
  destruct (get_node (node_tree_of self) Group_Output) as [out_nod|]; [|congruence].
  cbn [auto_symbols user_mathexp implicit_mult set_messages node_tree_of].
  assert ((if auto_symbols self
           then match_exact_tokens (user_mathexp self) (map macro IRRATIONALS)
           else []) = []) as ->
    by (destruct R as [-> | ->]; [reflexivity | now destruct (auto_symbols self)]).
  cbn [existsb]. rewrite S.
  destruct r as [t|err].
  2:{ cbn [snd]. split; [discriminate | intros [[t X] _]; discriminate X]. }
  set (ng3 := remove_unused_sockets (elemVar el)
                (create_sockets (elemVar el) (clear_node_tree (node_tree_of self)))).
  destruct (fill_vareq_spec (elemVar el) ng3) as (vareq & -> & _).
  destruct (elemConst el) as [|c0 cs] eqn:EC.
  - cbn [is_nil forallb].
    split; [intro X; exfalso; revert X; rest_not_crashed | intros [_ X]; discriminate X].
  - cbn [is_nil]. rewrite <- EC in *.
    destruct (forallb float_ok (elemConst el)) eqn:F.
    + destruct (@add_constants_spec (set_iter (elemConst el)) (fst (location in_nod))
                  (snd (location in_nod) - 330)%Z ng3 [])
        as (ng4 & consteq & consts & -> & _).
      { now rewrite forallb_set_iter. }
      split; [intro X; exfalso; revert X; rest_not_crashed | intros [_ X]; discriminate X].
    + pose proof (@add_constants_crash (set_iter (elemConst el)) (fst (location in_nod))
                    (snd (location in_nod) - 330)%Z ng3 []) as C.
      rewrite forallb_set_iter in C. specialize (C F).
      destruct (add_constants _ _ _ _ _) as [ng4 o]. cbn [snd] in C. subst o.
      cbn [snd]. split; [eauto | reflexivity].
Qed.

(** X16. A pass on a tree with its two boundary nodes, in which the
    sanitizer has accepted the text with a constant that [float] refuses (one
    with more than one point), ends in an exception that nothing catches.
    Over a sanitized text of [DEPTH] characters at most that is the only way
    for a pass to end so: every other fault is reported as a message. *)
Theorem crash_only_on_constants (fuel : nat) (self : customnode) (el : elements)
    (r : str + error) :
  get_node (node_tree_of self) Group_Input <> None ->
  get_node (node_tree_of self) Group_Output <> None ->
  auto_symbols self = false
    \/ match_exact_tokens (user_mathexp self) (map macro IRRATIONALS) = [] ->
  sanatize_expression (implicit_mult self) (user_mathexp self) = (el, r) ->
  ((exists t, r = inl t) /\ forallb float_ok (elemConst el) = false ->
   snd (apply_expression (S fuel) self) = Crashed)
  /\ ((forall t, r = inl t -> length t <= DEPTH) ->
      snd (apply_expression (S fuel) self) = Crashed ->
      (exists t, r = inl t) /\ forallb float_ok (elemConst el) = false).
Proof.
  intros GI GO R S. pose proof (crash_cause fuel self GI GO R S) as [A B].
  split; [exact B | intros _; exact A].
Qed.

End PassOutcomes.

(** ** Messages, and a boundary that is already reconciled *)

Section Reports.
Context {H : Host}.

(** X17. What the node shows after a pass: the message of the failure when
    the pass ends in the sanitizer, in the lowering or in the execution, and
    no message when it is applied or ends for want of elements.  A message is
    never empty, so that the node shows an error exactly when the pass has
    reported one. *)
Theorem pass_messages (fuel : nat) : forall self self' x,
  apply_expression fuel self = (self', x) ->
  match x with
  | SanitizeFailed e =>
      error_message self' = message e /\ error_message self' <> []
      /\ debug_sanatized self' = py "Failed" /\ debug_fctexp self' = []
  | TransformFailed e =>
      error_message self' = message e /\ error_message self' <> []
      /\ debug_fctexp self' = py "Failed"
  | ExecuteFailed e => error_message self' = message e /\ error_message self' <> []
  | Applied => error_message self' = []
  | NoElements => error_message self' = [] /\ debug_fctexp self' = []
  | Crashed | OutOfFuel => True
  end.
Proof.
  induction fuel as [|fuel IH]; intros self self' x E.
  - inversion E. exact I.
  - cbn [apply_expression] in E.
    destruct (get_node (node_tree_of self) Group_Input) as [in_nod|];
      [|inversion E; exact I].
    destruct (get_node (node_tree_of self) Group_Output) as [out_nod|];
      [|inversion E; exact I].
    destruct (existsb _ _) in E; [now apply IH in E|].
    destruct (sanatize_expression _ _) as [el [t|err]] in E.
    + destruct (fill_vareq _ _) in E; [|inversion E; exact I].
      destruct (if is_nil (elemConst el) then _ else _) as [ng4 [consteq|]] in E;
        [|inversion E; exact I].
      destruct (is_nil (elemVar el) && is_nil (elemConst el)).
      * inversion E. split; reflexivity.
      * destruct (transform_expression t) as [fctexp|err].
        -- destruct (execute_function_expression _ _ _ _ _ _) as [ng5 [|e|]];
             inversion E; subst; cbn [error_message set_messages set_node_tree];
             try exact I; try reflexivity.
           split; [reflexivity | apply message_not_empty].
        -- inversion E; subst. cbn [error_message debug_fctexp set_messages].
           split; [reflexivity|]. split; [apply message_not_empty | reflexivity].
    + inversion E; subst.
      cbn [error_message debug_fctexp debug_sanatized set_messages].
      split; [reflexivity|]. split; [apply message_not_empty|]. split; reflexivity.
Qed.

Lemma create_fold_present (current l : list str) : forall g,
  (forall v, In v l -> str_in v current = true) ->
  fold_left (fun g var => if str_in var current then g else create_socket g var) l g = g.
Proof.
  induction l as [|v l IH]; intros g A; cbn [fold_left]; [reflexivity|].
  rewrite (A v (or_introl eq_refl)). apply IH. intros w W. apply A. now right.
Qed.

Lemma filter_nil {A} (p : A -> bool) (l : list A) :
  (forall x, In x l -> p x = false) -> filter p l = [].
Proof.
  induction l as [|x l IH]; intro A0; cbn [filter]; [reflexivity|].
  rewrite (A0 x (or_introl eq_refl)). apply IH. intros y Y. apply A0. now right.
Qed.

Lemma enumerate_from_In {A} (l : list A) : forall k i x,
  In (i, x) (enumerate_from k l) -> In x l.
Proof.
  induction l as [|y l IH]; intros k i x I; cbn [enumerate_from] in I; [destruct I|].
  destruct I as [E|I]; [inversion E; now left | right; eapply IH; exact I].
Qed.

(** X18. Reconciling the boundary is idempotent: on a boundary that "Create
    new sockets" and "Remove unused vars sockets" have been through for a set
    of variables, the two steps for the same set change nothing, so that a
    second pass over the same variables keeps every socket, with its
    identifier and its place. *)
Theorem reconciliation_idempotent (elemVar : list str) (g : node_tree) :
  ~ In [] elemVar ->
  let g' := remove_unused_sockets elemVar (create_sockets elemVar g) in
  remove_unused_sockets elemVar (create_sockets elemVar g') = g'.
Proof.
  intros NE g'.
  destruct (@reconcile_inputs H elemVar g NE) as (A & B & _). fold g' in A, B.
  assert (create_sockets elemVar g' = g') as ->.
  { unfold create_sockets. destruct (is_nil elemVar); [reflexivity|].
    apply create_fold_present. intros v V. apply -> set_iter_In in V.
    apply str_in_In. unfold group_input_outputs. rewrite map_app.
    apply in_or_app. left. now apply B. }
  unfold remove_unused_sockets. rewrite filter_nil; [reflexivity|].
  intros [i s] I. cbn [snd]. unfold enumerate in I. apply enumerate_from_In in I.
  unfold group_input_outputs in I. apply in_app_or in I as [I|[<-|[]]].
  - destruct (A s I) as [C|V]; [now rewrite C|].
    apply str_in_In in V. rewrite V. now rewrite andb_false_r.
  - reflexivity.
Qed.

End Reports.

(** ** A run of superscripts *)

Lemma span_app_stop (p : char -> bool) (a b : str) :
  forallb p a = true ->
  match b with c :: _ => p c = false | [] => True end ->
  span p (a ++ b) = (a, b).
Proof.
  intros F S. induction a as [|c a IH]; cbn [app].
  - destruct b as [|c b]; [reflexivity|]. cbn [span]. now rewrite S.
  - cbn [forallb] in F. apply andb_true_iff in F as [Fc F].
    cbn [span]. rewrite Fc, (IH F). reflexivity.
Qed.

Lemma superscript_not_base (c : char) : is_superscript c = true -> base_char c = false.
Proof.
  unfold is_superscript. intro S. apply char_in_In in S.
  assert (forallb (fun y => negb (base_char y)) (map fst SUPERSCRIPTS) = true) as F
    by reflexivity.
  rewrite forallb_forall in F. apply negb_true_iff. now apply F.
Qed.

Lemma superscript_digit_plain (c x : char) :
  In x (superscript_digit c) -> is_superscript x = false.
Proof.
  unfold superscript_digit. destruct (find _ SUPERSCRIPTS) as [[k d]|] eqn:F; [|intros []].
  intros [<-|[]]. apply find_some in F as [I _].
  assert (forallb (fun kv => negb (is_superscript (snd kv))) SUPERSCRIPTS = true) as G
    by reflexivity.
  rewrite forallb_forall in G. apply negb_true_iff. exact (G _ I).
Qed.

(** X19. A run of superscripts that follows a run of letters, digits and
    irrational glyphs is rewritten as a unit into a power of the whole run
    before it, in parentheses: the base is everything of that kind that
    stands before the superscripts, digits included. *)
Theorem superscript_run_rewritten (base superscripts : str) :
  base <> [] -> forallb base_char base = true ->
  superscripts <> [] -> forallb is_superscript superscripts = true ->
  replace_superscript_exponents (base ++ superscripts)
  = py "(" ++ base ++ py "**" ++ flat_map superscript_digit superscripts ++ py ")".
Proof.
  intros NB FB NS FS. unfold replace_superscript_exponents.
  assert (re_sub pattern_base repl_base (base ++ superscripts)
          = py "(" ++ base ++ py "**" ++ flat_map superscript_digit superscripts ++ py ")")
    as ->.
  { unfold re_sub, pieces.
    change (2 * S (length (base ++ superscripts)))
      with (S (length (base ++ superscripts) + S (length (base ++ superscripts) + 0))).
    cbn [re_scan]. unfold pattern_base at 1.
    rewrite span_app_stop; [|exact FB|].
    2:{ destruct superscripts as [|c s]; [exact I|].
        cbn [forallb] in FS. apply andb_true_iff in FS as [Fc _].
        now apply superscript_not_base. }
    rewrite <- (app_nil_r superscripts) at 1.
    rewrite span_app_stop by (exact FS || exact I).
    destruct base as [|b0 base']; [congruence|].
    destruct superscripts as [|s0 sups']; [congruence|]. cbn [is_nil orb].
    match goal with
    | |- context [re_scan ?f ?m ?a ?p []] =>
        assert (re_scan f m a p [] = []) as -> by (destruct f; reflexivity)
    end.
    cbn [flat_map]. rewrite app_nil_r. reflexivity. }
  apply (re_sub_none pattern_paren repl_paren (fun s => existsb is_superscript s = false)).
  - intros adv prev s E. unfold pattern_paren. destruct s as [|c r]; [reflexivity|].
    destruct (char_eqb c (ch ")")); [|reflexivity].
    cbn [existsb] in E. apply orb_false_iff in E as [_ E].
    rewrite span_none by exact E. reflexivity.
  - intros c s E. cbn [existsb] in E. now apply orb_false_iff in E.
  - rewrite !existsb_app. 
    assert (existsb is_superscript base = false) as ->.
    { destruct (existsb is_superscript base) eqn:X; [|reflexivity].
      apply existsb_exists in X as (c & I & S). apply superscript_not_base in S.
      rewrite forallb_forall in FB. rewrite (FB c I) in S. discriminate. }
    assert (existsb is_superscript (flat_map superscript_digit superscripts) = false) as ->.
    { destruct (existsb _ (flat_map _ _)) eqn:X; [|reflexivity].
      apply existsb_exists in X as (c & I & S). apply in_flat_map in I as (k & _ & I).
      apply superscript_digit_plain in I. congruence. }
    reflexivity.
Qed.

(** ** The API text of a variable; a tuple as operand *)

Lemma find_index_nth {A} (p : A -> bool) (l : list A) : forall i,
  find_index p l = Some i -> exists x, nth_error l i = Some x /\ p x = true.
Proof.
  induction l as [|y l IH]; intros i E; cbn [find_index] in E; [discriminate|].
  destruct (p y) eqn:P.
  - inversion E; subst. exists y. auto.
  - destruct (find_index p l) as [j|]; [|discriminate]. inversion E; subst.
    destruct (IH j eq_refl) as (x & N & X). exists x. auto.
Qed.

Lemma NoDup_map_eq {A B} (f : A -> B) (l : list A) (x y : A) :
  NoDup (map f l) -> In x l -> In y l -> f x = f y -> x = y.
Proof.
  induction l as [|z l IH]; intros N X Y E; [destruct X|].
  cbn [map] in N. inversion N as [|? ? Z N']; subst.
  destruct X as [->|X], Y as [->|Y]; auto.
  - exfalso. apply Z. rewrite E. now apply in_map.
  - exfalso. apply Z. rewrite <- E. now apply in_map.
Qed.

(** What holds of every entry that "Fill equivalence dict" writes holds of
    every entry of the dict. *)
Lemma fill_vareq_entries (P : str -> handle -> Prop) (elemVar : list str) (ng : node_tree)
    (vareq : list (str * handle)) :
  (forall s h, In s (group_input_outputs ng) ->
               str_in (socket_name s) elemVar = true ->
               get_socket_python_api ng (identifier s) = Some h -> P (socket_name s) h) ->
  fill_vareq elemVar ng = Some vareq ->
  forall k h, In (k, h) vareq -> P k h.
Proof.
  intro A. unfold fill_vareq. destruct (is_nil elemVar).
  - intro E. inversion E. intros k h [].
  - generalize (incl_refl (group_input_outputs ng)).
    assert (match Some (@nil (str * handle)) with
            | Some d => forall k h, In (k, h) d -> P k h
            | None => True
            end) as I0 by (intros k h []).
    revert I0. generalize (Some (@nil (str * handle))).
    generalize (group_input_outputs ng) at 1 3.
    intro l. revert vareq. induction l as [|s l IH]; intros vareq acc I0 I E; cbn [fold_left] in E.
    + subst acc. exact I0.
    + eapply IH; [| |exact E].
      * destruct acc as [d|]; [|exact Logic.I].
        destruct (str_in (socket_name s) elemVar) eqn:V; [|exact I0].
        destruct (get_socket_python_api ng (identifier s)) as [h0|] eqn:G; [|exact Logic.I].
        intros k h X. apply dict_set_In in X as [X|X]; [|exact (I0 _ _ X)].
        inversion X; subst. apply A; auto. apply I. now left.
      * intros x X. apply I. now right.
Qed.

(** X20. With identifiers that are unique among the outputs of Group
    Input, the API text that "Fill equivalence dict" records for a variable
    denotes an output of Group Input that bears the name of the variable. *)
Theorem variable_api_denotes_socket (elemVar : list str) (ng : node_tree)
    (vareq : list (str * handle)) (v : str) (h : handle) :
  NoDup (map identifier (group_input_outputs ng)) ->
  fill_vareq elemVar ng = Some vareq ->
  dict_get v vareq = Some h ->
  node_key h = Group_Input
  /\ In v elemVar
  /\ exists s, nth_error (group_input_outputs ng) (idx h) = Some s /\ socket_name s = v.
Proof.
  intros N F D. apply dict_get_In in D. revert v h D.
  apply (@fill_vareq_entries
           (fun v h => node_key h = Group_Input /\ In v elemVar
                       /\ exists s, nth_error (group_input_outputs ng) (idx h) = Some s
                                    /\ socket_name s = v) elemVar ng vareq); [|exact F].
  intros s h I V G. unfold get_socket_python_api in G.
  destruct (find_index _ _) as [i|] eqn:FI; [|discriminate]. inversion G; subst.
  cbn [node_key idx]. split; [reflexivity|]. split; [now apply str_in_In|].
  apply find_index_nth in FI as (s' & NT & E). apply Nat.eqb_eq in E.
  exists s'. split; [exact NT|].
  f_equal. apply (NoDup_map_eq identifier _ _ _ N); auto.
  eapply nth_error_In; exact NT.
Qed.

Section TupleOperand.
Context {H : Host}.

(** X21. A call of a registry function whose first operand is a tuple, with
    as many operands as the function takes: the execution adds no node for
    the call and reports the wrong use of the tuple syntax. *)
Theorem tuple_operand_reported (elemVar elemConst : list str)
    (varsapi constapi : list (str * handle)) (fname : str) (p : primitive)
    (args : list expr) (ng ng' : node_tree) (items rest : list object) :
  lookup fname = Some p ->
  dict_get fname (dict_merge varsapi constapi) = None ->
  eval_list (dict_merge varsapi constapi) args ng = (ng', inl (TupleObject items :: rest)) ->
  S (length rest) = arity p ->
  execute_function_expression elemVar elemConst (Call (Name fname) args) ng
                              varsapi constapi
  = (ng', ReturnException WrongTupleSyntax).
Proof.
  intros L D E A.
  destruct (lookup_plain _ L) as [_ F].
  unfold execute_function_expression. rewrite eval_Call.
  unfold bind at 1. cbn [eval]. rewrite D, F. unfold ret at 1.
  unfold bind at 1. rewrite E.
  unfold call_function. rewrite L. cbn [length]. rewrite A, Nat.ltb_irrefl.
  destruct p; cbn [arity] in A;
    (destruct rest as [|s2 [|s3 [|s4 rest]]]; try discriminate A); cbn [run];
    reflexivity.
Qed.

End TupleOperand.

(** ** What a failed pass leaves *)

Section FailedPass.
Context {H : Host}.

Lemma sort_explicit_vars (todo : list str) : forall el el' r,
  sort_explicit todo el = (el', r) ->
  (forall x, In x (elemVar el) -> isalpha x = true) ->
  forall x, In x (elemVar el') -> isalpha x = true.
Proof.
  induction todo as [|e todo IH]; intros el el' r E A; cbn [sort_explicit] in E.
  - now inversion E; subst.
  - destruct (str_in e funct_namespace); [exact (IH _ _ _ E A)|].
    destruct (isdigit _); [exact (IH _ _ _ E A)|].
    destruct (isalpha e) eqn:L; [|now inversion E; subst].
    apply (IH _ _ _ E). cbn [add_var elemVar]. intros x I.
    apply set_add_In in I as [->|I]; auto.
Qed.

Lemma sort_implicit_vars (expression : str) (todo : list str) : forall el el' r,
  sort_implicit expression todo el = (el', r) ->
  (forall x, In x (elemVar el) -> isalpha x = true) ->
  forall x, In x (elemVar el') -> isalpha x = true.
Proof.
  induction todo as [|e todo IH]; intros el el' r E A; cbn [sort_implicit] in E.
  - now inversion E; subst.
  - destruct (_ && _); [exact (IH _ _ _ E A)|].
    destruct (isdigit _); [exact (IH _ _ _ E A)|].
    destruct (isalpha e) eqn:L.
    + apply (IH _ _ _ E). cbn [add_var elemVar]. intros x I.
      apply set_add_In in I as [->|I]; auto.
    + destruct (existsb _ e); [exact (IH _ _ _ E A) | now inversion E; subst].
Qed.

(** No variable of the sanitizer is the empty text. *)
Lemma sanatized_vars (implicit : bool) (expression : str) (el : elements)
    (r : str + error) :
  sanatize_expression implicit expression = (el, r) -> ~ In [] (elemVar el).
Proof.
  unfold sanatize_expression.
  destruct (if implicit then _ else _) as [el0 failure] eqn:S. intros E I.
  assert (el0 = el) as ->
    by (destruct failure; [|destruct (find _ _)]; now inversion E).
  assert (isalpha [] = true) as X; [|discriminate X].
  destruct implicit.
  - eapply sort_implicit_vars; [exact S | intros x [] | exact I].
  - eapply sort_explicit_vars; [exact S | intros x [] | exact I].
Qed.

(** The state in which a pass that ends in the lowering leaves the node: the
    elements are those of the sanitizer, and the tree is the one that was
    there, cleared, with its boundary reconciled and the constants added. *)
Lemma transform_exit_state (fuel : nat) : forall self self' e,
  apply_expression fuel self = (self', TransformFailed e) ->
  exists text t in_nod consteq,
    get_node (node_tree_of self) Group_Input = Some in_nod
    /\ sanatize_expression (implicit_mult self) text = (elems self', inl t)
    /\ (if is_nil (elemConst (elems self'))
        then (remove_unused_sockets (elemVar (elems self'))
                (create_sockets (elemVar (elems self'))
                   (clear_node_tree (node_tree_of self))), Some [])
        else add_constants (set_iter (elemConst (elems self')))
               (fst (location in_nod)) (snd (location in_nod) - 330)%Z
               (remove_unused_sockets (elemVar (elems self'))
                  (create_sockets (elemVar (elems self'))
                     (clear_node_tree (node_tree_of self)))) [])
       = (node_tree_of self', Some consteq).
Proof.
  induction fuel as [|fuel IH]; intros self self' e E.
  - discriminate.
  - cbn [apply_expression] in E.
    destruct (get_node (node_tree_of self) Group_Input) as [in_nod|] eqn:GI; [|discriminate].
    destruct (get_node (node_tree_of self) Group_Output); [|discriminate].
    destruct (existsb _ _) in E.
    + apply IH in E as (text & t & i & c & G & S & A).
      cbn [set_user_mathexp set_messages node_tree_of implicit_mult] in *.
      rewrite GI in G. inversion G; subst i. eauto 8.
    + cbn [set_messages implicit_mult user_mathexp] in E.
      destruct (sanatize_expression _ _) as [el [t|err]] eqn:S in E; [|discriminate].
      destruct (fill_vareq _ _) in E; [|discriminate].
      destruct (if is_nil (elemConst el) then _ else _) as [g2 [consteq|]] eqn:A in E;
        [|discriminate].
      destruct (is_nil (elemVar el) && is_nil (elemConst el)); [discriminate|].
      destruct (transform_expression t) as [fctexp|err].
      * destruct (execute_function_expression _ _ _ _ _ _) as [g3 []]; discriminate.
      * inversion E; subst.
        cbn [set_messages set_node_tree set_elems elems node_tree_of] in *.
        exists (user_mathexp self), t, in_nod, consteq. auto.
Qed.

(** C1 (amended). A pass that fails in the sanitizer (a token or a character
    it does not recognize) leaves the target graph exactly as it was.  A pass
    that fails in the parsing or lowering has by then cleared the interior
    nodes, reconciled the boundary and created the constant nodes: what it
    leaves holds no operation node; its inputs are the custom ones and those
    named by a variable of the text, every variable has its input, and an
    input that was there under a variable's name is kept; and, node names
    being unique, its nodes are the boundary nodes that were there and then
    one value node for each constant of the text. *)
Theorem failure_and_graph (fuel : nat) (self self' : customnode) (x : exit) :
  apply_expression fuel self = (self', x) ->
  match x with
  | SanitizeFailed e =>
      node_tree_of self' = node_tree_of self
      /\ error_message self' = message e
      /\ ((exists t, e = UnrecognizedVariable t) \/ (exists c, e = UnrecognizedSymbol c))
  | TransformFailed e =>
      forallb operation_free (nodes (node_tree_of self')) = true
      /\ (e = ExpressionNotRecognized \/ exists fname, e = FunctionNotRecognized fname)
      /\ (forall s, In s (inputs (node_tree_of self')) ->
            is_custom s = true \/ In (socket_name s) (elemVar (elems self')))
      /\ (forall v, In v (elemVar (elems self')) ->
            In v (map socket_name (inputs (node_tree_of self'))))
      /\ (forall s, In s (inputs (node_tree_of self)) ->
            In (socket_name s) (elemVar (elems self')) ->
            In s (inputs (node_tree_of self')))
      /\ (NoDup (map name (nodes (node_tree_of self))) ->
          exists consts,
            map kind (nodes (node_tree_of self'))
            = map kind (filter boundary_type (nodes (node_tree_of self))) ++ consts
            /\ length consts = length (elemConst (elems self'))
            /\ forallb (fun k => node_type_eqb (snd k) VALUE) consts = true)
  | _ => True
  end.
Proof.
  intro E. destruct x; try exact I.
  - apply sanitize_exit in E as (E1 & E2 & text & el & S).
    repeat split; try assumption.
    apply sanatize_failure in S as [(t & -> & _)|(c & -> & _)]; eauto.
  - pose proof (transform_exit _ _ E) as [F K].
    apply transform_exit_state in E as (text & t & in_nod & consteq & GI & S & A).
    split; [exact F|]. split; [exact K|].
    set (el := elems self') in *. set (ng0 := node_tree_of self) in *.
    set (g1 := remove_unused_sockets (elemVar el)
                 (create_sockets (elemVar el) (clear_node_tree ng0))) in *.
    pose proof (sanatized_vars _ _ S) as NE.
    pose proof (@reconcile_inputs H (elemVar el) (clear_node_tree ng0) NE) as (R1 & R2 & R3).
    fold g1 in R1, R2, R3.
    assert (exists consts, grown g1 (node_tree_of self') consts []
                           /\ length consts = length (elemConst el)
                           /\ forallb (fun k => node_type_eqb (snd k) VALUE) consts = true)
      as (consts & G & LC & VC).
    { destruct (elemConst el) as [|c0 cs] eqn:EC.
      - cbn [is_nil] in A. inversion A; subst. exists []. split; [apply grown_refl|].
        split; reflexivity.
      - cbn [is_nil] in A. rewrite <- EC in *.
        destruct (forallb float_ok (set_iter (elemConst el))) eqn:FO.
        + destruct (@add_constants_spec (set_iter (elemConst el)) (fst (location in_nod))
                      (snd (location in_nod) - 330)%Z g1 [] FO)
            as (ng4 & cq & consts & E4 & G & L & V & _).
          rewrite E4 in A. inversion A; subst. exists consts. split; [exact G|].
          split; [|exact V]. rewrite L. apply Permutation_length, set_iter_perm.
        + pose proof (@add_constants_crash (set_iter (elemConst el)) (fst (location in_nod))
                        (snd (location in_nod) - 330)%Z g1 [] FO) as C.
          rewrite A in C. discriminate C. }
    destruct G as (N & _ & IN & _).
    assert (inputs (clear_node_tree ng0) = inputs ng0) as IC
      by (destruct (clear_node_tree_spec ng0) as (_ & IC' & _); exact IC').
    rewrite IN. split; [exact R1|]. split; [exact R2|]. split.
    + intros s. rewrite <- IC. apply R3.
    + intro D. exists consts. split; [|split; [exact LC | exact VC]].
      rewrite N. unfold g1. rewrite reconcile_nodes, clear_node_tree_nodes by exact D.
      reflexivity.
Qed.

End FailedPass.

(** [foo(2)+b] typed into a node that had compiled [a+b]. *)
Lemma failure_and_graph_witness :
  apply_expression (H := excerpt) 1 (set_user_mathexp compiled_a_plus_b (py "foo(2)+b"))
  = (fst (apply_expression (H := excerpt) 1
            (set_user_mathexp compiled_a_plus_b (py "foo(2)+b"))),
     TransformFailed (FunctionNotRecognized (py "foo")))
  /\ map kind (nodes (node_tree_of (fst (apply_expression (H := excerpt) 1
                 (set_user_mathexp compiled_a_plus_b (py "foo(2)+b"))))))
     = [(Group_Input, GROUP_INPUT); (Group_Output, GROUP_OUTPUT); (py "2", VALUE)]
  /\ forall v, In v (elemVar (elems (fst (apply_expression (H := excerpt) 1
                        (set_user_mathexp compiled_a_plus_b (py "foo(2)+b")))))) ->
       In v (map socket_name
               (inputs (node_tree_of (fst (apply_expression (H := excerpt) 1
                          (set_user_mathexp compiled_a_plus_b (py "foo(2)+b"))))))).
Proof.
  assert (apply_expression (H := excerpt) 1
            (set_user_mathexp compiled_a_plus_b (py "foo(2)+b"))
          = (fst (apply_expression (H := excerpt) 1
                    (set_user_mathexp compiled_a_plus_b (py "foo(2)+b"))),
             TransformFailed (FunctionNotRecognized (py "foo")))) as E
    by (vm_compute; reflexivity).
  split; [exact E|]. split; [vm_compute; reflexivity|].
  exact (proj1 (proj2 (proj2 (proj2 (@failure_and_graph excerpt 1 _ _ _ E))))).
Defined.

(** ** A text of one variable, a text of one constant *)

Section BareToken.
Context {H : Host}.








End BareToken.

(** ** The properties at work *)

(** The glyph of pi in [2*π]. *)
Lemma matched_tokens_listed_witness :
  map unicode IRRATIONALS <> []
  /\ In (py "π") (match_exact_tokens (H := excerpt) (py "2*π") (map unicode IRRATIONALS))
  /\ In (py "π") (map unicode IRRATIONALS)
  /\ substring_in (py "π") (py "2*π") = true.
Proof.
  assert (map unicode IRRATIONALS <> []) as N by discriminate.
  assert (In (py "π") (match_exact_tokens (H := excerpt) (py "2*π") (map unicode IRRATIONALS)))
    as I by (vm_compute; left; reflexivity).
  split; [exact N|]. split; [exact I|].
  exact (proj1 (@matched_tokens_listed excerpt (py "2*π") (map unicode IRRATIONALS))
               N (py "π") I).
Defined.

(** The text [12] under a substitution with the keys [x] and [2]. *)
Lemma whole_token_substitution_witness :
  forallb (key_ok (H := excerpt))
          (map fst [(py "x", py "ng.nodes['Group Input'].outputs[0]");
                    (py "2", py "ng.nodes['2'].outputs[0]")]) = true
  /\ (forallb ascii_alpha (py "12") = true \/ forallb digit_or_point (py "12") = true)
  /\ replace_exact_tokens (H := excerpt) (py "12")
       [(py "x", py "ng.nodes['Group Input'].outputs[0]");
        (py "2", py "ng.nodes['2'].outputs[0]")]
     = mapping_get [(py "x", py "ng.nodes['Group Input'].outputs[0]");
                    (py "2", py "ng.nodes['2'].outputs[0]")] (py "12").
Proof.
  assert (forallb (key_ok (H := excerpt))
            (map fst [(py "x", py "ng.nodes['Group Input'].outputs[0]");
                      (py "2", py "ng.nodes['2'].outputs[0]")]) = true) as K
    by (vm_compute; reflexivity).
  assert (forallb ascii_alpha (py "12") = true \/ forallb digit_or_point (py "12") = true)
    as U by (right; vm_compute; reflexivity).
  split; [exact K|]. split; [exact U|].
  exact (@whole_token_substitution excerpt _ (py "12") K U).
Defined.

(** The text [2(a+b)]. *)
Lemma sanatized_text_authorized_witness :
  sanatize_expression (H := excerpt) false (py "2(a+b)")
  = (fst (sanatize_expression (H := excerpt) false (py "2(a+b)")), inl (py "2*(a+b)"))
  /\ forallb (fun c => char_in c authorized_symbols) (py "2*(a+b)") = true.
Proof.
  assert (sanatize_expression (H := excerpt) false (py "2(a+b)")
          = (fst (sanatize_expression (H := excerpt) false (py "2(a+b)")),
             inl (py "2*(a+b)"))) as S by (vm_compute; reflexivity).
  split; [exact S|].
  exact (@sanatized_text_authorized excerpt false (py "2(a+b)") _ _ S).
Defined.

(** The text [3(x)7(y)]. *)
Lemma sanatized_text_multiplies_witness :
  sanatize_expression (H := excerpt) false (py "3(x)+7(y)")
  = (fst (sanatize_expression (H := excerpt) false (py "3(x)+7(y)")),
     inl (py "3*(x)+7*(y)"))
  /\ digit_then_paren (H := excerpt) (py "3*(x)+7*(y)") = false.
Proof.
  assert (sanatize_expression (H := excerpt) false (py "3(x)+7(y)")
          = (fst (sanatize_expression (H := excerpt) false (py "3(x)+7(y)")),
             inl (py "3*(x)+7*(y)"))) as S by (vm_compute; reflexivity).
  split; [exact S|].
  exact (@sanatized_text_multiplies excerpt false (py "3(x)+7(y)") _ _ S).
Defined.

(** The text [sin(a)+2]. *)
Lemma token_classes_witness :
  sanatize_expression (H := excerpt) false (py "sin(a)+2")
  = (fst (sanatize_expression (H := excerpt) false (py "sin(a)+2")), inl (py "sin(a)+2"))
  /\ elemCmplx (fst (sanatize_expression (H := excerpt) false (py "sin(a)+2"))) = []
  /\ forall x, In x (elemTotal (fst (sanatize_expression (H := excerpt) false
                                       (py "sin(a)+2")))) ->
       In x (elemFct (fst (sanatize_expression (H := excerpt) false (py "sin(a)+2"))))
       \/ In x (elemConst (fst (sanatize_expression (H := excerpt) false (py "sin(a)+2"))))
       \/ In x (elemVar (fst (sanatize_expression (H := excerpt) false (py "sin(a)+2")))).
Proof.
  assert (sanatize_expression (H := excerpt) false (py "sin(a)+2")
          = (fst (sanatize_expression (H := excerpt) false (py "sin(a)+2")),
             inl (py "sin(a)+2"))) as S by (vm_compute; reflexivity).
  split; [exact S|].
  destruct (@token_classes excerpt (py "sin(a)+2") _ _ S) as (_ & C & _ & _ & _ & A).
  split; [exact C | exact A].
Defined.

(** The text [cos(x)*1.5]. *)
Lemma variable_and_constant_shapes_witness :
  sanatize_expression (H := excerpt) false (py "cos(x)*1.5")
  = (fst (sanatize_expression (H := excerpt) false (py "cos(x)*1.5")),
     inl (py "cos(x)*1.5"))
  /\ (forall x, In x (elemVar (fst (sanatize_expression (H := excerpt) false
                                      (py "cos(x)*1.5")))) ->
        x <> [] /\ forallb ascii_alpha x = true /\ ~ In x funct_namespace)
  /\ (forall x, In x (elemConst (fst (sanatize_expression (H := excerpt) false
                                        (py "cos(x)*1.5")))) ->
        forallb digit_or_point x = true /\ existsb ascii_digit x = true).
Proof.
  assert (sanatize_expression (H := excerpt) false (py "cos(x)*1.5")
          = (fst (sanatize_expression (H := excerpt) false (py "cos(x)*1.5")),
             inl (py "cos(x)*1.5"))) as S by (vm_compute; reflexivity).
  split; [exact S|].
  exact (@variable_and_constant_shapes excerpt (py "cos(x)*1.5") _ _ S).
Defined.

(** The tree of [a+b*2]. *)
Lemma lowering_keeps_operands_witness :
  visit (BinOp (Name (py "a")) Add (BinOp (Name (py "b")) Mult (Constant (py "2")))) []
  = Some (Call (Name (py "add"))
               [Name (py "a"); Call (Name (py "mult")) [Name (py "b"); Constant (py "2")]],
          [py "mult"; py "add"])
  /\ operands (Call (Name (py "add"))
                 [Name (py "a"); Call (Name (py "mult")) [Name (py "b"); Constant (py "2")]])
     = operands (BinOp (Name (py "a")) Add
                   (BinOp (Name (py "b")) Mult (Constant (py "2")))).
Proof.
  assert (visit (BinOp (Name (py "a")) Add
                   (BinOp (Name (py "b")) Mult (Constant (py "2")))) []
          = Some (Call (Name (py "add"))
                    [Name (py "a");
                     Call (Name (py "mult")) [Name (py "b"); Constant (py "2")]],
                  [py "mult"; py "add"])) as V by (vm_compute; reflexivity).
  split; [exact V|].
  exact (@lowering_keeps_operands _ _ _ _ V).
Defined.

(** The tree of [-a**2]. *)
Lemma lowering_idempotent_witness :
  visit (UnaryOp USub (BinOp (Name (py "a")) Pow (Constant (py "2")))) []
  = Some (UnaryOp USub (Call (Name (py "exp")) [Name (py "a"); Constant (py "2")]),
          [py "exp"])
  /\ forall again, exists used,
       visit (UnaryOp USub (Call (Name (py "exp")) [Name (py "a"); Constant (py "2")])) again
       = Some (UnaryOp USub (Call (Name (py "exp")) [Name (py "a"); Constant (py "2")]),
               used).
Proof.
  assert (visit (UnaryOp USub (BinOp (Name (py "a")) Pow (Constant (py "2")))) []
          = Some (UnaryOp USub (Call (Name (py "exp")) [Name (py "a"); Constant (py "2")]),
                  [py "exp"])) as V by (vm_compute; reflexivity).
  split; [exact V|].
  exact (@lowering_idempotent _ _ _ _ V).
Defined.

(** The text [a+b*2]. *)
Lemma lowered_calls_registry_witness :
  transform_expression (H := excerpt) (py "a+b*2")
  = inl (Call (Name (py "add"))
              [Name (py "a"); Call (Name (py "mult")) [Name (py "b"); Constant (py "2")]])
  /\ In (py "mult")
        (called (Call (Name (py "add"))
                   [Name (py "a");
                    Call (Name (py "mult")) [Name (py "b"); Constant (py "2")]]))
  /\ In (py "mult") funct_namespace.
Proof.
  assert (transform_expression (H := excerpt) (py "a+b*2")
          = inl (Call (Name (py "add"))
                   [Name (py "a");
                    Call (Name (py "mult")) [Name (py "b"); Constant (py "2")]])) as T
    by (vm_compute; reflexivity).
  assert (In (py "mult")
             (called (Call (Name (py "add"))
                        [Name (py "a");
                         Call (Name (py "mult")) [Name (py "b"); Constant (py "2")]]))) as I
    by (vm_compute; right; left; reflexivity).
  split; [exact T|]. split; [exact I|].
  exact (@lowered_calls_registry excerpt (py "a+b*2") _ (py "mult") T I).
Defined.


(** [add(a, sin(b))] on the tree with the inputs [a], [b], [c]. *)
Lemma synthesis_of_well_formed_witness :
  forallb (key_ok (H := excerpt)) (map fst three_inputs_api) = true
  /\ api_quotable three_inputs_api = true
  /\ height (Call (Name (py "add")) [Name (py "a"); Call (Name (py "sin")) [Name (py "b")]])
     <= DEPTH
  /\ well_formed (key_of three_inputs_api)
    (Call (Name (py "add")) [Name (py "a"); Call (Name (py "sin")) [Name (py "b")]]) = true
  /\ api_resolves three_inputs_api three_inputs
  /\ exists ng' s added new,
       eval (H := excerpt) three_inputs_api
         (Call (Name (py "add")) [Name (py "a"); Call (Name (py "sin")) [Name (py "b")]])
         three_inputs
       = (ng', inl (Socket s))
       /\ map kind (nodes ng') = map kind (nodes three_inputs) ++ added
       /\ length added = 2
       /\ forallb (fun k => is_operation (snd k)) added = true
       /\ links ng' = links three_inputs ++ new
       /\ length new = 3
       /\ inputs ng' = inputs three_inputs.
Proof.
  assert (well_formed (key_of three_inputs_api)
            (Call (Name (py "add")) [Name (py "a"); Call (Name (py "sin")) [Name (py "b")]])
          = true) as W by (vm_compute; reflexivity).
  assert (api_resolves three_inputs_api three_inputs) as R by (vm_compute; reflexivity).
  assert (forallb (key_ok (H := excerpt)) (map fst three_inputs_api) = true) as K
    by (vm_compute; reflexivity).
  assert (api_quotable three_inputs_api = true) as Q by (vm_compute; reflexivity).
  assert (height (Call (Name (py "add"))
                    [Name (py "a"); Call (Name (py "sin")) [Name (py "b")]]) <= DEPTH) as D
    by (vm_compute; lia).
  split; [exact K|]. split; [exact Q|]. split; [exact D|].
  split; [exact W|]. split; [exact R|].
  exact (@synthesis_of_well_formed excerpt _ _ _ K Q D W R).
Defined.

(** [mult(a, b)] on the tree with the inputs [a], [b], [c]. *)
Lemma execution_of_well_formed_witness :
  forallb (key_ok (H := excerpt)) (map fst (dict_merge three_inputs_api [])) = true
  /\ api_quotable (dict_merge three_inputs_api []) = true
  /\ height (Call (Name (py "mult")) [Name (py "a"); Name (py "b")]) <= DEPTH
  /\ well_formed (key_of (dict_merge three_inputs_api []))
    (Call (Name (py "mult")) [Name (py "a"); Name (py "b")]) = true
  /\ api_resolves (dict_merge three_inputs_api []) three_inputs
  /\ NoDup (map name (nodes three_inputs))
  /\ get_node three_inputs Group_Output <> None
  /\ 0 < nodes_of (Call (Name (py "mult")) [Name (py "a"); Name (py "b")])
  /\ exists ng',
       execute_function_expression (H := excerpt) (map py ["a"; "b"; "c"]%string) []
         (Call (Name (py "mult")) [Name (py "a"); Name (py "b")])
         three_inputs three_inputs_api []
       = (ng', ReturnNone).
Proof.
  assert (well_formed (key_of (dict_merge three_inputs_api []))
            (Call (Name (py "mult")) [Name (py "a"); Name (py "b")]) = true) as W
    by (vm_compute; reflexivity).
  assert (api_resolves (dict_merge three_inputs_api []) three_inputs) as R
    by (vm_compute; reflexivity).
  assert (NoDup (map name (nodes three_inputs))) as N.
  { vm_compute. repeat constructor; cbn [In]; intuition discriminate. }
  destruct (get_node three_inputs Group_Output) as [out|] eqn:G;
    [|vm_compute in G; discriminate G].
  assert (0 < nodes_of (Call (Name (py "mult")) [Name (py "a"); Name (py "b")])) as C
    by (vm_compute; lia).
  assert (forallb (key_ok (H := excerpt)) (map fst (dict_merge three_inputs_api [])) = true)
    as K by (vm_compute; reflexivity).
  assert (api_quotable (dict_merge three_inputs_api []) = true) as Q
    by (vm_compute; reflexivity).
  assert (height (Call (Name (py "mult")) [Name (py "a"); Name (py "b")]) <= DEPTH) as D
    by (vm_compute; lia).
  split; [exact K|]. split; [exact Q|]. split; [exact D|].
  split; [exact W|]. split; [exact R|]. split; [exact N|].
  split; [discriminate|]. split; [exact C|].
  destruct (@execution_of_well_formed excerpt (map py ["a"; "b"; "c"]%string) []
              three_inputs_api [] _ _ _ K Q D W R N G C) as (ng' & _ & _ & _ & _ & E & _).
  exists ng'. exact E.
Defined.


(** A fresh node with the text [1.2.3+a]. *)
Lemma crash_only_on_constants_witness :
  sanatize_expression (H := excerpt) false (py "1.2.3+a")
  = (fst (sanatize_expression (H := excerpt) false (py "1.2.3+a")), inl (py "1.2.3+a"))
  /\ forallb float_ok
       (elemConst (fst (sanatize_expression (H := excerpt) false (py "1.2.3+a")))) = false
  /\ snd (apply_expression (H := excerpt) 1 (new_customnode (py "1.2.3+a"))) = Crashed.
Proof.
  assert (get_node (node_tree_of (new_customnode (py "1.2.3+a"))) Group_Input <> None) as GI
    by (vm_compute; discriminate).
  assert (get_node (node_tree_of (new_customnode (py "1.2.3+a"))) Group_Output <> None) as GO
    by (vm_compute; discriminate).
  assert (sanatize_expression (H := excerpt)
            (implicit_mult (new_customnode (py "1.2.3+a")))
            (user_mathexp (new_customnode (py "1.2.3+a")))
          = (fst (sanatize_expression (H := excerpt) false (py "1.2.3+a")),
             inl (py "1.2.3+a"))) as S by (vm_compute; reflexivity).
  assert (forallb float_ok
            (elemConst (fst (sanatize_expression (H := excerpt) false (py "1.2.3+a"))))
          = false) as F by (vm_compute; reflexivity).
  split; [exact S|]. split; [exact F|].
  exact (proj1 (@crash_only_on_constants excerpt 0 (new_customnode (py "1.2.3+a")) _ _
                  GI GO (or_introl eq_refl) S)
               (conj (ex_intro _ (py "1.2.3+a") eq_refl) F)).
Defined.

(** The text [foo(x)] typed into a fresh node. *)
Lemma pass_messages_witness :
  apply_expression (H := excerpt) 1 (new_customnode (py "foo(x)"))
  = (fst (apply_expression (H := excerpt) 1 (new_customnode (py "foo(x)"))),
     TransformFailed (FunctionNotRecognized (py "foo")))
  /\ error_message (fst (apply_expression (H := excerpt) 1 (new_customnode (py "foo(x)"))))
     = message (FunctionNotRecognized (py "foo"))
  /\ debug_fctexp (fst (apply_expression (H := excerpt) 1 (new_customnode (py "foo(x)"))))
     = py "Failed".
Proof.
  assert (apply_expression (H := excerpt) 1 (new_customnode (py "foo(x)"))
          = (fst (apply_expression (H := excerpt) 1 (new_customnode (py "foo(x)"))),
             TransformFailed (FunctionNotRecognized (py "foo")))) as E
    by (vm_compute; reflexivity).
  split; [exact E|].
  destruct (@pass_messages excerpt 1 (new_customnode (py "foo(x)")) _ _ E) as (M & _ & D).
  split; [exact M | exact D].
Defined.

(** The variables [a], [c] on the tree that [a+b] was compiled to. *)
Lemma reconciliation_idempotent_witness :
  ~ In [] [py "a"; py "c"]
  /\ remove_unused_sockets [py "a"; py "c"]
       (create_sockets (H := excerpt) [py "a"; py "c"]
          (remove_unused_sockets [py "a"; py "c"]
             (create_sockets (H := excerpt) [py "a"; py "c"]
                (node_tree_of compiled_a_plus_b))))
     = remove_unused_sockets [py "a"; py "c"]
         (create_sockets (H := excerpt) [py "a"; py "c"]
            (node_tree_of compiled_a_plus_b)).
Proof.
  assert (~ In [] [py "a"; py "c"]) as NE
    by (cbn [In]; intros [E|[E|[]]]; discriminate E).
  split; [exact NE|].
  exact (@reconciliation_idempotent excerpt [py "a"; py "c"]
           (node_tree_of compiled_a_plus_b) NE).
Defined.

(** The text [2a²]. *)
Lemma superscript_run_rewritten_witness :
  py "2a" <> []
  /\ forallb base_char (py "2a") = true
  /\ py "²" <> []
  /\ forallb is_superscript (py "²") = true
  /\ replace_superscript_exponents (py "2a" ++ py "²") = py "(2a**2)".
Proof.
  assert (py "2a" <> []) as B by (vm_compute; discriminate).
  assert (forallb base_char (py "2a") = true) as BC by (vm_compute; reflexivity).
  assert (py "²" <> []) as S by (vm_compute; discriminate).
  assert (forallb is_superscript (py "²") = true) as SC by (vm_compute; reflexivity).
  split; [exact B|]. split; [exact BC|]. split; [exact S|]. split; [exact SC|].
  exact (@superscript_run_rewritten (py "2a") (py "²") B BC S SC).
Defined.

(** The variable [b] on the tree with the inputs [a], [b], [c]. *)
Lemma variable_api_denotes_socket_witness :
  NoDup (map identifier (group_input_outputs three_inputs))
  /\ fill_vareq (map py ["a"; "b"; "c"]%string) three_inputs = Some three_inputs_api
  /\ dict_get (py "b") three_inputs_api = Some {| node_key := Group_Input; idx := 1 |}
  /\ exists s, nth_error (group_input_outputs three_inputs) 1 = Some s
               /\ socket_name s = py "b".
Proof.
  assert (NoDup (map identifier (group_input_outputs three_inputs))) as N.
  { vm_compute. repeat constructor; cbn [In]; intuition discriminate. }
  assert (fill_vareq (map py ["a"; "b"; "c"]%string) three_inputs = Some three_inputs_api)
    as F by (vm_compute; reflexivity).
  assert (dict_get (py "b") three_inputs_api = Some {| node_key := Group_Input; idx := 1 |})
    as D by (vm_compute; reflexivity).
  split; [exact N|]. split; [exact F|]. split; [exact D|].
  exact (proj2 (proj2 (@variable_api_denotes_socket _ _ _ _ _ N F D))).
Defined.

(** [sin((a, b))] on the tree with the inputs [a], [b], [c]. *)
Lemma tuple_operand_reported_witness :
  lookup (py "sin") = Some (Unary (py "SINE"))
  /\ dict_get (py "sin") (dict_merge three_inputs_api []) = None
  /\ eval_list (H := excerpt) (dict_merge three_inputs_api [])
               [Tuple [Name (py "a"); Name (py "b")]] three_inputs
     = (three_inputs,
        inl [TupleObject
               [Socket {| owner := Group_Input; is_output := true; index := 0 |};
                Socket {| owner := Group_Input; is_output := true; index := 1 |}]])
  /\ execute_function_expression (H := excerpt) (map py ["a"; "b"; "c"]%string) []
       (Call (Name (py "sin")) [Tuple [Name (py "a"); Name (py "b")]])
       three_inputs three_inputs_api []
     = (three_inputs, ReturnException WrongTupleSyntax).
Proof.
  assert (lookup (py "sin") = Some (Unary (py "SINE"))) as L by (vm_compute; reflexivity).
  assert (dict_get (py "sin") (dict_merge three_inputs_api []) = None) as D
    by (vm_compute; reflexivity).
  assert (eval_list (H := excerpt) (dict_merge three_inputs_api [])
            [Tuple [Name (py "a"); Name (py "b")]] three_inputs
          = (three_inputs,
             inl [TupleObject
                    [Socket {| owner := Group_Input; is_output := true; index := 0 |};
                     Socket {| owner := Group_Input; is_output := true; index := 1 |}]]))
    as E by (vm_compute; reflexivity).
  split; [exact L|]. split; [exact D|]. split; [exact E|].
  exact (@tuple_operand_reported excerpt (map py ["a"; "b"; "c"]%string) []
           three_inputs_api [] (py "sin") _ _ _ _ _ _ L D E eq_refl).
Defined.


